(** * pip: wheel installation, wheel building and the resolver strategies

    A shallow embedding of [pip/wheel.py] ([rehash], [fix_script],
    [root_is_purelib], the phases of [move_wheel_files],
    [uninstallation_paths], [Wheel] and [WheelBuilder]) and of
    [pip/_internal/resolution/resolvelib/strategy.py], with the properties
    of the natural-language specification stated and proved over it, and
    further properties of the code after them.

    Python byte strings are lists of characters; dictionaries and sets are
    stdpp's [gmap] and [gset]; code that raises returns a sum whose left
    side is the exception. *)

From Stdlib Require Import Ascii String ZArith List Lia DecimalString.
From stdpp Require Import base option list gmap sets strings countable.

Open Scope char_scope.
Open Scope list_scope.

(** ** Python strings *)

Abbreviation str := (list ascii).

(** A string literal of the source. *)
Definition py (s : string) : str := list_ascii_of_string s.
Arguments py : simpl never.

(** The exceptions the modelled code can raise. *)
Inductive exn :=
| AttributeError
| AssertionError (msg : str)
| IndexError
| IOError (path : str)
| InstallationError
| ValueError.

Abbreviation result A := (exn + A)%type.

(** [s.startswith(p)] and [s.endswith(p)]. *)
Definition startswith (s p : str) : bool := bool_decide (p `prefix_of` s).
Definition endswith (s p : str) : bool := bool_decide (p `suffix_of` s).

(** [s.replace(a, b)] for one-character [a] and [b]. *)
Definition replace (a b : ascii) (s : str) : str :=
  (λ c, if decide (c = a) then b else c) <$> s.

(** [s.split(sep)] for a one-character separator: never the empty list. *)
Fixpoint split (sep : ascii) (s : str) : list str :=
  match s with
  | [] => [[]]
  | c :: s' =>
      if decide (c = sep) then [] :: split sep s'
      else match split sep s' with
           | w :: ws => (c :: w) :: ws
           | [] => [[c]]
           end
  end.

(** [s.rstrip(c)] and [s.lstrip(c)] for a one-character set. *)
Fixpoint lstrip (c : ascii) (s : str) : str :=
  match s with
  | x :: s' => if decide (x = c) then lstrip c s' else s
  | [] => []
  end.
Definition rstrip (c : ascii) (s : str) : str := reverse (lstrip c (reverse s)).

(** [l.index(c)]: the first position of [c]; [None] where Python raises
    [ValueError]. *)
Definition list_index {A} `{EqDecision A} (c : A) (l : list A) : option nat :=
  fst <$> list_find (fun t => t = c) l.

(** [s.lower()] on ASCII letters. *)
Definition lower_char (c : ascii) : ascii :=
  let n := nat_of_ascii c in
  if (65 <=? n)%nat && (n <=? 90)%nat then ascii_of_nat (n + 32) else c.
Definition lower (s : str) : str := lower_char <$> s.

(** ** The resolver strategies ([strategy.py]) *)

Module Strategy.

(** The two concrete subclasses of [AbstractStrategy]; neither has fields. *)
Inductive AbstractStrategy := DefaultStrategy | EarliestCompatible.

#[global] Instance AbstractStrategy_eq_dec : EqDecision AbstractStrategy.
Proof. solve_decision. Defined.

Section Methods.
Context {Candidate Requirement : Type}.

Definition get_preferred_candidate (self : AbstractStrategy)
    (resolution : option Candidate) (candidates : list Candidate)
    (information : list (Requirement * Candidate)) : nat :=
  match self with
  | DefaultStrategy => length candidates
  | EarliestCompatible => 0
  end.

(** [reversed(candidates)] is the sequence read backwards. *)
Definition sort_candidates (self : AbstractStrategy)
    (candidates : list Candidate) : list Candidate :=
  match self with
  | DefaultStrategy => reverse candidates
  | EarliestCompatible => candidates
  end.
End Methods.

(** The class table of [strategy_factory]: a one-entry dict and its
    [.get(name, DefaultStrategy)]. *)
Definition strategy_table : gmap str AbstractStrategy :=
  {[ py "earliest-compatible" := EarliestCompatible ]}.

Definition strategy_factory (name : str) : AbstractStrategy :=
  let f := default DefaultStrategy (strategy_table !! name) in
  f.

End Strategy.

(** ** Regular expressions, as Python's [re] matches them

    A backtracking matcher in continuation-passing style: alternatives are
    tried left to right, a greedy [?] tries its body first, a lazy [*?] or
    [+?] tries the continuation first and one more character afterwards.
    The first complete match wins, as in [re.match]. *)

Module Re.

Inductive regex :=
| Eps                           (* the empty pattern *)
| Chr (a : ascii)               (* a literal character *)
| Cls (p : ascii -> bool)       (* a character class: [\d], [.] *)
| Cat (r1 r2 : regex)           (* concatenation *)
| Alt (r1 r2 : regex)           (* [r1|r2] *)
| Opt (r : regex)               (* greedy [r?] *)
| LazyStar (p : ascii -> bool)  (* [c*?] on a character class *)
| LazyPlus (p : ascii -> bool)  (* [c+?] on a character class *)
| Grp (g : str) (r : regex)     (* the named group [(?P<g>r)] *)
| Eos.                          (* [$] *)

(** A match object: the text of every group that took part in the match. *)
Abbreviation caps := (gmap str str).

(** [.]: any character but a newline. *)
Definition dot (c : ascii) : bool := negb (Ascii.eqb c "010").

(** [\d] on a byte string. *)
Definition digit (c : ascii) : bool :=
  (48 <=? nat_of_ascii c)%nat && (nat_of_ascii c <=? 57)%nat.

(** A literal word. *)
Definition Lit (w : string) : regex :=
  foldr (fun a r => Cat (Chr a) r) Eps (py w).

Section Matcher.
Context (p : ascii -> bool) (k : str -> caps -> option caps).

Fixpoint lazy_loop (s : str) (c : caps) : option caps :=
  match k s c with
  | Some m => Some m
  | None =>
      match s with
      | x :: s' => if p x then lazy_loop s' c else None
      | [] => None
      end
  end.
End Matcher.

Fixpoint rmatch (r : regex) (s : str) (c : caps)
    (k : str -> caps -> option caps) : option caps :=
  match r with
  | Eps => k s c
  | Chr a =>
      match s with
      | x :: s' => if Ascii.eqb x a then k s' c else None
      | [] => None
      end
  | Cls p =>
      match s with
      | x :: s' => if p x then k s' c else None
      | [] => None
      end
  | Cat r1 r2 => rmatch r1 s c (fun s' c' => rmatch r2 s' c' k)
  | Alt r1 r2 =>
      match rmatch r1 s c k with
      | Some m => Some m
      | None => rmatch r2 s c k
      end
  | Opt r1 =>
      match rmatch r1 s c k with
      | Some m => Some m
      | None => k s c
      end
  | LazyStar p => lazy_loop p k s c
  | LazyPlus p =>
      match s with
      | x :: s' => if p x then lazy_loop p k s' c else None
      | [] => None
      end
  | Grp g r1 =>
      rmatch r1 s c
        (fun s' c' => k s' (<[g := take (length s - length s') s]> c'))
  | Eos =>
      match s with
      | [] => k s c
      | [x] => if Ascii.eqb x "010" then k s c else None
      | _ => None
      end
  end.

(** [pattern.match(s)]: anchored at the start of [s], so a leading [^]
    adds nothing and is left out of the patterns below. *)
Definition re_match (r : regex) (s : str) : option caps :=
  rmatch r s ∅ (fun _ c => Some c).

(** [m.group(g)]: [None] for a group that did not take part. *)
Definition group (m : caps) (g : string) : option str := m !! py g.

End Re.

(** ** Archive identity ([class Wheel]) *)

Module WheelFile.
Import Re.

Abbreviation tag := (str * str * str)%type.

(** The parts of [wheel_file_re]: the three tags and the extension,
    [-(?P<pyver>.+?)-(?P<abi>.+?)-(?P<plat>.+?)\.whl]; the optional build,
    [(-(?P<build>\d.*?))?]; the optional version, [(-(?P<ver>\d.+?))?]. *)
Definition re_tags : regex :=
  Cat (Chr "-")
  (Cat (Grp (py "pyver") (LazyPlus dot))
  (Cat (Chr "-")
  (Cat (Grp (py "abi") (LazyPlus dot))
  (Cat (Chr "-")
  (Cat (Grp (py "plat") (LazyPlus dot))
       (Lit ".whl")))))).

Definition re_build : regex :=
  Cat (Chr "-") (Grp (py "build") (Cat (Cls digit) (LazyStar dot))).

Definition re_ver : regex :=
  Cat (Chr "-") (Grp (py "ver") (Cat (Cls digit) (LazyPlus dot))).

(** What comes after [namever]: the rest of a wheel name, or
    [\.dist-info], and the end. *)
Definition re_tail : regex :=
  Cat (Alt (Cat (Opt re_build) re_tags) (Lit ".dist-info")) Eos.

(** [wheel_file_re], written with [re.VERBOSE]: white space in the pattern
    does not count. *)
Definition wheel_file_re : regex :=
  Cat (Grp (py "namever")
         (Cat (Grp (py "name") (LazyPlus dot)) (Opt re_ver)))
      re_tail.

(** The error monad of code that can raise. *)
Definition bind {A B} (x : result A) (f : A -> result B) : result B :=
  match x with
  | inl e => inl e
  | inr a => f a
  end.

(** A method call on the value of [m.group(g)]: on [None] it raises
    [AttributeError]. *)
Definition deref (o : option str) : result str :=
  match o with
  | Some s => inr s
  | None => inl AttributeError
  end.

Record Wheel := {
  filename : str;
  name : str;
  version : str;
  pyversions : list str;
  abis : list str;
  plats : list str;
  file_tags : gset tag
}.

(** [Wheel.__init__]. A file name the pattern rejects leaves [wheel_info]
    at [None], and [wheel_info.group] raises. *)
Definition Wheel_init (filename : str) : result Wheel :=
  match re_match wheel_file_re filename with
  | None => inl AttributeError
  | Some wheel_info =>
      bind (deref (group wheel_info "name")) (fun n =>
      let name := replace "_" "-" n in
      bind (deref (group wheel_info "ver")) (fun v =>
      let version := replace "_" "-" v in
      bind (deref (group wheel_info "pyver")) (fun py_ =>
      let pyversions := split "." py_ in
      bind (deref (group wheel_info "abi")) (fun a =>
      let abis := split "." a in
      bind (deref (group wheel_info "plat")) (fun p =>
      let plats := split "." p in
      inr {| filename := filename; name := name; version := version;
             pyversions := pyversions; abis := abis; plats := plats;
             file_tags :=
               list_to_set
                 (x ← pyversions; y ← abis; z ← plats; [(x, y, z)]) |})))))
  end.

(** [min(indexes) if indexes else None]. *)
Definition min_or_none (indexes : list nat) : option nat :=
  match indexes with
  | [] => None
  | i :: rest => Some (foldr Nat.min i rest)
  end.

(** ** Wheel file names

    The file names the grammar of the specification describes, with what
    the pattern needs of their parts: no part is empty or has a hyphen or
    a line end in it, the version starts with a digit and has a second
    character, the build starts with a digit. *)
Definition segment (s : str) : Prop :=
  s ≠ [] ∧ Forall (fun c => c ≠ "-" ∧ dot c = true) s.

Definition version_segment (s : str) : Prop :=
  segment s ∧ ∃ d v, s = d :: v ∧ digit d = true ∧ v ≠ [].

Definition build_segment (s : str) : Prop :=
  segment s ∧ ∃ d v, s = d :: v ∧ digit d = true.

(** [-{pytag}-{abitag}-{platformtag}.whl]. *)
Definition tags_name (pyver abi plat : str) : str :=
  "-" :: pyver ++ "-" :: abi ++ "-" :: plat ++ py ".whl".

(** [(-{build})?]. *)
Definition build_name (build : option str) : str :=
  match build with
  | Some b => "-" :: b
  | None => []
  end.

(** [{name}-{version}(-{build})?-{pytag}-{abitag}-{platformtag}.whl]. *)
Definition wheel_filename (name ver : str) (build : option str)
    (pyver abi plat : str) : str :=
  name ++ "-" :: ver ++ build_name build ++ tags_name pyver abi plat.

(** [{name}-{version}.dist-info]. *)
Definition dist_info_name (name ver : str) : str :=
  name ++ "-" :: ver ++ py ".dist-info".

(** What the groups of [wheel_file_re] hold after a match on a wheel
    name: the build and the tags on top of [c], and all of them. *)
Definition tail_caps (build : option str) (pyver abi plat : str)
    (c : caps) : caps :=
  <[py "plat" := plat]>
    (<[py "abi" := abi]>
       (<[py "pyver" := pyver]>
          (match build with
           | Some b => <[py "build" := b]> c
           | None => c
           end))).

Definition wheel_caps (name ver : str) (build : option str)
    (pyver abi plat : str) : caps :=
  tail_caps build pyver abi plat
    (<[py "namever" := name ++ "-" :: ver]>
       (<[py "ver" := ver]> (<[py "name" := name]> ∅))).

(** The number of hyphens in a string. *)
Definition hyphens (s : str) : nat := count_occ ascii_dec s "-".

Section Supported.
(** [pep425tags.supported_tags], the default of the [tags] argument. *)
Context (supported_tags : list tag).

Definition tags_or_default (tags : option (list tag)) : list tag :=
  match tags with
  | None => supported_tags
  | Some t => t
  end.

(** [support_index_min]. The comprehension keeps the file tags that are
    in [tags], so [tags.index] is only called where it cannot raise. *)
Definition support_index_min (self : Wheel) (tags : option (list tag))
    : option nat :=
  let tags := tags_or_default tags in
  let indexes :=
    omap (fun c => list_index c tags)
         (filter (fun c => c ∈ tags) (elements (file_tags self))) in
  min_or_none indexes.

(** [supported]. *)
Definition supported (self : Wheel) (tags : option (list tag)) : bool :=
  let tags := tags_or_default tags in
  bool_decide ((list_to_set tags : gset tag) ∩ file_tags self ≠ ∅).
End Supported.

End WheelFile.

(** ** POSIX paths ([os.path] on a POSIX system) *)

Module Posix.

Definition sep : ascii := "/".

(** [os.path.join(a, b)]. *)
Definition join (a b : str) : str :=
  if startswith b [sep] then b
  else if bool_decide (a = []) || endswith a [sep] then a ++ b
  else a ++ sep :: b.

Definition join3 (a b c : str) : str := join (join a b) c.

(** [s.rfind(c)]: the last position of [c], or [-1]. *)
Fixpoint rfind (c : ascii) (s : str) : Z :=
  match s with
  | [] => -1
  | x :: s' =>
      let r := rfind c s' in
      if (0 <=? r)%Z then (r + 1)%Z
      else if decide (x = c) then 0%Z else (-1)%Z
  end.

(** What [os.path.split] makes of the part up to the last separator: it
    loses its trailing separators unless it is made of separators only. *)
Definition split_head (head : str) : str :=
  if negb (bool_decide (head = [])) &&
     negb (bool_decide (head = replicate (length head) sep))
  then rstrip sep head
  else head.

(** [os.path.split(p)]. *)
Definition psplit (p : str) : str * str :=
  let i := Z.to_nat (rfind sep p + 1) in
  let head := take i p in
  let tail := drop i p in
  (split_head head, tail).

End Posix.

(** ** Uninstallation paths *)

Module Uninstall.
Import Posix.

(** What a generator does when it is run to its end: the items it yields,
    then either exhaustion or an exception. *)
Abbreviation gen A := (list A * option exn)%type.

(** The loop of [_unique], with the [seen] set it threads. *)
Fixpoint unique_from (seen : gset str) (items : list str) : list str :=
  match items with
  | [] => []
  | item :: rest =>
      if decide (item ∈ seen) then unique_from seen rest
      else item :: unique_from ({[item]} ∪ seen) rest
  end.

(** The decorator [_unique]; an exception of the wrapped generator passes
    through after the items that came before it. *)
Definition _unique (g : gen str) : gen str :=
  (unique_from ∅ g.1, g.2).

(** An installed distribution: its location and the rows [csv.reader]
    gives for the lines of its RECORD. *)
Record Dist := {
  location : str;
  record_rows : list (list str)
}.

(** [fn[:-3]]. *)
Definition drop_last3 (fn : str) : str := take (length fn - 3) fn.

(** The [.pyc] next to a [.py] path. *)
Definition pyc_sibling (path : str) : str :=
  let '(dn, fn) := psplit path in
  let base := drop_last3 fn in
  join dn (base ++ py ".pyc").

(** One turn of the loop of [uninstallation_paths]: what it yields for
    the path in [row[0]]. *)
Definition row_paths (loc row0 : str) : list str :=
  let path := join loc row0 in
  if endswith path (py ".py") then [path; pyc_sibling path] else [path].

(** The body of [uninstallation_paths] before decoration; [row[0]] on an
    empty row raises [IndexError]. *)
Fixpoint uninstallation_paths_body (loc : str) (rows : list (list str))
    : gen str :=
  match rows with
  | [] => ([], None)
  | row :: rest =>
      match row with
      | [] => ([], Some IndexError)
      | row0 :: _ =>
          let '(more, e) := uninstallation_paths_body loc rest in
          (row_paths loc row0 ++ more, e)
      end
  end.

(** What the body yields when no row is empty. *)
Definition raw_paths (loc : str) (rows : list (list str)) : list str :=
  row ← rows; match row with [] => [] | row0 :: _ => row_paths loc row0 end.

Definition uninstallation_paths (dist : Dist) : gen str :=
  _unique (uninstallation_paths_body (location dist) (record_rows dist)).

End Uninstall.

(** ** The content hasher *)

Module Hasher.

(** [hashlib]: a hash object is created for an algorithm name, fed blocks
    and asked for its digest; feeding nothing changes nothing, and feeding
    two blocks is feeding their concatenation. [hnew] is [None] for a
    name the library does not know, where [hashlib.new] raises
    [ValueError]. *)
Record Hashlib := {
  hstate : Type;
  hnew : str -> option hstate;
  hupdate : hstate -> str -> hstate;
  hdigest : hstate -> str;
  hupdate_nil : ∀ h, hupdate h [] = h;
  hupdate_app : ∀ h a b, hupdate (hupdate h a) b = hupdate h (a ++ b)
}.

(** A hash library to run the definitions on: it knows the names [md5],
    [sha1] and [sha256]; its state is the algorithm name and the bytes
    fed so far, its digest is the two together. *)
Definition toy_hashlib : Hashlib.
Proof.
  refine {| hstate := str * str;
            hnew := fun algo =>
              if bool_decide (algo ∈ [py "md5"; py "sha1"; py "sha256"])
              then Some (algo, []) else None;
            hupdate := fun h block => (h.1, h.2 ++ block);
            hdigest := fun h => h.1 ++ h.2 |}.
  - intros [a d]. simpl. by rewrite app_nil_r.
  - intros [a d] x y. simpl. by rewrite (assoc_L (++)).
Defined.

(** The URL-safe base64 alphabet. *)
Definition b64_char (n : N) : ascii :=
  if (n <? 26)%N then ascii_of_N (65 + n)
  else if (n <? 52)%N then ascii_of_N (97 + (n - 26))
  else if (n <? 62)%N then ascii_of_N (48 + (n - 52))
  else if (n =? 62)%N then "-" else "_".

(** [base64.urlsafe_b64encode]. *)
Fixpoint urlsafe_b64encode (bs : str) : str :=
  match bs with
  | [] => []
  | [a] =>
      let x := N_of_ascii a in
      [b64_char (N.shiftr x 2); b64_char (N.shiftl (N.land x 3) 4); "="; "="]
  | [a; b] =>
      let x := N_of_ascii a in
      let y := N_of_ascii b in
      [b64_char (N.shiftr x 2);
       b64_char (N.lor (N.shiftl (N.land x 3) 4) (N.shiftr y 4));
       b64_char (N.shiftl (N.land y 15) 2); "="]
  | a :: b :: c :: rest =>
      let x := N_of_ascii a in
      let y := N_of_ascii b in
      let z := N_of_ascii c in
      b64_char (N.shiftr x 2)
      :: b64_char (N.lor (N.shiftl (N.land x 3) 4) (N.shiftr y 4))
      :: b64_char (N.lor (N.shiftl (N.land y 15) 2) (N.shiftr z 6))
      :: b64_char (N.land z 63)
      :: urlsafe_b64encode rest
  end.

(** [f.read(n)] on what is left of a file opened with ['rb'] (Python 3):
    at most [n] bytes, everything for [n = -1], and [ValueError] for a
    size below that. *)
Definition read (n : Z) (rest : str) : result str :=
  if (n <? -1)%Z then inl ValueError
  else if (n <? 0)%Z then inr rest
  else inr (take (Z.to_nat n) rest).

Section Rehash.
Context (hl : Hashlib).

(** The [while block:] loop with the [read] before each test; [rest] is
    the unread part of the file. [None] when the turns run out. *)
Fixpoint rehash_loop (fuel : nat) (blocksize : Z) (h : hstate hl)
    (length : nat) (rest : str) : option (result (hstate hl * nat)) :=
  match fuel with
  | O => None
  | S fuel' =>
      match read blocksize rest with
      | inl e => Some (inl e)
      | inr [] => Some (inr (h, length))
      | inr block =>
          rehash_loop fuel' blocksize (hupdate hl h block)
            (length + List.length block) (drop (List.length block) rest)
      end
  end.

(** [rehash(path, algo, blocksize)] on a file system that maps the paths
    of regular files to their bytes: the hash object is made first, then
    the file is opened and read. The loop runs at most once per byte of
    the file and once more. *)
Definition rehash (fs : gmap str str) (path : str) (algo : str)
    (blocksize : Z) : result (str * nat) :=
  match hnew hl algo with
  | None => inl ValueError
  | Some h =>
      match fs !! path with
      | None => inl (IOError path)
      | Some data =>
          match rehash_loop (S (List.length data)) blocksize h 0 data with
          | None => inl (IOError path)
          | Some (inl e) => inl e
          | Some (inr (h, length)) =>
              let digest :=
                py "sha256=" ++ rstrip "=" (urlsafe_b64encode (hdigest hl h)) in
              inr (digest, length)
          end
      end
  end.
End Rehash.

(** The default arguments of [rehash]. *)
Definition default_algo : str := py "sha256".
Definition default_blocksize : Z := Z.shiftl 1 20.

End Hasher.

(** ** Code that changes a state and can raise *)

Module Exec.

(** A computation over a state [S]: it ends with a value or an exception,
    and the state it leaves is kept in both cases. *)
Definition M (S A : Type) : Type := S -> result A * S.

Section Ops.
Context {S : Type}.

Definition ret {A} (a : A) : M S A := fun s => (inr a, s).
Definition raise {A} (e : exn) : M S A := fun s => (inl e, s).
Definition bnd {A B} (m : M S A) (f : A -> M S B) : M S B :=
  fun s =>
    match m s with
    | (inl e, s') => (inl e, s')
    | (inr a, s') => f a s'
    end.
Definition get : M S S := fun s => (inr s, s).
Definition modify (f : S -> S) : M S unit := fun s => (inr tt, f s).

(** [try: m except: h] with a bare [except], which catches everything. *)
Definition try_except {A} (m : M S A) (h : M S A) : M S A :=
  fun s =>
    match m s with
    | (inl _, s') => h s'
    | (inr a, s') => (inr a, s')
    end.

(** [for x in l: body(x)]. *)
Fixpoint for_each {A} (l : list A) (body : A -> M S unit) : M S unit :=
  match l with
  | [] => ret tt
  | x :: rest => bnd (body x) (fun _ => for_each rest body)
  end.
End Ops.

Notation "'let!' x ':=' m 'in' k" := (bnd m (fun x => k))
  (at level 10, x name, m at level 100, k at level 200).
Notation "m ';;' k" := (bnd m (fun _ => k))
  (at level 100, k at level 200, right associativity).

End Exec.

(** ** The build orchestrator ([class WheelBuilder]) *)

Module Builder.
Import Exec.

(** What [build] reads of a requirement. *)
Record Req := {
  req_name : str;
  is_wheel : bool;
  url : str;
  source_dir : str;
  setup_py : str
}.

(** How running a command ends: with an exit code, or with an exception
    because the command could not be run at all. *)
Inductive outcome :=
| Exited (code : Z)
| NotRun (e : exn).

Inductive log_line :=
| Notify (msg : str)
| Error (msg : str).

Record WheelBuilder := {
  wheel_dir : str;
  build_options : list str;
  global_options : list str
}.

Section Build.
Context {World : Type}.

(** The world outside: running a command with a working directory, the
    preparation of the requirement set, and the script text that
    [_build_one] passes to [-c] for a [setup.py]. *)
Context (run : list str -> str -> World -> outcome * World).
Context (prepare_files : World -> result (list Req) * World).
Context (sys_executable : str) (setup_script : str -> str).

Record state := {
  world : World;
  log : list log_line
}.

Definition logger (l : log_line) : M state unit :=
  modify (fun st => {| world := world st; log := log st ++ [l] |}).

(** Modelled from the spec: [call_subprocess] of [pip.util], which is not
    part of this module. A non-zero exit of the subprocess is a raised
    error ("a non-zero exit or raised error from that subprocess"); an
    exit with 0 returns. *)
Definition call_subprocess (args : list str) (cwd : str) : M state unit :=
  fun st =>
    let '(o, w) := run args cwd (world st) in
    let st' := {| world := w; log := log st |} in
    match o with
    | Exited 0 => (inr tt, st')
    | Exited _ => (inl InstallationError, st')
    | NotRun e => (inl e, st')
    end.

(** The command line [_build_one] builds for a requirement. *)
Definition wheel_args (self : WheelBuilder) (req : Req) : list str :=
  let base_args :=
    [sys_executable; py "-c"; setup_script (setup_py req)]
    ++ global_options self in
  base_args ++ [py "bdist_wheel"; py "-d"; wheel_dir self]
  ++ build_options self.

(** [_build_one]. *)
Definition _build_one (self : WheelBuilder) (req : Req) : M state bool :=
  logger (Notify (py "Running setup.py bdist_wheel for " ++ req_name req)) ;;
  logger (Notify (py "Destination directory: " ++ wheel_dir self)) ;;
  let wheel_args := wheel_args self req in
  try_except
    (call_subprocess wheel_args (source_dir req) ;; ret true)
    (logger (Error (py "Failed building wheel for " ++ req_name req)) ;;
     ret false).

(** The [for req in reqset] loop of [build], with the two lists it
    appends to. *)
Fixpoint build_loop (self : WheelBuilder) (reqset : list Req)
    (build_success build_failure : list Req)
    : M state (list Req * list Req) :=
  match reqset with
  | [] => ret (build_success, build_failure)
  | req :: rest =>
      if is_wheel req then
        logger (Notify (py "Skipping building wheel: " ++ url req)) ;;
        build_loop self rest build_success build_failure
      else
        let! ok := _build_one self req in
        if ok : bool then
          build_loop self rest (build_success ++ [req]) build_failure
        else
          build_loop self rest build_success (build_failure ++ [req])
  end.

(** [sepr.join([req.name for req in reqs])]. *)
Fixpoint names (reqs : list Req) (sepr : str) : str :=
  match reqs with
  | [] => []
  | [r] => req_name r
  | r :: rest => req_name r ++ sepr ++ names rest sepr
  end.

(** [build]. The source ends after the two closing log lines; the value
    here is the pair of lists [build_success], [build_failure] it holds
    at that point. Directories are not part of [World], so the creation
    of the wheel directory does not show. *)
Definition build (self : WheelBuilder) : M state (list Req * list Req) :=
  let! reqset :=
    (fun st =>
       let '(r, w) := prepare_files (world st) in
       (r, {| world := w; log := log st |})) in
  logger (Notify (py "Building wheels for collected packages: "
                  ++ names reqset (py ", "))) ;;
  let! lists := build_loop self reqset [] [] in
  let '(build_success, build_failure) := lists in
  (if bool_decide (build_success = []) then ret tt
   else logger (Notify (py "Successfully built " ++ names build_success (py " ")))) ;;
  (if bool_decide (build_failure = []) then ret tt
   else logger (Notify (py "Failed to build " ++ names build_failure (py " ")))) ;;
  ret (build_success, build_failure).

(** The subprocess ended well: it exited with 0. *)
Definition succeeded (o : outcome) : bool :=
  match o with
  | Exited 0 => true
  | _ => false
  end.

(** One run of the build command for every requirement that is no wheel,
    in the order of the batch, each in the world the one before left:
    the requirement and how its run ended. *)
Fixpoint subprocess_runs (self : WheelBuilder) (reqset : list Req)
    (w : World) : list (Req * outcome) * World :=
  match reqset with
  | [] => ([], w)
  | req :: rest =>
      if is_wheel req then subprocess_runs self rest w
      else
        let '(o, w1) := run (wheel_args self req) (source_dir req) w in
        let '(runs, w2) := subprocess_runs self rest w1 in
        ((req, o) :: runs, w2)
  end.
End Build.

End Builder.

(** ** Installing a wheel ([move_wheel_files]) *)

Module Install.
Import Exec Re Posix Hasher.

(** A directory as [os.walk] sees it: its sub-directories by name and the
    names of its files. *)
#[local] Set Warnings "-register-all".
Inductive tree :=
| Dir (subdirs : list (str * tree)) (files : list str).
#[local] Set Warnings "register-all".

(** [os.walk(top)], top down: a directory first, then its sub-directories
    in turn. *)
Fixpoint os_walk (top : str) (t : tree) : list (str * list str * list str) :=
  match t with
  | Dir subdirs files =>
      (top, fst <$> subdirs, files)
      :: (fix walk_all (ds : list (str * tree)) :=
            match ds with
            | [] => []
            | (n, d) :: ds' => os_walk (join top n) d ++ walk_all ds'
            end) subdirs
  end.

(** The names of the directories at the top of a tree. *)
Definition top_level_dirs (t : tree) : list str :=
  match t with Dir subdirs _ => fst <$> subdirs end.

(** [basedir.split(os.path.sep, 1)[0]]. *)
Fixpoint first_component (s : str) : str :=
  match s with
  | [] => []
  | c :: s' => if decide (c = sep) then [] else c :: first_component s'
  end.

(** [script.readline()] at the start of a file: up to and with the first
    newline. *)
Fixpoint readline (data : str) : str :=
  match data with
  | [] => []
  | c :: rest => if Ascii.eqb c "010" then [c] else c :: readline rest
  end.

(** [str(n)] for a length. *)
Definition str_of_nat (n : nat) : str :=
  py (NilEmpty.string_of_uint (Nat.to_uint n)).

(** [if x:] on the result of a fixer, which is [None], [False] or
    [True]. *)
Definition truthy (o : option bool) : bool := default false o.

(** The state of one installation: the regular files on disk, and the
    local variables of [move_wheel_files] that its closures share. *)
Record state := {
  fs : gmap str str;
  info_dir : list str;
  data_dirs : list str;
  installed : gmap str str;
  changed : gset str;
  generated : list str
}.

Definition set_fs (f : gmap str str -> gmap str str) (st : state) : state :=
  {| fs := f (fs st); info_dir := info_dir st; data_dirs := data_dirs st;
     installed := installed st; changed := changed st;
     generated := generated st |}.
Definition set_info_dir (f : list str -> list str) (st : state) : state :=
  {| fs := fs st; info_dir := f (info_dir st); data_dirs := data_dirs st;
     installed := installed st; changed := changed st;
     generated := generated st |}.
Definition set_data_dirs (f : list str -> list str) (st : state) : state :=
  {| fs := fs st; info_dir := info_dir st; data_dirs := f (data_dirs st);
     installed := installed st; changed := changed st;
     generated := generated st |}.
Definition set_installed (f : gmap str str -> gmap str str) (st : state)
    : state :=
  {| fs := fs st; info_dir := info_dir st; data_dirs := data_dirs st;
     installed := f (installed st); changed := changed st;
     generated := generated st |}.
Definition set_changed (f : gset str -> gset str) (st : state) : state :=
  {| fs := fs st; info_dir := info_dir st; data_dirs := data_dirs st;
     installed := installed st; changed := f (changed st);
     generated := generated st |}.
Definition set_generated (f : list str -> list str) (st : state) : state :=
  {| fs := fs st; info_dir := info_dir st; data_dirs := data_dirs st;
     installed := installed st; changed := changed st;
     generated := f (generated st) |}.

(** The state [move_wheel_files] starts from. *)
Definition initial (files : gmap str str) : state :=
  {| fs := files; info_dir := []; data_dirs := []; installed := ∅;
     changed := ∅; generated := [] |}.

(** [re.match(r'pip(\d(\.\d)?)?$', k)] and
    [re.match(r'easy_install(-\d\.\d)?$', k)]. *)
Definition pip_ep_re : regex :=
  Cat (Lit "pip")
      (Cat (Opt (Cat (Cls digit) (Opt (Cat (Chr ".") (Cls digit))))) Eos).
Definition easy_install_ep_re : regex :=
  Cat (Lit "easy_install")
      (Cat (Opt (Cat (Chr "-") (Cat (Cls digit) (Cat (Chr ".") (Cls digit)))))
           Eos).

Definition matches (r : regex) (k : str) : bool :=
  bool_decide (is_Some (re_match r k)).

(** [eps = [k for k in console if re.match(r, k)]] and then
    [for k in eps: del console[k]]. *)
Definition del_matching (r : regex) (console : gmap str str)
    : gmap str str :=
  let eps := filter (fun k => matches r k = true) (fst <$> map_to_list console) in
  foldl (fun m k => delete k m) console eps.

(** [if script:] on what [console.pop(name, None)] gave: the entry point
    is declared, with a target that is not empty. *)
Definition declared (script : option str) : bool :=
  match script with
  | Some (_ :: _) => true
  | _ => false
  end.

(** ['%s = %s' % (name, target)]. *)
Definition spec_of (name target : str) : str := name ++ py " = " ++ target.

(** [shutil.move(src, dst)] for a regular file. *)
Definition shutil_move (src dst : str) : M state unit :=
  fun st =>
    match fs st !! src with
    | None => (inl (IOError src), st)
    | Some data => (inr tt, set_fs (fun m => <[dst := data]> (delete src m)) st)
    end.

(** An absolute path. *)
Definition isabs (p : str) : bool := startswith p [sep].

(** [sep.join(parts)]. *)
Fixpoint sep_join (parts : list str) : str :=
  match parts with
  | [] => []
  | [p] => p
  | p :: rest => p ++ sep :: sep_join rest
  end.

(** [s.strip(os.path.sep)]. *)
Definition strip_sep (s : str) : str := rstrip sep (lstrip sep s).

(** The loop of [make_path_relative] that drops the leading parts two
    paths share. *)
Fixpoint drop_common (path_parts rel_to_parts : list str)
    : list str * list str :=
  match path_parts, rel_to_parts with
  | p :: ps, r :: rs =>
      if decide (p = r) then drop_common ps rs
      else (path_parts, rel_to_parts)
  | _, _ => (path_parts, rel_to_parts)
  end.

(** [make_path_relative] of [pip.util] on absolute paths that are already
    normalised, where its [abspath] and [normpath] change nothing; it is
    used to run the definitions below on examples. *)
Definition relative_to (path rel_to : str) : str :=
  let path_filename := (psplit path).2 in
  let path := (psplit path).1 in
  let path_parts := split sep (strip_sep path) in
  let rel_to_parts := split sep (strip_sep rel_to) in
  let '(path_parts, rel_to_parts) := drop_common path_parts rel_to_parts in
  let full_parts :=
    replicate (length rel_to_parts) (py "..") ++ path_parts
    ++ [path_filename] in
  if decide (full_parts = [[]]) then py "./" else sep_join full_parts.

(** A [csv] writer and reader for fields without commas, quotes or line
    ends, where no quoting takes place; they are used to run the
    definitions below on examples. *)
Definition plain_writerow (row : list str) : str :=
  (fix commas (fields : list str) : str :=
     match fields with
     | [] => []
     | [f] => f
     | f :: rest => f ++ "," :: commas rest
     end) row ++ ["013"; "010"].

Definition plain_reader (text : str) : list (list str) :=
  (fun line => split "," (rstrip "013" line))
  <$> List.filter (fun line => negb (bool_decide (line = [])))
        (split "010" text).

(** The order in which the interpreter goes through a dict: [items m]
    lists the items of [m], each once. Which order it is (that of the
    hashes, or that of the insertions) is the interpreter's. *)
Record DictOrder := {
  items : gmap str str -> list (str * str);
  items_perm : ∀ m, items m ≡ₚ map_to_list m
}.

(** An order to run the definitions below on examples. *)
Definition gmap_order : DictOrder :=
  {| items := map_to_list; items_perm := fun m => reflexivity _ |}.

Section MoveWheelFiles.
(** From outside this module: the hash library, [make_path_relative] of
    [pip.util], the [csv] reader and writer on the text of a file, the
    order of a dict, [ScriptMaker.make] with its [gui] option, and the
    interpreter's [sys.executable], [os.linesep] and [sys.version]. *)
Context (hl : Hashlib).
Context (make_path_relative : str -> str -> str).
Context (csv_reader : str -> list (list str)).
Context (csv_writerow : list str -> str).
Context (order : DictOrder).
Context (make : str -> bool -> list str).
Context (sys_executable os_linesep sys_version : str).

(** The arguments of [move_wheel_files] and what it derives from them
    before any file moves; [req] is the requirement as [%s] shows it. *)
Context (req_project_name wheeldir lib_dir : str).
Context (req : str).

(** [fix_script]. Its result is [None] for a path that is no file. *)
Definition fix_script (path : str) : M state (option bool) :=
  fun st =>
    match fs st !! path with
    | None => (inr None, st)
    | Some data =>
        let firstline := readline data in
        if negb (startswith firstline (py "#!python")) then
          (inr (Some false), st)
        else
          let exename := sys_executable in
          let rest := drop (length firstline) data in
          let firstline := py "#!" ++ exename ++ os_linesep in
          (inr (Some true), set_fs (fun m => <[path := firstline ++ rest]> m) st)
    end.

Definition normpath (src p : str) : str :=
  replace sep "/" (make_path_relative src p).

(** [record_installed]. *)
Definition record_installed (srcfile destfile : str) (modified : bool)
    : M state unit :=
  let oldpath := normpath srcfile wheeldir in
  let newpath := normpath destfile lib_dir in
  modify (set_installed (fun m => <[oldpath := newpath]> m)) ;;
  if modified then modify (set_changed (fun c => {[destfile]} ∪ c))
  else ret tt.

(** The test [clobber] makes on the name of a directory to take it for
    the metadata directory of the requirement. *)
Definition is_info_dir_name (s : str) : bool :=
  endswith s (py ".dist-info")
  && startswith (lower s) (lower (replace "-" "_" req_project_name)).

(** One turn of [for s in subdirs] in [clobber]. Directories are not
    part of [fs], so [os.makedirs] does not show. *)
Definition clobber_subdir (dest : str) (is_base : bool) (basedir s : str)
    : M state unit :=
  let destsubdir := join3 dest basedir s in
  if is_base && bool_decide (basedir = [])
     && endswith destsubdir (py ".data") then
    modify (set_data_dirs (fun l => l ++ [s]))
  else if is_base && is_info_dir_name s then
    let! st := get in
    match info_dir st with
    | [] => modify (set_info_dir (fun l => l ++ [destsubdir]))
    | _ :: _ => raise (AssertionError (py "Multiple .dist-info directories"))
    end
  else ret tt.

(** One turn of [for f in files] in [clobber]. *)
Definition clobber_file (dir dest basedir : str)
    (fixer : option (str -> M state (option bool)))
    (filter : option (str -> bool)) (f : str) : M state unit :=
  if match filter with Some flt => flt f | None => false end then ret tt
  else
    let srcfile := join dir f in
    let destfile := join3 dest basedir f in
    shutil_move srcfile destfile ;;
    let! changed :=
      match fixer with
      | Some fixup => fixup destfile
      | None => ret (Some false)
      end in
    record_installed srcfile destfile (truthy changed).

(** [basedir = dir[len(source):].lstrip(os.path.sep)]. *)
Definition basedir_of (source dir : str) : str :=
  lstrip sep (drop (length source) dir).

(** The directories [clobber] does not enter when [is_base]: those below
    a top-level [*.data]. *)
Definition skipped (source : str) (is_base : bool) (dir : str) : bool :=
  is_base && endswith (first_component (basedir_of source dir)) (py ".data").

(** One turn of [for dir, subdirs, files in os.walk(source)] in
    [clobber]. *)
Definition clobber_entry (source dest : str) (is_base : bool)
    (fixer : option (str -> M state (option bool)))
    (filter : option (str -> bool))
    (entry : str * list str * list str) : M state unit :=
  let '(dir, subdirs, files) := entry in
  let basedir := basedir_of source dir in
  if skipped source is_base dir then ret tt
  else
    for_each subdirs (clobber_subdir dest is_base basedir) ;;
    for_each files (clobber_file dir dest basedir fixer filter).

(** [clobber], on what [os.walk(source)] yields. *)
Definition clobber (walk : list (str * list str * list str))
    (source dest : str) (is_base : bool)
    (fixer : option (str -> M state (option bool)))
    (filter : option (str -> bool)) : M state unit :=
  for_each walk (clobber_entry source dest is_base fixer filter).

(** The directories of a walk that the base call of [clobber] takes for
    metadata directories, by the path they get below [dest], in the
    order of the walk; and the files it moves. *)
Definition subdir_info_dir (dest basedir s : str) : list str :=
  if bool_decide (basedir = [])
     && endswith (join3 dest basedir s) (py ".data") then []
  else if is_info_dir_name s then [join3 dest basedir s] else [].

Definition entry_info_dirs (source dest : str)
    (entry : str * list str * list str) : list str :=
  let '(dir, subdirs, _) := entry in
  if skipped source true dir then []
  else subdirs ≫= subdir_info_dir dest (basedir_of source dir).

Definition walk_info_dirs (source dest : str)
    (walk : list (str * list str * list str)) : list str :=
  walk ≫= entry_info_dirs source dest.

Definition entry_srcfiles (source : str)
    (entry : str * list str * list str) : list str :=
  let '(dir, _, files) := entry in
  if skipped source true dir then [] else join dir <$> files.

Definition walk_srcfiles (source : str)
    (walk : list (str * list str * list str)) : list str :=
  walk ≫= entry_srcfiles source.

(** [source = wheeldir.rstrip(os.path.sep) + os.path.sep] and the first
    call, [clobber(source, lib_dir, True)], followed by
    [assert info_dir]. *)
Definition source : str := rstrip sep wheeldir ++ [sep].

Definition clobber_base (t : tree) : M state unit :=
  clobber (os_walk source t) source lib_dir true None None ;;
  let! st := get in
  match info_dir st with
  | [] => raise (AssertionError (req ++ py " .dist-info directory not found"))
  | _ :: _ => ret tt
  end.

(** [is_entrypoint_wrapper]. *)
Definition is_entrypoint_wrapper (console gui : gmap str str) (name : str)
    : bool :=
  let matchname :=
    if endswith (lower name) (py ".exe") then take (length name - 4) name
    else if endswith (lower name) (py "-script.py") then
      take (length name - 10) name
    else if endswith (lower name) (py ".pya") then
      take (length name - 4) name
    else name in
  bool_decide (is_Some (console !! matchname))
  || bool_decide (is_Some (gui !! matchname)).

(** [maker.make_multiple(specs, options)]: [make] on each in turn. *)
Definition make_multiple (specs : list str) (gui : bool) : list str :=
  s ← specs; make s gui.

(** The launchers for [pip]: [console.pop('pip', None)] has been done,
    [pip_script] is what it gave. *)
Definition pip_scripts (pip_script : option str) (console : gmap str str)
    : list str * gmap str str :=
  match pip_script with
  | Some ((_ :: _) as pip_script) =>
      (make (spec_of (py "pip") pip_script) false
       ++ make (spec_of (py "pip" ++ take 1 sys_version) pip_script) false
       ++ make (spec_of (py "pip" ++ take 3 sys_version) pip_script) false,
       del_matching pip_ep_re console)
  | _ => ([], console)
  end.

(** The launchers for [easy_install], likewise. *)
Definition easy_install_scripts (easy_install_script : option str)
    (console : gmap str str) : list str * gmap str str :=
  match easy_install_script with
  | Some ((_ :: _) as easy_install_script) =>
      (make (spec_of (py "easy_install") easy_install_script) false
       ++ make (spec_of (py "easy_install-" ++ take 3 sys_version)
                  easy_install_script) false,
       del_matching easy_install_ep_re console)
  | _ => ([], console)
  end.

(** All of the launcher generation: what is appended to [generated], in
    order. *)
Definition generate_scripts (console gui : gmap str str) : list str :=
  let pip_script := console !! py "pip" in
  let console := delete (py "pip") console in
  let '(g_pip, console) := pip_scripts pip_script console in
  let easy_install_script := console !! py "easy_install" in
  let console := delete (py "easy_install") console in
  let '(g_easy, console) := easy_install_scripts easy_install_script console in
  let g_console :=
    if (0 <? size console)%nat then
      make_multiple ((fun kv => spec_of kv.1 kv.2) <$> map_to_list console) false
    else [] in
  let g_gui :=
    if (0 <? size gui)%nat then
      make_multiple ((fun kv => spec_of kv.1 kv.2) <$> map_to_list gui) true
    else [] in
  g_pip ++ g_easy ++ g_console ++ g_gui.

(** The paths [os.path.join(info_dir[0], 'RECORD')] and
    [os.path.join(info_dir[0], 'RECORD.pip')]. *)
Definition record_path (st : state) : str :=
  join (default [] (head (info_dir st))) (py "RECORD").
Definition temp_record_path (st : state) : str :=
  join (default [] (head (info_dir st))) (py "RECORD.pip").

(** [writer.writerow(row)] on the file open for writing at [out]. *)
Definition writerow (out : str) (row : list str) : M state unit :=
  modify (set_fs (fun m =>
    <[out := default [] (m !! out) ++ csv_writerow row]> m)).

(** The text of some rows, as the writer puts them in a file. *)
Definition text_of (rows : list (list str)) : str :=
  mjoin (csv_writerow <$> rows).

(** A step that writes rows at the end of the file [out] and touches no
    other file; [keep] is something of the state it leaves alone. *)
Definition appends {T} (out : str) (keep : state -> T)
    (m : M state unit) : Prop :=
  ∀ st files text,
    fs st = <[out := text]> files →
    ∃ r st' rows,
      m st = (r, st')
      ∧ fs st' = <[out := text ++ text_of rows]> files
      ∧ keep st' = keep st
      ∧ (r = inr tt → length rows = 1).

(** [rehash(path)] with the default algorithm and block size, as a step
    of the installation. *)
Definition rehash_st (path : str) : M state (str * nat) :=
  fun st => (rehash hl (fs st) path default_algo default_blocksize, st).

(** One turn of [for row in reader]. [row[0]] needs one field, and the
    assignment to [row[1], row[2]] needs three. *)
Definition rewrite_row (out : str) (row : list str) : M state unit :=
  match row with
  | [] => raise IndexError
  | path :: fields =>
      let! st := get in
      let row0 := default path (installed st !! path) in
      modify (set_installed (fun m => delete path m)) ;;
      if decide (row0 ∈ changed st) then
        let! hl_ := rehash_st row0 in
        match fields with
        | _ :: _ :: more =>
            writerow out (row0 :: hl_.1 :: str_of_nat hl_.2 :: more)
        | _ => raise IndexError
        end
      else writerow out (row0 :: fields)
  end.

Definition write_generated (out : str) (f : str) : M state unit :=
  let! hl_ := rehash_st f in
  writerow out [f; hl_.1; str_of_nat hl_.2].

(** The last part of [move_wheel_files]: [info_dir[0]] is read, both
    files are opened, the three loops write to the temporary file, the
    last of them over the dict [installed] in its own order, and then
    the temporary file is moved over RECORD. *)
Definition rewrite_record : M state unit :=
  let! st := get in
  match info_dir st with
  | [] => raise IndexError
  | _ :: _ =>
      let record := record_path st in
      let temp_record := temp_record_path st in
      match fs st !! record with
      | None => raise (IOError record)
      | Some record_in =>
          modify (set_fs (fun m => <[temp_record := []]> m)) ;;
          for_each (csv_reader record_in) (rewrite_row temp_record) ;;
          for_each (generated st) (write_generated temp_record) ;;
          (let! st' := get in
           for_each (items order (installed st'))
             (fun kv => writerow temp_record [kv.2; []; []])) ;;
          shutil_move temp_record record
      end
  end.
End MoveWheelFiles.

End Install.

(** ** Pure or platform library ([root_is_purelib]) *)

Module Purelib.
Import Re Posix.

(** [dist_info_re], written with [re.VERBOSE]:
    [^(?P<namever>(?P<name>.+?)(-(?P<ver>\d.+?))?)\.dist-info$]. *)
Definition dist_info_re : regex :=
  Cat (Grp (py "namever")
         (Cat (Grp (py "name") (LazyPlus dot)) (Opt WheelFile.re_ver)))
      (Cat (Lit ".dist-info") Eos).

(** The lines of a text file, each with its line end, where line ends
    are newlines; and the white space of ASCII. They are used to run the
    definitions below on examples. *)
Fixpoint newline_lines (data : str) : list str :=
  match data with
  | [] => []
  | c :: rest =>
      if Ascii.eqb c "010" then [c] :: newline_lines rest
      else match newline_lines rest with
           | [] => [[c]]
           | l :: ls => (c :: l) :: ls
           end
  end.

Definition ascii_space (c : ascii) : bool :=
  let n := nat_of_ascii c in
  ((9 <=? n)%nat && (n <=? 13)%nat) || (n =? 32)%nat.

Section RootIsPurelib.
(** From outside this module: how iterating over a file opened in text
    mode cuts it into lines, and the characters [str.rstrip()] takes for
    white space. Both depend on the Python that runs the code. *)
Context (lines : str -> list str).
Context (isspace : ascii -> bool).

Fixpoint lstrip_space (s : str) : str :=
  match s with
  | x :: s' => if isspace x then lstrip_space s' else s
  | [] => []
  end.

(** [line.rstrip()]. *)
Definition rstrip_space (s : str) : str :=
  reverse (lstrip_space (reverse s)).

(** The test on one line of WHEEL. *)
Definition is_purelib_line (line : str) : bool :=
  let line := rstrip_space (lower line) in
  bool_decide (line = py "root-is-purelib: true").

(** [for line in wheel:], which returns at the first line that passes
    the test. *)
Fixpoint scan_lines (ls : list str) : bool :=
  match ls with
  | [] => false
  | line :: rest => if is_purelib_line line then true else scan_lines rest
  end.

(** The test on an entry of the directory: the pattern matches it and
    its group [name] is the folded name. *)
Definition is_dist_info_of (name_folded item : str) : bool :=
  match re_match dist_info_re item with
  | Some m => bool_decide (group m "name" = Some name_folded)
  | None => false
  end.

(** [for item in os.listdir(wheeldir):]. *)
Fixpoint scan_items (name_folded wheeldir : str) (fs : gmap str str)
    (items : list str) : result bool :=
  match items with
  | [] => inr false
  | item :: rest =>
      if is_dist_info_of name_folded item then
        let path := join3 wheeldir item (py "WHEEL") in
        match fs !! path with
        | None => inl (IOError path)
        | Some wheel =>
            if scan_lines (lines wheel) then inr true
            else scan_items name_folded wheeldir fs rest
        end
      else scan_items name_folded wheeldir fs rest
  end.

(** [root_is_purelib(name, wheeldir)], on what [os.listdir(wheeldir)]
    gives and the regular files on disk. *)
Definition root_is_purelib (name wheeldir : str) (listdir : list str)
    (fs : gmap str str) : result bool :=
  let name_folded := replace "-" "_" name in
  scan_items name_folded wheeldir fs listdir.

(** The choice [move_wheel_files] makes with it, from the two library
    directories of the scheme. *)
Definition choose_lib_dir (name wheeldir : str) (listdir : list str)
    (fs : gmap str str) (purelib platlib : str) : result str :=
  match root_is_purelib name wheeldir listdir fs with
  | inl e => inl e
  | inr true => inr purelib
  | inr false => inr platlib
  end.
End RootIsPurelib.

(** The groups of [dist_info_re] on [{name}-{version}.dist-info]. *)
Definition dist_info_caps (name ver : str) : caps :=
  <[py "namever" := name ++ "-" :: ver]>
    (<[py "ver" := ver]> (<[py "name" := name]> ∅)).

End Purelib.

(** ** Installing a wheel: the data directories *)

Module DataDirs.
Import Exec Posix Install.

(** What the loop over the data directories can end with, besides what a
    call of [clobber] raises: the [KeyError] of [scheme[subdir]]. *)
Inductive data_exn :=
| KeyError (key : str)
| Raised (e : exn).

Section DataLoop.
(** From outside this module, as for [move_wheel_files]; and
    [distutils_scheme], a dict from the names of the installation
    directories to their paths; [os.listdir] and [os.walk] on the
    unpacked wheel; the entry points of the wheel. *)
Context (make_path_relative : str -> str -> str).
Context (sys_executable os_linesep : str).
Context (req_project_name wheeldir lib_dir : str).
Context (scheme : gmap str str).
Context (listdir : str -> list str).
Context (walk : str -> list (str * list str * list str)).
Context (console gui : gmap str str).

(** The values the variable [filter] can hold. *)
Abbreviation filter_var := (option (str -> bool)).

(** One turn of [for subdir in os.listdir(...)]. [filter] is what the
    variable of that name holds when the turn starts; the turn gives
    what it holds when it ends. [fixer] is set to [None] at the start of
    every turn, [filter] is not. *)
Definition data_subdir (datadir : str) (filter : filter_var) (subdir : str)
    : state -> (data_exn + filter_var) * state :=
  fun st =>
    let fixer := None in
    let '(fixer, filter) :=
      if decide (subdir = py "scripts") then
        (Some (fix_script sys_executable os_linesep),
         Some (is_entrypoint_wrapper console gui))
      else (fixer, filter) in
    let source := join3 wheeldir datadir subdir in
    match scheme !! subdir with
    | None => (inl (KeyError subdir), st)
    | Some dest =>
        match clobber make_path_relative req_project_name wheeldir lib_dir
                (walk source) source dest false fixer filter st with
        | (inl e, st') => (inl (Raised e), st')
        | (inr _, st') => (inr filter, st')
        end
    end.

(** [for subdir in os.listdir(os.path.join(wheeldir, datadir)):]. *)
Fixpoint data_subdirs (datadir : str) (filter : filter_var)
    (subdirs : list str) : state -> (data_exn + filter_var) * state :=
  fun st =>
    match subdirs with
    | [] => (inr filter, st)
    | subdir :: rest =>
        match data_subdir datadir filter subdir st with
        | (inl e, st') => (inl e, st')
        | (inr filter, st') => data_subdirs datadir filter rest st'
        end
    end.

(** [for datadir in data_dirs:], which sets [fixer] and [filter] to
    [None] for every data directory. *)
Fixpoint data_loop (data_dirs : list str)
    : state -> (data_exn + unit) * state :=
  fun st =>
    match data_dirs with
    | [] => (inr tt, st)
    | datadir :: rest =>
        let filter := None in
        match data_subdirs datadir filter (listdir (join wheeldir datadir)) st
        with
        | (inl e, st') => (inl e, st')
        | (inr _, st') => data_loop rest st'
        end
    end.
End DataLoop.

End DataDirs.
(** ** Vocabulary of the further properties *)

(** The characters of the URL-safe base64 alphabet: letters, digits, [-]
    and [_]. The padding character [=] is not one of them. *)
Definition urlsafe_char (c : ascii) : bool :=
  let n := N_of_ascii c in
  ((65 <=? n) && (n <=? 90) || (97 <=? n) && (n <=? 122)
   || (48 <=? n) && (n <=? 57) || (n =? 45) || (n =? 95))%N.

(** What a pattern can match, apart from the order in which the matcher
    tries things: [matched r pre rest c c'] says that [r] matches the text
    [pre] when [rest] comes after it, and takes the groups from [c] to
    [c']. *)
Fixpoint matched (r : Re.regex) (pre rest : str) (c c' : Re.caps) : Prop :=
  match r with
  | Re.Eps => pre = [] ∧ c' = c
  | Re.Chr a => pre = [a] ∧ c' = c
  | Re.Cls p => (∃ x, pre = [x] ∧ p x = true) ∧ c' = c
  | Re.Cat r1 r2 =>
      ∃ p1 p2 c1, pre = p1 ++ p2 ∧ matched r1 p1 (p2 ++ rest) c c1
                  ∧ matched r2 p2 rest c1 c'
  | Re.Alt r1 r2 => matched r1 pre rest c c' ∨ matched r2 pre rest c c'
  | Re.Opt r1 => matched r1 pre rest c c' ∨ (pre = [] ∧ c' = c)
  | Re.LazyStar p => Forall (λ x, p x = true) pre ∧ c' = c
  | Re.LazyPlus p => (pre ≠ [] ∧ Forall (λ x, p x = true) pre) ∧ c' = c
  | Re.Grp g r1 => ∃ c1, matched r1 pre rest c c1 ∧ c' = <[g := pre]> c1
  | Re.Eos => (pre = [] ∧ (rest = [] ∨ rest = ["010"])) ∧ c' = c
  end.

(** A version as the pattern takes it: a digit and at least one more
    character, none of them a line end; and a build: a digit and what
    follows. *)
Definition version_shape (v : str) : Prop :=
  ∃ d v', v = d :: v' ∧ Re.digit d = true ∧ v' ≠ []
          ∧ Forall (λ x, Re.dot x = true) v.

Definition build_shape (b : str) : Prop :=
  ∃ d b', b = d :: b' ∧ Re.digit d = true
          ∧ Forall (λ x, Re.dot x = true) b.

(** A tag part as the pattern takes it: not empty, no line end. *)
Definition part_shape (s : str) : Prop :=
  s ≠ [] ∧ Forall (λ x, Re.dot x = true) s.

(** The moves [clobber] asks of [shutil.move], in order: for every
    directory of the walk it enters and every file in it that the filter
    lets through, the file in the archive and its place under [dest]. *)
Definition entry_moves (source dest : str) (is_base : bool)
    (filter : option (str -> bool))
    (entry : str * list str * list str) : list (str * str) :=
  let '(dir, _, files) := entry in
  if Install.skipped source is_base dir then []
  else
    (fun f => (Posix.join dir f,
               Posix.join3 dest (Install.basedir_of source dir) f))
    <$> List.filter
          (fun f => negb match filter with
                         | Some flt => flt f
                         | None => false
                         end) files.

Definition walk_moves (source dest : str) (is_base : bool)
    (filter : option (str -> bool))
    (walk : list (str * list str * list str)) : list (str * str) :=
  walk ≫= entry_moves source dest is_base filter.

(** Moves of regular files, one after the other; [None] when one of them
    finds no file to move. *)
Fixpoint apply_moves (moves : list (str * str)) (files : gmap str str)
    : option (gmap str str) :=
  match moves with
  | [] => Some files
  | (src, dst) :: rest =>
      match files !! src with
      | None => None
      | Some data => apply_moves rest (<[dst := data]> (delete src files))
      end
  end.

(** A step that changes nothing of the bookkeeping of the metadata and
    the data directories, grows [changed] at most, and fails with
    [IOError] only. *)
Definition data_step {A} (m : Exec.M Install.state A) : Prop :=
  ∀ st r st',
    m st = (r, st') →
    (Install.info_dir st', Install.data_dirs st', Install.generated st')
    = (Install.info_dir st, Install.data_dirs st, Install.generated st)
    ∧ Install.changed st ⊆ Install.changed st'
    ∧ ∀ e, r = inl e → ∃ p, e = IOError p.


(** A tree whose directories have plain names: none is empty or starts
    with a separator. *)
Fixpoint plain_names (t : Install.tree) : Prop :=
  match t with
  | Install.Dir subdirs _ =>
      (fix all (ds : list (str * Install.tree)) : Prop :=
         match ds with
         | [] => True
         | (n, d) :: ds' =>
             (n ≠ [] ∧ startswith n [Posix.sep] = false)
             ∧ plain_names d ∧ all ds'
         end) subdirs
  end.

(** The data directories of one directory of the walk, as the base call
    of [clobber] finds them: sub-directories of the top whose place
    under [dest] ends in [.data]. *)
Definition entry_data_dirs (source dest : str)
    (entry : str * list str * list str) : list str :=
  let '(dir, subdirs, _) := entry in
  if bool_decide (Install.basedir_of source dir = []) then
    List.filter
      (fun s => endswith (Posix.join3 dest (Install.basedir_of source dir) s)
                  (py ".data")) subdirs
  else [].

(** A row of the archive's RECORD with its path turned into the path of
    the installed file, where [installed] has one for it. *)
Definition translate_row (installed : gmap str str) (row : list str)
    : list str :=
  match row with
  | [] => []
  | path :: fields => default path (installed !! path) :: fields
  end.

(** The paths of the rows of a RECORD. *)
Definition row_paths_of (rows : list (list str)) : list str :=
  omap head rows.

(** What the new RECORD has for a row of the old one: the row with its
    path turned into the installed path; and, where that path is in
    [changed], with the hash and the length of the file there in place of
    its second and third field. *)
Definition rewritten_row (hl : Hasher.Hashlib) (files installed : gmap str str)
    (changed : gset str) (row out : list str) : Prop :=
  match row with
  | [] => False
  | path :: fields =>
      let row0 := default path (installed !! path) in
      if decide (row0 ∈ changed) then
        ∃ h n f1 f2 more,
          fields = f1 :: f2 :: more
          ∧ Hasher.rehash hl files row0 Hasher.default_algo
              Hasher.default_blocksize = inr (h, n)
          ∧ out = row0 :: h :: Install.str_of_nat n :: more
      else out = row0 :: fields
  end.

(** What the new RECORD has for a generated file: its path, its hash and
    its length. *)
Definition generated_row (hl : Hasher.Hashlib) (files : gmap str str)
    (f : str) (out : list str) : Prop :=
  ∃ h n,
    Hasher.rehash hl files f Hasher.default_algo Hasher.default_blocksize
    = inr (h, n)
    ∧ out = [f; h; Install.str_of_nat n].

(** The messages of the error lines of a log, in order. *)
Definition error_lines (l : list Builder.log_line) : list str :=
  omap (fun line => match line with
                    | Builder.Error msg => Some msg
                    | Builder.Notify _ => None
                    end) l.

(** * Properties *)

(** ** The resolver strategies *)

Section StrategyFacts.
Import Strategy.

Lemma strategy_table_lookup (name : str) :
  strategy_table !! name =
    if decide (name = py "earliest-compatible") then Some EarliestCompatible
    else None.
Proof.
  unfold strategy_table. case_decide as Hn.
  - subst name. apply lookup_singleton_eq.
  - apply lookup_singleton_ne. congruence.
Qed.

(** C10: [strategy_factory] gives an [EarliestCompatible] for the name
    ['earliest-compatible'], which leaves the candidates as they are and
    prefers index 0, and a [DefaultStrategy] for every other name, which
    reverses the candidates and prefers their number. *)
Theorem strategy_factory_spec (name : str) (Candidate Requirement : Type)
    (resolution : option Candidate) (candidates : list Candidate)
    (information : list (Requirement * Candidate)) :
  let s := strategy_factory name in
  if decide (name = py "earliest-compatible") then
    s = EarliestCompatible
    ∧ sort_candidates s candidates = candidates
    ∧ get_preferred_candidate s resolution candidates information = 0
  else
    s = DefaultStrategy
    ∧ sort_candidates s candidates = reverse candidates
    ∧ get_preferred_candidate s resolution candidates information
      = length candidates.
Proof.
  unfold strategy_factory. rewrite strategy_table_lookup.
  case_decide; simpl; auto.
Qed.
End StrategyFacts.

(** ** Tag support *)

Section SupportFacts.
Import WheelFile.

Lemma min_or_none_Some (l : list nat) (i : nat) :
  min_or_none l = Some i ↔ i ∈ l ∧ ∀ j, j ∈ l → i ≤ j.
Proof.
  destruct l as [|a l]; simpl.
  - split; [discriminate|]. intros [H _]. by apply elem_of_nil in H.
  - assert (Hmin : foldr Nat.min a l ∈ a :: l
                   ∧ ∀ j, j ∈ a :: l → foldr Nat.min a l ≤ j).
    { induction l as [|b l IH]; simpl.
      - split; [left|]. intros j Hj. apply list_elem_of_singleton in Hj. lia.
      - destruct IH as [Hin Hle]. split.
        + destruct (Nat.min_spec b (foldr Nat.min a l)) as [[_ ->]|[_ ->]].
          * right; left.
          * apply elem_of_cons in Hin as [->|Hin]; [left|right; by right].
        + intros j Hj.
          assert (foldr Nat.min a l ≤ j ∨ b = j) as [?|?]; [|lia..].
          apply elem_of_cons in Hj as [->|Hj].
          * left. apply Hle. left.
          * apply elem_of_cons in Hj as [->|Hj]; [by right|].
            left. apply Hle. by right. }
    destruct Hmin as [Hin Hle]. split.
    + intros [= <-]. done.
    + intros [Hi Hall]. f_equal.
      specialize (Hle _ Hi). specialize (Hall _ Hin). lia.
Qed.

Lemma min_or_none_None (l : list nat) : min_or_none l = None ↔ l = [].
Proof. destruct l; simpl; split; congruence. Qed.

Lemma index_Some {A} `{EqDecision A} (c : A) (tags : list A) (i : nat) :
  list_index c tags = Some i ↔
  tags !! i = Some c ∧ ∀ j, j < i → tags !! j ≠ Some c.
Proof.
  unfold list_index. split.
  - intros H. apply fmap_Some in H as [[i' c'] [H ->]]. simpl.
    apply list_find_Some in H as (Hl & -> & Hb). split; [done|].
    intros j Hj Hc. by apply (Hb j c).
  - intros [Hl Hb]. apply fmap_Some. exists (i, c). split; [|done].
    apply list_find_Some. split_and!; [done..|].
    intros j y Hy Hj ->. by apply (Hb j).
Qed.

Lemma index_elem_of {A} `{EqDecision A} (c : A) (tags : list A) :
  c ∈ tags → ∃ i, list_index c tags = Some i.
Proof.
  intros Hc. unfold list_index.
  destruct (list_find_elem_of (λ t, t = c) tags c Hc eq_refl) as [[i y] H].
  exists i. by rewrite H.
Qed.

Lemma indexes_elem_of (ft : gset tag) (tags : list tag) (i : nat) :
  i ∈ omap (λ c, list_index c tags) (filter (λ c, c ∈ tags) (elements ft))
  ↔ ∃ c, c ∈ ft ∧ list_index c tags = Some i.
Proof.
  rewrite list_elem_of_omap. split.
  - intros (c & Hc & Hi). apply list_elem_of_filter in Hc as [_ Hc].
    apply elem_of_elements in Hc. eauto.
  - intros (c & Hc & Hi). exists c. split; [|done].
    apply list_elem_of_filter. split.
    + apply index_Some in Hi as [Hi _]. by eapply list_elem_of_lookup_2.
    + by apply elem_of_elements.
Qed.

(** Both methods in terms of the list they come to use. *)
Lemma support_on_used_list (supported_tags : list tag) (self : Wheel)
    (tags : option (list tag)) :
  let ts := tags_or_default supported_tags tags in
  (supported supported_tags self tags = true
     ↔ ∃ t, t ∈ file_tags self ∧ t ∈ ts)
  ∧ (∀ i, support_index_min supported_tags self tags = Some i
       ↔ (∃ t, t ∈ file_tags self ∧ ts !! i = Some t)
         ∧ ∀ j t, t ∈ file_tags self → ts !! j = Some t → i ≤ j)
  ∧ (support_index_min supported_tags self tags = None
       ↔ ¬ ∃ t, t ∈ file_tags self ∧ t ∈ ts).
Proof.
  intros ts. split_and!.
  - unfold supported. fold ts. rewrite bool_decide_eq_true. split.
    + intros Hne. apply set_choose_L in Hne as [t Ht].
      apply elem_of_intersection in Ht as [Ht1 Ht2].
      apply elem_of_list_to_set in Ht1. eauto.
    + intros (t & Ht1 & Ht2) Hemp.
      assert (t ∈ (list_to_set ts : gset tag) ∩ file_tags self) as Hin.
      { apply elem_of_intersection. split; [|done].
        by apply elem_of_list_to_set. }
      rewrite Hemp in Hin. by apply not_elem_of_empty in Hin.
  - intros i. unfold support_index_min. fold ts.
    rewrite min_or_none_Some, indexes_elem_of. split.
    + intros [(c & Hc & Hi) Hmin]. split.
      * exists c. apply index_Some in Hi as [Hi _]. done.
      * intros j t Ht Hj.
        destruct (index_elem_of t ts) as [j' Hj'].
        { by eapply list_elem_of_lookup_2. }
        assert (j' ≤ j).
        { apply index_Some in Hj' as [_ Hb].
          destruct (decide (j' ≤ j)); [done|]. exfalso.
          apply (Hb j); [lia|done]. }
        assert (i ≤ j'); [|lia].
        apply Hmin. apply indexes_elem_of. eauto.
    + intros [(t & Ht & Hi) Hmin].
      destruct (index_elem_of t ts) as [i' Hi'].
      { by eapply list_elem_of_lookup_2. }
      assert (i' = i) as ->.
      { pose proof Hi' as Hi''. apply index_Some in Hi'' as [Hl Hb].
        specialize (Hmin i' t Ht Hl).
        destruct (decide (i' < i)); [lia|].
        destruct (decide (i < i')); [|lia].
        exfalso. by apply (Hb i). }
      split; [eauto|].
      intros j Hj. apply indexes_elem_of in Hj as (c & Hc & Hj).
      apply index_Some in Hj as [Hj _]. eauto.
  - unfold support_index_min. fold ts. rewrite min_or_none_None. split.
    + intros Hnil (t & Ht & Hts).
      destruct (index_elem_of t ts Hts) as [i Hi].
      assert (i ∈ omap (λ c, list_index c ts)
                (filter (λ c, c ∈ ts) (elements (file_tags self)))) as Hin.
      { apply indexes_elem_of. eauto. }
      rewrite Hnil in Hin. by apply elem_of_nil in Hin.
    + intros Hno.
      destruct (omap _ _) as [|i l] eqn:Heq; [done|]. exfalso.
      assert (i ∈ omap (λ c, list_index c ts)
                (filter (λ c, c ∈ ts) (elements (file_tags self)))) as Hin.
      { rewrite Heq. left. }
      apply indexes_elem_of in Hin as (c & Hc & Hi).
      apply Hno. exists c. split; [done|].
      apply index_Some in Hi as [Hi _]. by eapply list_elem_of_lookup_2.
Qed.

(** C4: for the list [tags] the caller gives, [supported] holds exactly
    when a tag of the file is in that list, and [support_index_min] is
    the least position in that list of a tag of the file, or [None]
    exactly when no tag of the file is in it. Called without a list, both
    methods do as if they were given [pep425tags.supported_tags]. *)
Theorem supported_index_min_spec (supported_tags : list tag) (self : Wheel)
    (tags : list tag) :
  (supported supported_tags self (Some tags) = true
     ↔ ∃ t, t ∈ file_tags self ∧ t ∈ tags)
  ∧ (∀ i, support_index_min supported_tags self (Some tags) = Some i
       ↔ (∃ t, t ∈ file_tags self ∧ tags !! i = Some t)
         ∧ ∀ j t, t ∈ file_tags self → tags !! j = Some t → i ≤ j)
  ∧ (support_index_min supported_tags self (Some tags) = None
       ↔ ¬ ∃ t, t ∈ file_tags self ∧ t ∈ tags)
  ∧ supported supported_tags self None
    = supported supported_tags self (Some supported_tags)
  ∧ support_index_min supported_tags self None
    = support_index_min supported_tags self (Some supported_tags).
Proof.
  destruct (support_on_used_list supported_tags self (Some tags))
    as (Hsup & Hidx & Hnone).
  split_and!; [exact Hsup|exact Hidx|exact Hnone|reflexivity..].
Qed.
End SupportFacts.

(** A wheel for Python 3.3 and a list that names it in second place,
    where the default list is empty. *)
Lemma supported_index_min_spec_witness :
  let w := {| WheelFile.filename := py "foo-1.0-py33-none-any.whl";
              WheelFile.name := py "foo";
              WheelFile.version := py "1.0";
              WheelFile.pyversions := [py "py33"];
              WheelFile.abis := [py "none"];
              WheelFile.plats := [py "any"];
              WheelFile.file_tags :=
                list_to_set [(py "py33", py "none", py "any")] |} in
  let tags := [(py "py27", py "none", py "any");
               (py "py33", py "none", py "any")] in
  WheelFile.supported [] w (Some tags) = true
  ∧ WheelFile.support_index_min [] w (Some tags) = Some 1
  ∧ WheelFile.supported [] w None = false
  ∧ WheelFile.support_index_min [] w (Some [(py "py27", py "none", py "any")])
    = None.
Proof.
  intros w tags.
  assert (∀ t, t ∈ WheelFile.file_tags w ↔ t = (py "py33", py "none", py "any"))
    as Hfile.
  { intros t. unfold w. cbn [WheelFile.file_tags].
    rewrite elem_of_list_to_set. apply list_elem_of_singleton. }
  destruct (supported_index_min_spec [] w tags)
    as (Hsup & Hidx & _ & Hdef & _).
  destruct (supported_index_min_spec [] w [(py "py27", py "none", py "any")])
    as (_ & _ & Hnone & _).
  split_and!.
  - apply Hsup. exists (py "py33", py "none", py "any").
    split; [by apply Hfile|]. right. left.
  - apply Hidx. split.
    + exists (py "py33", py "none", py "any"). split; [by apply Hfile|done].
    + intros j t Ht Hj. apply Hfile in Ht as ->.
      destruct j as [|j]; [discriminate Hj|]. lia.
  - rewrite Hdef. reflexivity.
  - apply Hnone. intros (t & Ht & Hin). apply Hfile in Ht as ->.
    apply list_elem_of_singleton in Hin. discriminate Hin.
Defined.

(** ** POSIX paths *)

Section PathFacts.
Import Posix.

Lemma lstrip_app_ne (c x : ascii) (l t : str) :
  x ≠ c → lstrip c (replicate (length l) c ++ x :: t) = x :: t.
Proof.
  intros Hx. induction l as [|a l IH]; simpl.
  - by rewrite decide_False.
  - by rewrite decide_True.
Qed.

Lemma lstrip_replicate (c : ascii) (n : nat) : lstrip c (replicate n c) = [].
Proof. induction n; simpl; [done|]. by rewrite decide_True. Qed.

(** Every string is a run of [c] followed by nothing or by a string that
    starts with another character. *)
Lemma leading_run (c : ascii) (s : str) :
  ∃ n t, s = replicate n c ++ t ∧ (t = [] ∨ ∃ x t', t = x :: t' ∧ x ≠ c).
Proof.
  induction s as [|a s (n & t & -> & Ht)].
  - exists 0, []. auto.
  - destruct (decide (a = c)) as [->|Hne].
    + exists (S n), t. auto.
    + exists 0, (a :: (replicate n c ++ t)). split; [done|]. right. eauto.
Qed.

Lemma rstrip_snoc (c : ascii) (s : str) : rstrip c (s ++ [c]) = rstrip c s.
Proof.
  unfold rstrip. rewrite reverse_snoc. simpl. by rewrite decide_True.
Qed.

Lemma rstrip_snoc_ne (c x : ascii) (s : str) :
  x ≠ c → rstrip c (s ++ [x]) = s ++ [x].
Proof.
  intros Hx. unfold rstrip. rewrite reverse_snoc. simpl.
  rewrite decide_False by done. by rewrite reverse_cons, reverse_involutive.
Qed.

Lemma rstrip_replicate (c : ascii) (n : nat) : rstrip c (replicate n c) = [].
Proof.
  unfold rstrip. rewrite reverse_replicate, lstrip_replicate. done.
Qed.

(** The shape of a head that [psplit] strips: something that ends with
    another character than [c], then a run of [c]. *)
Lemma trailing_run (c : ascii) (s : str) :
  ∃ n t, s = t ++ replicate n c
         ∧ (t = [] ∨ ∃ x t', t = t' ++ [x] ∧ x ≠ c).
Proof.
  destruct (leading_run c (reverse s)) as (n & t & Hs & Ht).
  exists n, (reverse t). split.
  - rewrite <- (reverse_involutive s), Hs, reverse_app, reverse_replicate.
    done.
  - destruct Ht as [->|(x & t' & -> & Hx)]; [by left|right].
    exists x, (reverse t'). by rewrite reverse_cons.
Qed.

Lemma rstrip_run (c x : ascii) (t : str) (n : nat) :
  x ≠ c → rstrip c ((t ++ [x]) ++ replicate n c) = t ++ [x].
Proof.
  intros Hx. induction n as [|n IH].
  - rewrite app_nil_r. by apply rstrip_snoc_ne.
  - rewrite replicate_S_end.
    rewrite (assoc_L (++)). by rewrite rstrip_snoc.
Qed.

Lemma rfind_not_elem (c : ascii) (s : str) : c ∉ s → rfind c s = (-1)%Z.
Proof.
  induction s as [|x s IH]; [done|]. intros Hc.
  apply not_elem_of_cons in Hc as [Hx Hs]. simpl. rewrite (IH Hs). simpl.
  by rewrite decide_False.
Qed.

Lemma rfind_last (c : ascii) (h t : str) :
  c ∉ t → rfind c (h ++ c :: t) = Z.of_nat (length h).
Proof.
  intros Hc. induction h as [|x h IH]; simpl.
  - rewrite (rfind_not_elem c t Hc). simpl. by rewrite decide_True.
  - rewrite IH. destruct (Z.leb_spec 0 (Z.of_nat (length h))); lia.
Qed.

(** Where [psplit] cuts: after the last separator. *)
Lemma psplit_cut (h t : str) :
  sep ∉ t → (h = [] ∨ ∃ h', h = h' ++ [sep]) →
  Z.to_nat (rfind sep (h ++ t) + 1) = length h.
Proof.
  intros Ht [->|(h' & ->)].
  - simpl. by rewrite (rfind_not_elem sep t Ht).
  - rewrite <- (assoc_L (++)). simpl. rewrite rfind_last by done.
    rewrite length_app. simpl. lia.
Qed.

Lemma path_cut (p : str) :
  ∃ h t, p = h ++ t ∧ (sep ∉ t) ∧ (h = [] ∨ ∃ h', h = h' ++ [sep]).
Proof.
  induction p as [|x p (h & t & -> & Ht & Hh)].
  - exists [], []. split_and!; [done| |by left]. apply not_elem_of_nil.
  - destruct Hh as [->|(h' & ->)].
    + destruct (decide (x = sep)) as [->|Hx].
      * exists [sep], t. split_and!; [done..|]. right. by exists [].
      * exists [], (x :: t). split_and!; [done| |by left].
        apply not_elem_of_cons. done.
    + exists (x :: h' ++ [sep]), t. split_and!; [done..|].
      right. by exists (x :: h').
Qed.

Lemma psplit_app (h t : str) :
  sep ∉ t → (h = [] ∨ ∃ h', h = h' ++ [sep]) →
  psplit (h ++ t) = (split_head h, t).
Proof.
  intros Ht Hh. unfold psplit, split_head.
  rewrite (psplit_cut h t Ht Hh).
  by rewrite take_app_length, drop_app_length.
Qed.

Lemma psplit_tail_no_sep (p : str) : sep ∉ snd (psplit p).
Proof.
  destruct (path_cut p) as (h & t & -> & Ht & Hh).
  by rewrite psplit_app.
Qed.

Lemma join_plain (dn b : str) :
  sep ∉ b →
  join dn b = if bool_decide (dn = []) || endswith dn [sep] then dn ++ b
              else dn ++ sep :: b.
Proof.
  intros Hb. unfold join.
  assert (startswith b [sep] = false) as ->; [|done].
  apply bool_decide_eq_false. intros [k ->]. apply Hb. left.
Qed.

Lemma endswith_snoc (s : str) (c : ascii) : endswith (s ++ [c]) [c] = true.
Proof. apply bool_decide_eq_true. by exists s. Qed.

Lemma endswith_snoc_ne (s : str) (x c : ascii) :
  x ≠ c → endswith (s ++ [x]) [c] = false.
Proof.
  intros Hx. apply bool_decide_eq_false. intros [k Hk].
  apply app_inj_tail in Hk as [_ ?]. done.
Qed.

Lemma split_head_run (n : nat) :
  split_head (replicate n sep) = replicate n sep.
Proof.
  unfold split_head. rewrite length_replicate.
  rewrite (bool_decide_eq_true_2 (replicate n sep = replicate n sep)) by done.
  by rewrite andb_false_r.
Qed.

Lemma split_head_named (t : str) (x : ascii) (n : nat) :
  x ≠ sep → split_head ((t ++ [x]) ++ replicate n sep) = t ++ [x].
Proof.
  intros Hx. unfold split_head.
  rewrite bool_decide_eq_false_2.
  2:{ intros Hnil. apply (f_equal length) in Hnil.
      rewrite !length_app in Hnil. simpl in Hnil. lia. }
  rewrite bool_decide_eq_false_2.
  2:{ intros Hall.
      assert (x ∈ replicate (length ((t ++ [x]) ++ replicate n sep)) sep)
        as Hin.
      { rewrite <- Hall. apply elem_of_app. left. apply elem_of_app.
        right. left. }
      apply elem_of_replicate in Hin as [? _]. done. }
  simpl. by apply rstrip_run.
Qed.

(** Joining the head [psplit] gave with another file name and splitting
    again gives the same directory. *)
Lemma psplit_join_head (h b : str) :
  sep ∉ b → (h = [] ∨ ∃ h', h = h' ++ [sep]) →
  psplit (join (split_head h) b) = (split_head h, b).
Proof.
  intros Hb Hh. rewrite join_plain by done.
  destruct Hh as [->|(h' & ->)].
  { simpl. apply (psplit_app [] b Hb). by left. }
  destruct (trailing_run sep h') as (n & t & -> & Ht).
  destruct Ht as [->|(x & t' & -> & Hx)].
  - (* separators only *)
    change ([] ++ replicate n sep) with (replicate n sep).
    rewrite <- replicate_S_end, split_head_run.
    assert (endswith (replicate (S n) sep) [sep] = true) as ->.
    { rewrite replicate_S_end. apply endswith_snoc. }
    rewrite orb_true_r, psplit_app, split_head_run; [done..|].
    right. exists (replicate n sep). apply replicate_S_end.
  - (* a directory name, then separators *)
    rewrite <- (assoc_L (++) (t' ++ [x])), <- replicate_S_end.
    rewrite split_head_named by done.
    rewrite bool_decide_eq_false_2.
    2:{ intros Hnil. by destruct t'. }
    rewrite endswith_snoc_ne by done. simpl.
    replace ((t' ++ [x]) ++ sep :: b) with (((t' ++ [x]) ++ [sep]) ++ b)
      by (by rewrite <- !(assoc_L (++))).
    rewrite psplit_app; [|done|right; by eexists].
    f_equal. apply (split_head_named t' x 1 Hx).
Qed.
End PathFacts.

(** ** Uninstallation paths *)

Section UninstallFacts.
Import Posix Uninstall.

Lemma list_index_cons {A} `{EqDecision A} (x a : A) (l : list A) :
  list_index x (a :: l) =
    if decide (a = x) then Some 0 else S <$> list_index x l.
Proof.
  unfold list_index. simpl. case_decide; [done|].
  destruct (list_find _ l) as [[i y]|]; done.
Qed.

Lemma unique_from_elem_of (seen : gset str) (items : list str) (x : str) :
  x ∈ unique_from seen items ↔ x ∈ items ∧ x ∉ seen.
Proof.
  revert seen. induction items as [|a l IH]; intros seen; simpl.
  - split; [intros H|intros [H _]]; by apply elem_of_nil in H.
  - case_decide as Ha.
    + rewrite IH, elem_of_cons. split; [intros [??]; auto|].
      intros [[->|?] ?]; [done|auto].
    + rewrite !elem_of_cons, IH. split.
      * intros [->|[? Hn]]; [auto|]. split; [auto|].
        intros ?. apply Hn, elem_of_union. by right.
      * intros [[->|?] ?]; [auto|].
        destruct (decide (x = a)) as [->|]; [auto|]. right. split; [done|].
        intros [?%elem_of_singleton|?]%elem_of_union; done.
Qed.

Lemma unique_from_NoDup (seen : gset str) (items : list str) :
  NoDup (unique_from seen items).
Proof.
  revert seen. induction items as [|a l IH]; intros seen; simpl.
  - constructor.
  - case_decide; [apply IH|]. constructor; [|apply IH].
    rewrite unique_from_elem_of. intros [_ Hn].
    apply Hn, elem_of_union. left. by apply elem_of_singleton.
Qed.

(** What comes earlier in the output was first seen earlier in the
    input. *)
Lemma unique_from_order (seen : gset str) (items : list str)
    (i j : nat) (x y : str) :
  i < j →
  unique_from seen items !! i = Some x →
  unique_from seen items !! j = Some y →
  ∃ i' j', list_index x items = Some i' ∧ list_index y items = Some j'
           ∧ i' < j'.
Proof.
  revert seen i j. induction items as [|a l IH]; intros seen i j Hij; simpl.
  - intros H. by rewrite lookup_nil in H.
  - rewrite !list_index_cons. case_decide as Ha.
    + intros Hx Hy.
      destruct (IH seen i j Hij Hx Hy) as (i' & j' & -> & -> & Hlt).
      assert (x ∈ unique_from seen l) as Hxin
        by (by eapply list_elem_of_lookup_2).
      assert (y ∈ unique_from seen l) as Hyin
        by (by eapply list_elem_of_lookup_2).
      apply unique_from_elem_of in Hxin as [_ Hxs].
      apply unique_from_elem_of in Hyin as [_ Hys].
      rewrite !decide_False by congruence.
      exists (S i'), (S j'). simpl. split_and!; [done..|lia].
    + destruct j as [|j]; [lia|]. simpl. intros Hx Hy.
      assert (y ∈ unique_from ({[a]} ∪ seen) l) as Hyin
        by (by eapply list_elem_of_lookup_2).
      apply unique_from_elem_of in Hyin as [Hyl Hys].
      assert (a ≠ y) by set_solver.
      destruct i as [|i]; simpl in Hx.
      * injection Hx as ->. rewrite decide_True by done.
        rewrite decide_False by done.
        destruct (index_elem_of y l Hyl) as [j' ->].
        exists 0, (S j'). simpl. split_and!; [done..|lia].
      * destruct (IH _ i j ltac:(lia) Hx Hy) as (i' & j' & -> & -> & Hlt).
        assert (x ∈ unique_from ({[a]} ∪ seen) l) as Hxin
          by (by eapply list_elem_of_lookup_2).
        apply unique_from_elem_of in Hxin as [_ Hxs].
        assert (a ≠ x) by set_solver.
        rewrite !decide_False by done.
        exists (S i'), (S j'). simpl. split_and!; [done..|lia].
Qed.

Lemma uninstallation_paths_body_ok (loc : str) (rows : list (list str)) :
  Forall (λ row, row ≠ []) rows →
  uninstallation_paths_body loc rows = (raw_paths loc rows, None).
Proof.
  induction 1 as [|row rows Hrow _ IH]; [done|].
  destruct row as [|row0 fields]; [done|]. simpl. by rewrite IH.
Qed.

Lemma suffix_no_sep (h t : str) :
  (sep ∉ t) → (h = [] ∨ ∃ h', h = h' ++ [sep]) →
  py ".py" `suffix_of` h ++ t → ∃ base, t = base ++ py ".py".
Proof.
  intros Ht Hh [k Hk]. apply app_eq_app in Hk as [l Hl].
  destruct Hl as [[-> Hpy]|[-> ->]]; [|eauto].
  destruct Hh as [Hnil|[h' Hh']].
  - apply app_eq_nil in Hnil as [-> ->]. exists []. by rewrite Hpy.
  - destruct l as [|x l _] using rev_ind.
    + exists []. by rewrite Hpy.
    + rewrite (assoc_L (++)) in Hh'. apply app_inj_tail in Hh' as [_ ->].
      exfalso.
      assert (sep ∈ py ".py") as Hin.
      { rewrite Hpy. apply elem_of_app. left. apply elem_of_app. right.
        left. }
      vm_compute in Hin. repeat (apply elem_of_cons in Hin as [Hin|Hin];
        [discriminate|]). by apply elem_of_nil in Hin.
Qed.

(** The [.pyc] sibling has the directory of the [.py] path and its base
    name. *)
Lemma pyc_sibling_split (path : str) :
  endswith path (py ".py") = true →
  ∃ base, psplit path = (fst (psplit path), base ++ py ".py")
          ∧ psplit (pyc_sibling path)
            = (fst (psplit path), base ++ py ".pyc").
Proof.
  intros Hpy. apply bool_decide_eq_true in Hpy.
  destruct (path_cut path) as (h & t & -> & Ht & Hh).
  destruct (suffix_no_sep h t Ht Hh Hpy) as [base ->].
  exists base. unfold pyc_sibling. rewrite psplit_app by done.
  cbv beta iota zeta delta [fst]. split; [done|].
  assert (drop_last3 (base ++ py ".py") = base) as ->.
  { unfold drop_last3. rewrite length_app.
    change (length (py ".py")) with 3.
    replace (length base + 3 - 3) with (length base) by lia.
    by rewrite take_app_length. }
  apply psplit_join_head; [|done].
  intros Hin. apply elem_of_app in Hin as [Hin|Hin].
  - apply Ht. apply elem_of_app. by left.
  - vm_compute in Hin. repeat (apply elem_of_cons in Hin as [Hin|Hin];
      [discriminate|]). by apply elem_of_nil in Hin.
Qed.

Lemma raw_paths_elem_of (loc : str) (rows : list (list str)) (x : str) :
  x ∈ raw_paths loc rows ↔
  ∃ row0 fields, (row0 :: fields) ∈ rows ∧ x ∈ row_paths loc row0.
Proof.
  unfold raw_paths. rewrite list_elem_of_bind. split.
  - intros ([|row0 fields] & Hx & Hrow); [by apply elem_of_nil in Hx|].
    exists row0, fields. done.
  - intros (row0 & fields & Hrow & Hx). exists (row0 :: fields). done.
Qed.

Lemma row_paths_elem_of (loc row0 x : str) :
  x ∈ row_paths loc row0 ↔
  x = join loc row0
  ∨ (endswith (join loc row0) (py ".py") = true
     ∧ x = pyc_sibling (join loc row0)).
Proof.
  unfold row_paths. destruct (endswith _ _).
  - rewrite !elem_of_cons, elem_of_nil.
    split; [intros [->|[->|[]]]; auto|intros [->|[_ ->]]; auto].
  - rewrite list_elem_of_singleton.
    split; [auto|intros [?|[? _]]; done].
Qed.

(** C7: on a manifest whose rows all have a first field, the enumeration
    raises nothing. Before duplicates are dropped it goes through the
    rows of the manifest in their order and has, for each row, the path
    of the row joined to the location and, for a path that ends in
    [.py], right after it the [.pyc] with the same directory and base
    name. What it yields is every one of these paths; nothing else; no
    path twice; in the order in which the paths first come up in that
    sequence. *)
Theorem uninstallation_paths_spec (dist : Dist) :
  Forall (λ row, row ≠ []) (record_rows dist) →
  let raw :=
    row ← record_rows dist;
    match row with
    | [] => []
    | row0 :: _ =>
        let path := join (location dist) row0 in
        if endswith path (py ".py") then [path; pyc_sibling path] else [path]
    end in
  ∃ paths,
    uninstallation_paths_body (location dist) (record_rows dist)
      = (raw, None)
    ∧ uninstallation_paths dist = (paths, None)
    ∧ (∀ row0 fields, (row0 :: fields) ∈ record_rows dist →
         let path := join (location dist) row0 in
         path ∈ paths
         ∧ (endswith path (py ".py") = true →
              pyc_sibling path ∈ paths
              ∧ (∃ a b, raw = a ++ path :: pyc_sibling path :: b)
              ∧ ∃ base,
                  psplit path = (fst (psplit path), base ++ py ".py")
                  ∧ psplit (pyc_sibling path)
                    = (fst (psplit path), base ++ py ".pyc")))
    ∧ (∀ x, x ∈ paths →
         ∃ row0 fields, (row0 :: fields) ∈ record_rows dist
           ∧ (x = join (location dist) row0
              ∨ (endswith (join (location dist) row0) (py ".py") = true
                 ∧ x = pyc_sibling (join (location dist) row0))))
    ∧ NoDup paths
    ∧ (∀ i j x y, i < j → paths !! i = Some x → paths !! j = Some y →
         ∃ i' j', list_index x raw = Some i' ∧ list_index y raw = Some j'
                  ∧ i' < j').
Proof.
  intros Hrows. destruct dist as [loc rows]. simpl in *.
  change (rows ≫= _) with (raw_paths loc rows).
  exists (unique_from ∅ (raw_paths loc rows)).
  unfold uninstallation_paths. simpl.
  rewrite (uninstallation_paths_body_ok loc rows Hrows). simpl.
  split_and!; [done..| | | |].
  - intros row0 fields Hrow. set (path := join loc row0).
    assert (∀ x, x ∈ row_paths loc row0 →
              x ∈ unique_from ∅ (raw_paths loc rows)) as Hin.
    { intros x Hx. apply unique_from_elem_of. split; [|set_solver].
      apply raw_paths_elem_of. eauto. }
    split.
    + apply Hin, row_paths_elem_of. by left.
    + intros Hpy. split_and!.
      * apply Hin, row_paths_elem_of. by right.
      * apply list_elem_of_split in Hrow as (r1 & r2 & ->).
        exists (raw_paths loc r1), (raw_paths loc r2).
        unfold raw_paths. rewrite bind_app, bind_cons.
        unfold row_paths at 2. fold path. by rewrite Hpy.
      * by apply pyc_sibling_split.
  - intros x Hx. apply unique_from_elem_of in Hx as [Hx _].
    apply raw_paths_elem_of in Hx as (row0 & fields & Hrow & Hx).
    apply row_paths_elem_of in Hx. eauto.
  - apply unique_from_NoDup.
  - intros i j x y. apply unique_from_order.
Qed.

(** The manifest of the specification's example, [pkg/mod.py] twice,
    with a data file between the two rows: the module and its [.pyc]
    come first and once, the data file after them, as in the manifest. *)
Lemma uninstallation_paths_spec_witness :
  let dist :=
    {| location := py "/env/lib";
       record_rows := [[py "pkg/mod.py"; py "sha256=abc"; py "10"];
                       [py "pkg/a.txt"]; [py "pkg/mod.py"]] |} in
  uninstallation_paths_body (location dist) (record_rows dist)
  = ([py "/env/lib/pkg/mod.py"; py "/env/lib/pkg/mod.pyc";
      py "/env/lib/pkg/a.txt";
      py "/env/lib/pkg/mod.py"; py "/env/lib/pkg/mod.pyc"], None)
  ∧ ∃ paths,
      uninstallation_paths dist = (paths, None)
      ∧ NoDup paths
      ∧ paths = [py "/env/lib/pkg/mod.py"; py "/env/lib/pkg/mod.pyc";
                 py "/env/lib/pkg/a.txt"].
Proof.
  intros dist.
  destruct (uninstallation_paths_spec dist)
    as (paths & Hraw & Hpaths & _ & _ & Hnd & _).
  - repeat constructor; discriminate.
  - split; [exact Hraw|]. exists paths. split; [exact Hpaths|].
    split; [exact Hnd|].
    vm_compute in Hpaths. by injection Hpaths as <-.
Defined.
End UninstallFacts.

(** ** The content hasher *)

Section HasherFacts.
Import Hasher.
Context (hl : Hashlib).

Lemma read_prefix (n : Z) (rest block : str) :
  read n rest = inr block → block ++ drop (length block) rest = rest.
Proof.
  unfold read. destruct (n <? -1)%Z; [done|].
  destruct (n <? 0)%Z; intros [= <-].
  - by rewrite drop_all, app_nil_r.
  - rewrite length_take.
    destruct (Nat.min_spec (Z.to_nat n) (length rest)) as [[? ->]|[? ->]].
    + apply take_drop.
    + rewrite take_ge, drop_all by lia. apply app_nil_r.
Qed.

Lemma read_nil (n : Z) (rest : str) :
  n ≠ 0%Z → read n rest = inr [] → rest = [].
Proof.
  unfold read. intros Hn. destruct (n <? -1)%Z; [done|].
  destruct (Z.ltb_spec n 0); [by intros [= ->]|].
  destruct rest as [|c rest]; [done|].
  destruct (Z.to_nat n) as [|k] eqn:Hk; [lia|]. done.
Qed.

Lemma read_returns (n : Z) (rest : str) :
  (-1 ≤ n)%Z → ∃ block, read n rest = inr block.
Proof.
  intros Hn. unfold read. destruct (Z.ltb_spec n (-1)); [lia|].
  destruct (n <? 0)%Z; eauto.
Qed.

Lemma read_raises (n : Z) (rest : str) :
  (n < -1)%Z → read n rest = inl ValueError.
Proof.
  intros Hn. unfold read. by destruct (Z.ltb_spec n (-1)); [|lia].
Qed.

(** The loop feeds the whole file to the hash object and counts its
    bytes, whatever the block size that [read] takes, as long as it is
    not 0 and the loop has one turn per byte and one more. *)
Lemma rehash_loop_spec (fuel : nat) (blocksize : Z) (h : hstate hl)
    (n : nat) (rest : str) :
  (-1 ≤ blocksize)%Z → blocksize ≠ 0%Z → length rest < fuel →
  rehash_loop hl fuel blocksize h n rest
    = Some (inr (hupdate hl h rest, n + length rest)).
Proof.
  intros Hvalid Hbs. revert h n rest.
  induction fuel as [|fuel IH]; intros h n rest Hfuel; [lia|].
  cbn [rehash_loop].
  destruct (read_returns blocksize rest Hvalid) as [block Hread].
  rewrite Hread. pose proof (read_prefix _ _ _ Hread) as Hsplit.
  destruct block as [|c block0].
  - apply read_nil in Hread as ->; [|done].
    rewrite hupdate_nil. simpl. do 3 f_equal. lia.
  - set (block := c :: block0) in *.
    assert (length rest = length block + length (drop (length block) rest))
      as Hlen.
    { rewrite <- Hsplit at 1. by rewrite length_app. }
    rewrite IH.
    + rewrite hupdate_app, Hsplit. do 3 f_equal. lia.
    + subst block. simpl in *. lia.
Qed.

(** C8, as the code has it: for an algorithm the hash library knows, a
    readable file and a block size that [read] takes and that is not 0,
    [rehash] gives the URL-safe base64 text of the digest without its
    padding and the number of bytes of the file; the tag in front of the
    digest is [sha256] whatever the algorithm is. *)
Theorem rehash_tag_is_sha256 (fs : gmap str str) (path algo data : str)
    (blocksize : Z) (h0 : hstate hl) :
  hnew hl algo = Some h0 →
  fs !! path = Some data → (-1 ≤ blocksize)%Z → blocksize ≠ 0%Z →
  rehash hl fs path algo blocksize
    = inr (py "sha256="
           ++ rstrip "=" (urlsafe_b64encode
                            (hdigest hl (hupdate hl h0 data))),
           length data).
Proof.
  intros Hnew Hfile Hvalid Hbs. unfold rehash. rewrite Hnew, Hfile.
  rewrite rehash_loop_spec by (done || lia). done.
Qed.
End HasherFacts.

(** With [algo='md5'] the digest is the one of [md5] and the tag still
    says [sha256]; an empty file has length 0. *)
Lemma rehash_tag_is_sha256_witness :
  Hasher.rehash Hasher.toy_hashlib {[ py "/f" := py "abc" ]} (py "/f")
    (py "md5") Hasher.default_blocksize
  = inr (py "sha256=bWQ1YWJj", 3)
  ∧ Hasher.rehash Hasher.toy_hashlib {[ py "/e" := [] ]} (py "/e")
      (py "md5") 1 = inr (py "sha256=bWQ1", 0).
Proof.
  split.
  - rewrite (rehash_tag_is_sha256 Hasher.toy_hashlib _ _ _ (py "abc") _
               (py "md5", []));
      [reflexivity|reflexivity|reflexivity|discriminate|discriminate].
  - rewrite (rehash_tag_is_sha256 Hasher.toy_hashlib _ _ _ [] _
               (py "md5", []));
      [reflexivity|reflexivity|reflexivity|discriminate|discriminate].
Defined.

(** ** The build orchestrator *)

Section BuilderFacts.
Import Exec Builder.
Context {World : Type}.
Context (run : list str → str → World → outcome * World).
Context (prepare_files : World → result (list Req) * World).
Context (sys_executable : str) (setup_script : str → str).

#[local] Abbreviation _build_one := (_build_one run sys_executable setup_script).
#[local] Abbreviation build_loop := (build_loop run sys_executable setup_script).
#[local] Abbreviation subprocess_runs :=
  (subprocess_runs run sys_executable setup_script).
#[local] Abbreviation wheel_args := (wheel_args sys_executable setup_script).

(** Whatever the subprocess does, [_build_one] returns: [True] after an
    exit with 0 and [False] otherwise. *)
Lemma _build_one_spec (self : WheelBuilder) (req : Req)
    (st : state (World:=World)) :
  let '(o, w) := run (wheel_args self req) (source_dir req) (world st) in
  ∃ l, _build_one self req st
       = (inr (succeeded o), {| world := w; log := l |}).
Proof.
  destruct (run _ _ _) as [o w] eqn:Hrun.
  unfold Builder._build_one, bnd, try_except, logger, modify,
    call_subprocess, ret. simpl. rewrite Hrun.
  destruct o as [[|c|c]|e]; simpl; eauto.
Qed.

Lemma build_loop_spec (self : WheelBuilder) (reqset : list Req)
    (build_success build_failure : list Req) (st : state (World:=World)) :
  let '(runs, w) := subprocess_runs self reqset (world st) in
  ∃ l, build_loop self reqset build_success build_failure st
       = (inr (build_success ++ (filter (λ r, succeeded r.2 = true) runs).*1,
               build_failure ++ (filter (λ r, succeeded r.2 = false) runs).*1),
          {| world := w; log := l |}).
Proof.
  revert build_success build_failure st.
  induction reqset as [|req rest IH]; intros bs bf st; simpl.
  - destruct st as [w l]. exists l. unfold ret. simpl.
    by rewrite !app_nil_r.
  - destruct (is_wheel req).
    + unfold bnd, logger, modify. simpl.
      specialize
        (IH bs bf
           {| world := world st;
              log := log st
                     ++ [Notify (py "Skipping building wheel: " ++ url req)] |}).
      simpl in IH. done.
    + pose proof (_build_one_spec self req st) as Hone.
      destruct (run _ _ _) as [o w1]. destruct Hone as [l1 Hone].
      unfold bnd at 1. rewrite Hone.
      destruct (succeeded o) eqn:Ho.
      * specialize (IH (bs ++ [req]) bf {| world := w1; log := l1 |}).
        simpl in IH. destruct (subprocess_runs self rest w1) as [runs w2].
        destruct IH as [l2 ->]. exists l2.
        rewrite filter_cons_True by done.
        rewrite filter_cons_False by (simpl; congruence).
        simpl. by rewrite <- (assoc_L (++)).
      * specialize (IH bs (bf ++ [req]) {| world := w1; log := l1 |}).
        simpl in IH. destruct (subprocess_runs self rest w1) as [runs w2].
        destruct IH as [l2 ->]. exists l2.
        rewrite filter_cons_False by (simpl; congruence).
        rewrite filter_cons_True by done.
        simpl. by rewrite <- (assoc_L (++)).
Qed.

Lemma subprocess_runs_reqs (self : WheelBuilder) (reqset : list Req)
    (w : World) :
  (subprocess_runs self reqset w).1.*1
  = filter (λ r, is_wheel r = false) reqset.
Proof.
  revert w. induction reqset as [|req rest IH]; intros w; [done|]. simpl.
  destruct (is_wheel req) eqn:Hw.
  - rewrite filter_cons_False by congruence. apply IH.
  - rewrite filter_cons_True by done.
    destruct (run _ _ _) as [o w1]. specialize (IH w1).
    destruct (subprocess_runs self rest w1) as [runs w2].
    simpl. f_equal. exact IH.
Qed.

(** C5: once the requirement set is prepared, [build] goes through the
    whole batch and ends without raising. Every requirement that is no
    wheel has its build command run once, in the order of the batch; it
    is in the list of successes when that run exited with 0 and in the
    list of failures when it exited with another code or raised; a wheel
    is in neither list; together the two lists are the requirements that
    are no wheel. *)
Theorem build_partitions_batch (self : WheelBuilder)
    (st : state (World:=World)) (reqset : list Req) (w : World) :
  prepare_files (world st) = (inr reqset, w) →
  ∃ build_success build_failure st',
    build run prepare_files sys_executable setup_script self st
      = (inr (build_success, build_failure), st')
    ∧ let '(runs, w') := subprocess_runs self reqset w in
      world st' = w'
      ∧ runs.*1 = filter (λ r, is_wheel r = false) reqset
      ∧ build_success = (filter (λ r, succeeded r.2 = true) runs).*1
      ∧ build_failure = (filter (λ r, succeeded r.2 = false) runs).*1
      ∧ build_success ++ build_failure
          ≡ₚ filter (λ r, is_wheel r = false) reqset
      ∧ (∀ r, r ∈ build_success ++ build_failure → is_wheel r = false).
Proof.
  intros Hprep. unfold build. unfold bnd at 1. rewrite Hprep.
  unfold bnd at 1. unfold logger at 1, modify. 
  set (st1 := {| world := _; log := _ |}).
  pose proof (build_loop_spec self reqset [] [] st1) as Hloop.
  pose proof (subprocess_runs_reqs self reqset w) as Hreqs.
  change (world st1) with w in Hloop.
  destruct (subprocess_runs self reqset w) as [runs w'].
  destruct Hloop as [l Hloop]. simpl in Hloop, Hreqs.
  set (S := (filter (λ r, succeeded r.2 = true) runs).*1) in *.
  set (F := (filter (λ r, succeeded r.2 = false) runs).*1) in *.
  assert (S ++ F ≡ₚ filter (λ r, is_wheel r = false) reqset) as Hperm.
  { rewrite <- Hreqs. subst S F. rewrite <- fmap_app. apply fmap_Permutation.
    clear. induction runs as [|[r o] runs IH]; [done|].
    destruct (succeeded o) eqn:Ho.
    - rewrite filter_cons_True by done.
      rewrite filter_cons_False by (simpl; congruence). simpl. by f_equiv.
    - rewrite filter_cons_False by (simpl; congruence).
      rewrite filter_cons_True by done.
      rewrite <- Permutation_middle. by f_equiv. }
  exists S, F. unfold bnd at 1. rewrite Hloop.
  unfold bnd, logger, modify, ret. simpl.
  destruct (bool_decide (S = [])), (bool_decide (F = [])); simpl;
    eexists; (split; [reflexivity|]); simpl;
    (split_and!; [done..|]);
    intros r Hr; rewrite Hperm in Hr;
    by apply list_elem_of_filter in Hr as [? _].
Qed.
End BuilderFacts.

(** Two source packages and a wheel; the build of the second one exits with
    1. *)
Lemma build_partitions_batch_witness :
  let pkg1 := {| Builder.req_name := py "pkg1"; Builder.is_wheel := false;
                 Builder.url := []; Builder.source_dir := py "/src/pkg1";
                 Builder.setup_py := py "/src/pkg1/setup.py" |} in
  let pkg2 := {| Builder.req_name := py "pkg2"; Builder.is_wheel := false;
                 Builder.url := []; Builder.source_dir := py "/src/pkg2";
                 Builder.setup_py := py "/src/pkg2/setup.py" |} in
  let whl := {| Builder.req_name := py "whl"; Builder.is_wheel := true;
                Builder.url := py "file:///whl-1.0-py2-none-any.whl";
                Builder.source_dir := []; Builder.setup_py := [] |} in
  let run := λ (args : list str) (cwd : str) (w : nat),
    (if decide (cwd = py "/src/pkg2") then Builder.Exited 1
     else Builder.Exited 0, S w) in
  let prepare := λ w : nat, (inr [pkg1; whl; pkg2], w) in
  let self := {| Builder.wheel_dir := py "/wheelhouse";
                 Builder.build_options := [];
                 Builder.global_options := [] |} in
  ∃ st',
    Builder.build run prepare (py "python") id self
      {| Builder.world := 0; Builder.log := [] |}
    = (inr ([pkg1], [pkg2]), st')
    ∧ Builder.world st' = 2.
Proof.
  intros pkg1 pkg2 whl run prepare self.
  destruct (build_partitions_batch run prepare (py "python") id self
              {| Builder.world := 0; Builder.log := [] |} [pkg1; whl; pkg2] 0)
    as (bs & bf & st' & Hbuild & Hruns); [reflexivity|].
  exists st'. vm_compute in Hruns.
  destruct Hruns as (Hw & _ & -> & -> & _). split; [exact Hbuild|exact Hw].
Defined.

(** ** Code that changes a state and can raise *)

Section ExecFacts.
Import Exec.
Context {S : Type}.

Lemma bnd_inr {A B} (m : M S A) (f : A → M S B) (st st' : S) (a : A) :
  m st = (inr a, st') → bnd m f st = f a st'.
Proof. unfold bnd. by intros ->. Qed.

Lemma bnd_inl {A B} (m : M S A) (f : A → M S B) (st st' : S) (e : exn) :
  m st = (inl e, st') → bnd m f st = (inl e, st').
Proof. unfold bnd. by intros ->. Qed.
End ExecFacts.

(** ** Installing a wheel: the metadata directory *)

Section ClobberFacts.
Import Exec Posix Install.
Context (make_path_relative : str → str → str).
Context (req_project_name wheeldir lib_dir : str).

#[local] Abbreviation multiple :=
  (AssertionError (py "Multiple .dist-info directories")).
#[local] Abbreviation clobber_subdir := (clobber_subdir req_project_name).
#[local] Abbreviation clobber_file :=
  (clobber_file make_path_relative wheeldir lib_dir).
#[local] Abbreviation clobber :=
  (clobber make_path_relative req_project_name wheeldir lib_dir).
#[local] Abbreviation walk_info_dirs := (walk_info_dirs req_project_name).
#[local] Abbreviation entry_info_dirs := (entry_info_dirs req_project_name).
#[local] Abbreviation clobber_entry :=
  (clobber_entry make_path_relative req_project_name wheeldir lib_dir).

(** One turn of the [for s in subdirs] loop of the base call: it leaves
    the files alone, and it raises exactly when it comes to a second
    metadata directory. *)
Lemma clobber_subdir_step (dest basedir s : str) (st : state) :
  length (info_dir st) ≤ 1 →
  let d := subdir_info_dir req_project_name dest basedir s in
  ∃ st',
    clobber_subdir dest true basedir s st
      = (if decide (length (info_dir st ++ d) ≤ 1) then inr tt
         else inl multiple, st')
    ∧ fs st' = fs st
    ∧ (length (info_dir st ++ d) ≤ 1 → info_dir st' = info_dir st ++ d).
Proof.
  intros Hlen d. subst d. unfold Install.clobber_subdir, subdir_info_dir.
  change (true && bool_decide (basedir = []))
    with (bool_decide (basedir = [])).
  change (true && is_info_dir_name req_project_name s)
    with (is_info_dir_name req_project_name s).
  destruct (bool_decide (basedir = []) && endswith _ _).
  - exists (set_data_dirs (λ l, l ++ [s]) st).
    rewrite app_nil_r, decide_True by done. done.
  - destruct (is_info_dir_name req_project_name s).
    + unfold bnd, get. cbv beta iota.
      destruct (info_dir st) as [|d0 l] eqn:Hinfo0.
      * exists (set_info_dir (λ l, l ++ [join3 dest basedir s]) st).
        rewrite decide_True by (simpl; lia). simpl. by rewrite Hinfo0.
      * exists st. rewrite decide_False by (rewrite length_app; simpl; lia).
        split_and!; [done..|].
        intros Hle. rewrite length_app in Hle. simpl in Hle. lia.
    + exists st. rewrite app_nil_r, decide_True by done. done.
Qed.

Lemma subdirs_scan (dest basedir : str) (subdirs : list str) (st : state) :
  length (info_dir st) ≤ 1 →
  let ds := subdirs ≫= subdir_info_dir req_project_name dest basedir in
  ∃ st',
    for_each subdirs (clobber_subdir dest true basedir) st
      = (if decide (length (info_dir st ++ ds) ≤ 1) then inr tt
         else inl multiple, st')
    ∧ fs st' = fs st
    ∧ (length (info_dir st ++ ds) ≤ 1 → info_dir st' = info_dir st ++ ds).
Proof.
  revert st. induction subdirs as [|s rest IH]; intros st Hlen ds.
  - exists st. subst ds. simpl. rewrite app_nil_r.
    rewrite decide_True by done. done.
  - subst ds. rewrite bind_cons. cbn [for_each].
    set (d := subdir_info_dir req_project_name dest basedir s).
    set (dsr := rest ≫= subdir_info_dir req_project_name dest basedir) in *.
    destruct (clobber_subdir_step dest basedir s st Hlen)
      as (st1 & Hrun1 & Hfs1 & Hinfo1). fold d in Hrun1, Hinfo1.
    destruct (decide (length (info_dir st ++ d) ≤ 1)) as [Hok|Hbad].
    + specialize (Hinfo1 Hok). cbv iota in Hrun1.
      destruct (IH st1) as (st' & Hrun & Hfs & Hinfo).
      { by rewrite Hinfo1. }
      exists st'. erewrite bnd_inr by exact Hrun1.
      rewrite Hinfo1, <- (assoc_L (++)) in Hrun, Hinfo.
      rewrite Hrun. split_and!; [done|congruence|done].
    + exists st1. cbv iota in Hrun1. erewrite bnd_inl by exact Hrun1.
      rewrite decide_False; [split_and!; [done..|]|].
      * intros Hle. exfalso. apply Hbad. rewrite !length_app in *. lia.
      * rewrite !length_app in *. lia.
Qed.

(** The [for f in files] loop of the base call: with every file in
    place it moves them all and leaves [info_dir] alone. *)
Lemma files_move (dir dest basedir : str) (files : list str) (st : state) :
  NoDup (join dir <$> files) →
  (∀ p, p ∈ join dir <$> files → is_Some (fs st !! p)) →
  ∃ st',
    for_each files (clobber_file dir dest basedir None None) st
      = (inr tt, st')
    ∧ info_dir st' = info_dir st
    ∧ (∀ p, p ∉ join dir <$> files → is_Some (fs st !! p) →
         is_Some (fs st' !! p)).
Proof.
  revert st. induction files as [|f rest IH]; intros st Hnd Hin.
  - exists st. done.
  - rewrite fmap_cons in Hnd, Hin.
    pose proof (NoDup_cons_1_1 _ _ Hnd) as Hf.
    apply NoDup_cons_1_2 in Hnd.
    destruct (Hin (join dir f)) as [data Hdata]; [left|].
    cbn [for_each]. unfold Install.clobber_file at 1.
    set (st1 := set_fs (λ m, <[join3 dest basedir f := data]>
                               (delete (join dir f) m)) st).
    set (st2 := set_installed
                  (λ m, <[normpath make_path_relative (join dir f) wheeldir
                          := normpath make_path_relative
                               (join3 dest basedir f) lib_dir]> m) st1).
    assert (bnd (bnd (shutil_move (join dir f) (join3 dest basedir f))
                  (λ _, bnd (ret (Some false))
                     (λ changed, record_installed make_path_relative
                        wheeldir lib_dir (join dir f)
                        (join3 dest basedir f) (truthy changed))))
                (λ _, for_each rest (clobber_file dir dest basedir None None))
                st
            = for_each rest (clobber_file dir dest basedir None None) st2)
      as ->.
    { unfold bnd, shutil_move, ret, record_installed, modify, bnd. simpl.
      by rewrite Hdata. }
    assert (∀ p, p ≠ join dir f → is_Some (fs st !! p) →
              is_Some (fs st2 !! p)) as Hkeep.
    { intros p Hp Hsome. simpl.
      destruct (decide (p = join3 dest basedir f)) as [->|Hne].
      - rewrite lookup_insert_eq. eauto.
      - rewrite lookup_insert_ne, lookup_delete_ne by done. done. }
    destruct (IH st2 Hnd) as (st' & Hrun & Hinfo & Hrest).
    { intros p Hp. apply Hkeep.
      - intros ->. done.
      - apply Hin. by right. }
    exists st'. split_and!; [done|by rewrite Hinfo|].
    intros p Hp Hsome. apply not_elem_of_cons in Hp as [Hp1 Hp2].
    apply Hrest; [done|]. by apply Hkeep.
Qed.

(** One directory of the walk in the base call. *)
Lemma clobber_entry_scan (source dest : str)
    (entry : str * list str * list str) (st : state) :
  length (info_dir st) ≤ 1 →
  NoDup (entry_srcfiles source entry) →
  (∀ p, p ∈ entry_srcfiles source entry → is_Some (fs st !! p)) →
  let d := entry_info_dirs source dest entry in
  ∃ st',
    clobber_entry source dest true None None entry st
      = (if decide (length (info_dir st ++ d) ≤ 1) then inr tt
         else inl multiple, st')
    ∧ (length (info_dir st ++ d) ≤ 1 → info_dir st' = info_dir st ++ d)
    ∧ (∀ p, p ∉ entry_srcfiles source entry → is_Some (fs st !! p) →
         is_Some (fs st' !! p)).
Proof.
  destruct entry as [[dir subdirs] files]. intros Hlen Hnd Hin d. subst d.
  unfold Install.clobber_entry, Install.entry_info_dirs, entry_srcfiles in *.
  destruct (skipped source true dir).
  - exists st. rewrite app_nil_r, decide_True by done. done.
  - set (ds := subdirs ≫= _).
    destruct (subdirs_scan dest (basedir_of source dir) subdirs st Hlen)
      as (st1 & Hrun1 & Hfs1 & Hinfo1). fold ds in Hrun1, Hinfo1.
    destruct (decide (length (info_dir st ++ ds) ≤ 1)) as [Hok|Hbad].
    + destruct (files_move dir dest (basedir_of source dir) files st1 Hnd)
        as (st2 & Hrun2 & Hinfo2 & Hkeep).
      { intros p Hp. rewrite Hfs1. by apply Hin. }
      exists st2. erewrite bnd_inr by exact Hrun1.
      split_and!; [done| |].
      * intros _. rewrite Hinfo2. by apply Hinfo1.
      * intros p Hp Hsome. apply Hkeep; [done|]. by rewrite Hfs1.
    + exists st1. erewrite bnd_inl by exact Hrun1.
      split_and!; [done..|]. intros p _. by rewrite Hfs1.
Qed.

(** The base call of [clobber] on a walk whose files are all in place:
    it raises exactly when the walk has a second metadata directory, in
    whatever directory it lies, and otherwise records the ones it
    met. *)
Lemma clobber_scan (walk : list (str * list str * list str))
    (source dest : str) (st : state) :
  length (info_dir st) ≤ 1 →
  NoDup (walk_srcfiles source walk) →
  (∀ p, p ∈ walk_srcfiles source walk → is_Some (fs st !! p)) →
  let ds := walk_info_dirs source dest walk in
  ∃ st',
    clobber walk source dest true None None st
      = (if decide (length (info_dir st ++ ds) ≤ 1) then inr tt
         else inl multiple, st')
    ∧ (length (info_dir st ++ ds) ≤ 1 → info_dir st' = info_dir st ++ ds).
Proof.
  revert st. induction walk as [|entry walk IH]; intros st Hlen Hnd Hin ds.
  - exists st. subst ds. simpl. rewrite app_nil_r.
    by rewrite decide_True.
  - subst ds. unfold walk_info_dirs, walk_srcfiles in *.
    rewrite bind_cons in *.
    apply list.NoDup_app in Hnd as (Hnd1 & Hdisj & Hnd2).
    unfold Install.clobber in *. cbn [for_each].
    set (d := entry_info_dirs source dest entry).
    set (dsr := walk ≫= entry_info_dirs source dest) in *.
    assert (∀ p, p ∈ entry_srcfiles source entry → is_Some (fs st !! p))
      as Hin1.
    { intros p Hp. apply Hin, elem_of_app. by left. }
    destruct (clobber_entry_scan source dest entry st Hlen Hnd1 Hin1)
      as (st1 & Hrun1 & Hinfo1 & Hkeep). fold d in Hrun1, Hinfo1.
    destruct (decide (length (info_dir st ++ d) ≤ 1)) as [Hok|Hbad].
    + specialize (Hinfo1 Hok).
      destruct (IH st1) as (st2 & Hrun2 & Hinfo2); [|done|..].
      { by rewrite Hinfo1. }
      { intros p Hp. apply Hkeep; [by intros ?; eapply Hdisj|].
        apply Hin, elem_of_app. by right. }
      rewrite Hinfo1, <- (assoc_L (++)) in Hrun2, Hinfo2.
      exists st2. erewrite bnd_inr by exact Hrun1. done.
    + exists st1. erewrite bnd_inl by exact Hrun1.
      rewrite decide_False; [split; [done|]|].
      * intros Hle. exfalso. apply Hbad. rewrite !length_app in *. lia.
      * rewrite !length_app in *. lia.
Qed.

#[local] Abbreviation source := (Install.source wheeldir).

Lemma endswith_dist_info_not_data (d s : str) :
  endswith s (py ".dist-info") = true → s `suffix_of` d →
  endswith d (py ".data") = false.
Proof.
  intros Hs [k ->]. apply bool_decide_eq_true in Hs as [k' ->].
  apply bool_decide_eq_false. intros [k'' Hk].
  change (py ".dist-info") with (py ".dist-inf" ++ ["o"]) in Hk.
  change (py ".data") with (py ".dat" ++ ["a"]) in Hk.
  rewrite !(assoc_L (++)) in Hk. by apply app_inj_tail in Hk as [_ ?].
Qed.

Lemma suffix_join (a b : str) : b `suffix_of` join a b.
Proof.
  unfold join. destruct (startswith b [sep]); [done|].
  destruct (_ || _).
  - by exists a.
  - exists (a ++ [sep]). by rewrite <- (assoc_L (++)).
Qed.

(** Every metadata directory at the top of the tree is among those the
    base call meets. *)
Lemma top_level_info_dirs (t : tree) (dest : str) :
  length (filter (λ s, is_info_dir_name req_project_name s = true)
            (top_level_dirs t))
  ≤ length (walk_info_dirs source dest (os_walk source t)).
Proof.
  destruct t as [subdirs files]. unfold walk_info_dirs.
  cbn [os_walk top_level_dirs].
  rewrite bind_cons, length_app. unfold Install.entry_info_dirs at 1.
  assert (skipped source true source = false) as ->.
  { unfold skipped, basedir_of. rewrite drop_all. simpl.
    apply bool_decide_eq_false. intros [k Hk]. by destruct k. }
  assert (basedir_of source source = []) as ->.
  { unfold basedir_of. by rewrite drop_all. }
  enough (length (filter (λ s, is_info_dir_name req_project_name s = true)
                    subdirs.*1)
          = length (subdirs.*1
                    ≫= subdir_info_dir req_project_name dest [])) by lia.
  induction (subdirs.*1) as [|s l IH]; [done|].
  rewrite bind_cons, length_app, <- IH. unfold subdir_info_dir at 1.
  destruct (is_info_dir_name req_project_name s) eqn:Hs.
  - rewrite filter_cons_True by done.
    rewrite (endswith_dist_info_not_data _ s).
    + by rewrite andb_false_r.
    + unfold is_info_dir_name in Hs. by apply andb_true_iff in Hs as [? _].
    + apply suffix_join.
  - rewrite filter_cons_False by congruence. by destruct (_ && _).
Qed.

(** C9, as the code has it: [clobber(source, lib_dir, True)] and the
    assertion after it, on a tree whose files are all in place. The test
    for a metadata directory is made on every directory of the walk that
    is not below a top-level [*.data], not only on those at the top. So
    the two steps end well exactly when the walk meets one metadata
    directory, at the top or below it, and then [info_dir] holds its
    place under [lib_dir]; they fail with [Multiple .dist-info
    directories] when it meets more than one, as it does when two of
    them are at the top; and with the requirement and [.dist-info
    directory not found] when it meets none. *)
Theorem clobber_base_metadata (req : str) (t : tree) (st : state) :
  info_dir st = [] →
  NoDup (walk_srcfiles source (os_walk source t)) →
  Forall (λ p, is_Some (fs st !! p))
    (walk_srcfiles source (os_walk source t)) →
  let ds := walk_info_dirs source lib_dir (os_walk source t) in
  ∃ st',
    clobber_base make_path_relative req_project_name wheeldir lib_dir req t st
      = (match ds with
         | [] => inl (AssertionError
                        (req ++ py " .dist-info directory not found"))
         | [_] => inr tt
         | _ :: _ :: _ => inl multiple
         end, st')
    ∧ (∀ d, ds = [d] → info_dir st' = [d])
    ∧ length (filter (λ s, is_info_dir_name req_project_name s = true)
                (top_level_dirs t)) ≤ length ds.
Proof.
  intros Hinfo Hnd Hin ds. rewrite list.Forall_forall in Hin.
  destruct (clobber_scan (os_walk source t) source lib_dir st)
    as (st' & Hrun & Hrec); [rewrite Hinfo; simpl; lia|exact Hnd|exact Hin|].
  fold ds in Hrun, Hrec. rewrite Hinfo in Hrun, Hrec. simpl in Hrun, Hrec.
  exists st'. unfold clobber_base. split_and!.
  - destruct ds as [|d [|d' ds']]; simpl in Hrun.
    + erewrite bnd_inr by exact Hrun. unfold bnd, get.
      rewrite Hrec by (simpl; lia). done.
    + erewrite bnd_inr by exact Hrun. unfold bnd, get.
      rewrite Hrec by (simpl; lia). done.
    + erewrite bnd_inl by exact Hrun. done.
  - intros d Hd. rewrite Hd in Hrec. by apply Hrec.
  - apply top_level_info_dirs.
Qed.
End ClobberFacts.

(** A wheel of [foo] with its package and its metadata directory; and
    the same wheel without the metadata directory. *)
Lemma clobber_base_metadata_witness :
  let t := Install.Dir
             [(py "foo", Install.Dir [] [py "__init__.py"]);
              (py "foo-1.0.dist-info", Install.Dir [] [py "RECORD"])] [] in
  let files : gmap str str :=
    {[ py "/tmp/w/foo/__init__.py" := [];
       py "/tmp/w/foo-1.0.dist-info/RECORD" := py "foo/__init__.py,," ]} in
  let bare := Install.Dir [(py "foo", Install.Dir [] [py "__init__.py"])] [] in
  (∃ st',
     Install.clobber_base Install.relative_to (py "foo") (py "/tmp/w")
       (py "/env/lib") (py "foo==1.0") t (Install.initial files)
     = (inr tt, st')
     ∧ Install.info_dir st' = [py "/env/lib/foo-1.0.dist-info"])
  ∧ ∃ st',
      Install.clobber_base Install.relative_to (py "foo") (py "/tmp/w")
        (py "/env/lib") (py "foo==1.0") bare (Install.initial files)
      = (inl (AssertionError (py "foo==1.0 .dist-info directory not found")),
         st').
Proof.
  intros t files bare. split.
  - destruct (clobber_base_metadata Install.relative_to (py "foo")
                (py "/tmp/w") (py "/env/lib") (py "foo==1.0") t
                (Install.initial files)) as (st' & Hrun & Hrec & _).
    + reflexivity.
    + apply (bool_decide_unpack _). vm_compute. exact I.
    + apply (bool_decide_unpack _). vm_compute. exact I.
    + exists st'. split; [exact Hrun|]. by apply Hrec.
  - destruct (clobber_base_metadata Install.relative_to (py "foo")
                (py "/tmp/w") (py "/env/lib") (py "foo==1.0") bare
                (Install.initial files)) as (st' & Hrun & _).
    + reflexivity.
    + apply (bool_decide_unpack _). vm_compute. exact I.
    + apply (bool_decide_unpack _). vm_compute. exact I.
    + exists st'. exact Hrun.
Defined.

(** Where the code leaves C9: one metadata directory at the top of the
    tree and one more inside the package, and the assertion fires. *)
Lemma nested_info_dir_aborts :
  let t := Install.Dir
             [(py "foo",
               Install.Dir [(py "foo_extra-2.0.dist-info", Install.Dir [] [])]
                 []);
              (py "foo-1.0.dist-info", Install.Dir [] [])] [] in
  length (filter (λ s, Install.is_info_dir_name (py "foo") s = true)
            (Install.top_level_dirs t)) = 1
  ∧ (Install.clobber_base Install.relative_to (py "foo") (py "/tmp/w")
       (py "/env/lib") (py "foo==1.0") t (Install.initial ∅)).1
    = inl (AssertionError (py "Multiple .dist-info directories")).
Proof. split; vm_compute; reflexivity. Qed.


(** ** Installing a wheel: the rewrite of RECORD *)

Section RecordFacts.
Import Exec Posix Hasher Install.
Context (hl : Hashlib).
Context (make_path_relative : str → str → str).
Context (csv_reader : str → list (list str)).
Context (csv_writerow : list str → str).
Context (order : DictOrder).
Context (wheeldir lib_dir : str).

#[local] Abbreviation writerow := (writerow csv_writerow).
#[local] Abbreviation rewrite_row := (rewrite_row hl csv_writerow).
#[local] Abbreviation write_generated := (write_generated hl csv_writerow).
#[local] Abbreviation rewrite_record :=
  (rewrite_record hl csv_reader csv_writerow order).
#[local] Abbreviation record_installed :=
  (record_installed make_path_relative wheeldir lib_dir).
#[local] Abbreviation normpath := (normpath make_path_relative).

#[local] Abbreviation text_of := (text_of csv_writerow).
#[local] Abbreviation appends := (appends csv_writerow).

Lemma text_of_app (r1 r2 : list (list str)) :
  text_of (r1 ++ r2) = text_of r1 ++ text_of r2.
Proof. unfold Install.text_of. by rewrite fmap_app, join_app. Qed.

Lemma record_ne_temp (st : state) : record_path st ≠ temp_record_path st.
Proof.
  unfold record_path, temp_record_path, join.
  change (startswith (py "RECORD") [sep]) with false.
  change (startswith (py "RECORD.pip") [sep]) with false. cbv iota.
  intros Heq. apply (f_equal length) in Heq.
  destruct (_ || _); rewrite !length_app in Heq; simpl in Heq; lia.
Qed.

Lemma for_each_appends {A T} (out : str) (keep : state → T)
    (body : A → M state unit) (l : list A) :
  (∀ x, appends out keep (body x)) →
  ∀ st files text,
    fs st = <[out := text]> files →
    ∃ r st' rows,
      for_each l body st = (r, st')
      ∧ fs st' = <[out := text ++ text_of rows]> files
      ∧ keep st' = keep st
      ∧ (r = inr tt → length rows = length l).
Proof.
  intros Hbody. induction l as [|x l IH]; intros st files text Hfs.
  - exists (inr tt), st, []. unfold Install.text_of. simpl.
    by rewrite app_nil_r.
  - destruct (Hbody x st files text Hfs)
      as (r1 & st1 & rows1 & Hrun1 & Hfs1 & Hkeep1 & Hlen1).
    cbn [for_each]. destruct r1 as [e|[]].
    + exists (inl e), st1, rows1. erewrite bnd_inl by exact Hrun1. done.
    + destruct (IH st1 files _ Hfs1)
        as (r2 & st2 & rows2 & Hrun2 & Hfs2 & Hkeep2 & Hlen2).
      exists r2, st2, (rows1 ++ rows2). erewrite bnd_inr by exact Hrun1.
      rewrite text_of_app, (assoc_L (++)).
      split_and!; [done..|congruence|].
      intros Hr. rewrite length_app, Hlen1, Hlen2 by done. done.
Qed.

Lemma writerow_appends {T} (out : str) (keep : state → T) (row : list str)
    (st : state) (files : gmap str str) (text : str) :
  (∀ f st, keep (set_fs f st) = keep st) →
  fs st = <[out := text]> files →
  ∃ st',
    writerow out row st = (inr tt, st')
    ∧ fs st' = <[out := text ++ text_of [row]]> files
    ∧ keep st' = keep st.
Proof.
  intros Hkeep Hfs. eexists. split; [reflexivity|]. split; [|apply Hkeep].
  simpl. rewrite Hfs, lookup_insert_eq, insert_insert_eq. simpl.
  unfold Install.text_of. simpl. by rewrite app_nil_r.
Qed.

Lemma rewrite_row_appends (out : str) (row : list str) :
  appends out (λ _, tt) (rewrite_row out row).
Proof.
  intros st files text Hfs. unfold Install.rewrite_row.
  destruct row as [|path fields].
  { exists (inl IndexError), st, []. unfold Install.text_of. simpl.
    by rewrite app_nil_r. }
  unfold bnd at 1, get at 1. cbv beta iota.
  set (row0 := default path (installed st !! path)).
  erewrite bnd_inr by reflexivity.
  set (st1 := set_installed (λ m, delete path m) st).
  assert (fs st1 = <[out := text]> files) as Hfs1 by done.
  case_decide as Hchanged.
  - unfold bnd, rehash_st.
    destruct (rehash hl (fs st1) row0 default_algo default_blocksize)
      as [e|[h n]].
    + exists (inl e), st1, []. unfold Install.text_of. simpl.
      by rewrite app_nil_r.
    + destruct fields as [|f1 [|f2 more]].
      * exists (inl IndexError), st1, []. unfold Install.text_of, raise. simpl.
        by rewrite app_nil_r.
      * exists (inl IndexError), st1, []. unfold Install.text_of, raise. simpl.
        by rewrite app_nil_r.
      * destruct (writerow_appends out (λ _, tt)
                    (row0 :: h :: str_of_nat n :: more) st1 files text)
          as (st2 & Hrun & Hfs2 & _); [done..|].
        exists (inr tt), st2, [row0 :: h :: str_of_nat n :: more]. done.
  - destruct (writerow_appends out (λ _, tt) (row0 :: fields) st1 files text)
      as (st2 & Hrun & Hfs2 & _); [done..|].
    exists (inr tt), st2, [row0 :: fields]. done.
Qed.

Lemma write_generated_appends (out f : str) :
  appends out installed (write_generated out f).
Proof.
  intros st files text Hfs. unfold Install.write_generated, bnd, rehash_st.
  destruct (rehash hl (fs st) f default_algo default_blocksize)
    as [e|[h n]].
  - exists (inl e), st, []. unfold Install.text_of. simpl. by rewrite app_nil_r.
  - destruct (writerow_appends out installed [f; h; str_of_nat n]
                st files text) as (st2 & Hrun & Hfs2 & Hkeep); [done..|].
    exists (inr tt), st2, [[f; h; str_of_nat n]]. done.
Qed.

Lemma write_installed_appends (out : str) (kv : str * str) :
  appends out installed (writerow out [kv.2; []; []]).
Proof.
  intros st files text Hfs.
  destruct (writerow_appends out installed [kv.2; []; []] st files text)
    as (st2 & Hrun & Hfs2 & Hkeep); [done..|].
  exists (inr tt), st2, [[kv.2; []; []]]. done.
Qed.

(** What the loops of the rewrite leave alone. *)
#[local] Abbreviation locals st :=
  (info_dir st, data_dirs st, changed st, generated st).

Lemma Forall2_impl_elem {A B} (P Q : A → B → Prop) (l : list A)
    (k : list B) :
  Forall2 P l k → (∀ x y, x ∈ l → P x y → Q x y) → Forall2 Q l k.
Proof.
  induction 1 as [|x y l k Hxy _ IH]; intros Himp; constructor.
  - apply Himp; [left|done].
  - apply IH. intros x' y' Hx'. apply Himp. by right.
Qed.

Lemma text_of_cons (row : list str) (rows : list (list str)) :
  text_of (row :: rows) = csv_writerow row ++ text_of rows.
Proof. done. Qed.

Lemma writerow_run (out : str) (row : list str) (st : state)
    (files : gmap str str) (text : str) :
  fs st = <[out := text]> files →
  ∃ st',
    writerow out row st = (inr tt, st')
    ∧ fs st' = <[out := text ++ csv_writerow row]> files
    ∧ installed st' = installed st ∧ locals st' = locals st.
Proof.
  intros Hfs. eexists. split; [reflexivity|]. split; [|done].
  simpl. by rewrite Hfs, lookup_insert_eq, insert_insert_eq.
Qed.

Lemma translate_row_delete (m : gmap str str) (p : str) (row : list str) :
  head row ≠ Some p → translate_row (delete p m) row = translate_row m row.
Proof.
  destruct row as [|path fields]; [done|]. simpl. intros Hne.
  rewrite lookup_delete_ne by congruence. done.
Qed.

Lemma rewritten_row_delete (files m : gmap str str) (ch : gset str)
    (p : str) (row out : list str) :
  head row ≠ Some p →
  rewritten_row hl files (delete p m) ch row out
  ↔ rewritten_row hl files m ch row out.
Proof.
  destruct row as [|path fields]; [done|]. simpl. intros Hne.
  rewrite lookup_delete_ne by congruence. done.
Qed.

Lemma rehash_same_file (fs1 fs2 : gmap str str) (path algo : str)
    (blocksize : Z) :
  fs1 !! path = fs2 !! path →
  rehash hl fs1 path algo blocksize = rehash hl fs2 path algo blocksize.
Proof. unfold rehash. by intros ->. Qed.

(** One row read: it is written with its path translated, with a new
    hash and length where the translated path is in [changed], and its
    path leaves [installed]. *)
Lemma rewrite_row_run (out path : str) (fields row_out : list str)
    (st : state) (files : gmap str str) (text : str) :
  fs st = <[out := text]> files →
  out ∉ changed st →
  rewritten_row hl files (installed st) (changed st) (path :: fields) row_out →
  ∃ st',
    rewrite_row out (path :: fields) st = (inr tt, st')
    ∧ fs st' = <[out := text ++ csv_writerow row_out]> files
    ∧ installed st' = delete path (installed st)
    ∧ locals st' = locals st.
Proof.
  intros Hfs Hout Hrow. unfold Install.rewrite_row.
  unfold bnd at 1, get at 1. cbv beta iota.
  erewrite bnd_inr by reflexivity.
  set (st1 := set_installed (λ m, delete path m) st).
  cbn [rewritten_row] in Hrow. cbv zeta in Hrow.
  set (row0 := default path (installed st !! path)) in *.
  destruct (decide (row0 ∈ changed st)) as [Hch|Hch].
  - destruct Hrow as (h & n & f1 & f2 & more & -> & Hh & ->).
    unfold bnd at 1, rehash_st.
    rewrite (rehash_same_file (fs st1) files).
    2:{ change (fs st1) with (fs st). rewrite Hfs, lookup_insert_ne; [done|].
        by intros ->. }
    rewrite Hh. cbn [fst snd].
    destruct (writerow_run out (row0 :: h :: str_of_nat n :: more)
                st1 files text Hfs) as (st2 & Hrun2 & Hfs2 & Hin2 & Hloc2).
    exists st2. done.
  - subst row_out.
    destruct (writerow_run out (row0 :: fields) st1 files text Hfs)
      as (st2 & Hrun2 & Hfs2 & Hin2 & Hloc2).
    exists st2. done.
Qed.

(** The rows read, one after the other. *)
Lemma rewrite_rows_run (out : str) (rows rows_out : list (list str))
    (st : state) (files : gmap str str) (text : str) :
  fs st = <[out := text]> files →
  out ∉ changed st →
  NoDup (row_paths_of rows) →
  Forall2 (rewritten_row hl files (installed st) (changed st)) rows rows_out →
  ∃ st',
    for_each rows (rewrite_row out) st = (inr tt, st')
    ∧ fs st' = <[out := text ++ text_of rows_out]> files
    ∧ (∀ k, installed st' !! k
            = if decide (k ∈ row_paths_of rows) then None
              else installed st !! k)
    ∧ locals st' = locals st.
Proof.
  intros Hfs Hout Hnd Hrows. revert rows_out st text Hfs Hout Hnd Hrows.
  induction rows as [|row rows IH];
    intros rows_out st text Hfs Hout Hnd Hrows.
  - apply Forall2_nil_inv_l in Hrows as ->.
    exists st. split_and!; [done| |done|done].
    unfold Install.text_of. simpl. by rewrite app_nil_r.
  - apply Forall2_cons_inv_l in Hrows as (row_out & outs & Hrow & Hrows & ->).
    destruct row as [|path fields]; [done|].
    unfold row_paths_of in *. cbn [omap list_omap head] in Hnd.
    pose proof (NoDup_cons_1_1 _ _ Hnd) as Hpath.
    apply NoDup_cons_1_2 in Hnd.
    cbn [for_each].
    destruct (rewrite_row_run out path fields row_out st files text Hfs Hout
                Hrow) as (st2 & Hrun2 & Hfs2 & Hin2 & Hloc2).
    unfold bnd at 1. rewrite Hrun2.
    assert (∀ r, r ∈ rows → head r ≠ Some path) as Hother.
    { intros r Hr Hhead. apply Hpath. apply list_elem_of_omap. eauto. }
    assert (changed st2 = changed st) as Hch2 by congruence.
    destruct (IH outs st2 _ Hfs2) as (st' & Hrun & Hfs' & Hin' & Hloc').
    { by rewrite Hch2. }
    { done. }
    { rewrite Hin2, Hch2. eapply Forall2_impl_elem; [exact Hrows|].
      intros r o Hr Hro. apply rewritten_row_delete; [|done].
      by apply Hother. }
    exists st'. split_and!; [done| | |congruence].
    + by rewrite Hfs', text_of_cons, <- (assoc_L (++)).
    + intros k. rewrite Hin', Hin2. cbn [omap list_omap head].
      destruct (decide (k = path)) as [->|Hk].
      * rewrite (decide_True (P := path ∈ path :: _)) by left.
        case_decide; [done|apply lookup_delete_eq].
      * rewrite lookup_delete_ne by done.
        case_decide as H1; case_decide as H2; try done.
        -- exfalso. apply H2. by right.
        -- apply elem_of_cons in H2 as [?|?]; done.
Qed.

Lemma write_generated_one (out f : str) (row_out : list str) (st : state)
    (files : gmap str str) (text : str) :
  fs st = <[out := text]> files → f ≠ out →
  generated_row hl files f row_out →
  ∃ st',
    write_generated out f st = (inr tt, st')
    ∧ fs st' = <[out := text ++ csv_writerow row_out]> files
    ∧ installed st' = installed st ∧ locals st' = locals st.
Proof.
  intros Hfs Hf (h & n & Hh & ->).
  unfold Install.write_generated, bnd, rehash_st.
  rewrite (rehash_same_file (fs st) files)
    by (by rewrite Hfs, lookup_insert_ne).
  rewrite Hh. cbn [fst snd].
  apply (writerow_run out [f; h; str_of_nat n] st files text Hfs).
Qed.

(** The generated files: a row for each, with its hash and length. *)
Lemma write_generated_run (out : str) (gen : list str)
    (gen_rows : list (list str)) (st : state) (files : gmap str str)
    (text : str) :
  fs st = <[out := text]> files →
  out ∉ gen →
  Forall2 (generated_row hl files) gen gen_rows →
  ∃ st',
    for_each gen (write_generated out) st = (inr tt, st')
    ∧ fs st' = <[out := text ++ text_of gen_rows]> files
    ∧ installed st' = installed st ∧ locals st' = locals st.
Proof.
  intros Hfs Hout Hgen. revert st text Hfs Hout.
  induction Hgen as [|f row gen gen_rows Hrow _ IH];
    intros st text Hfs Hout.
  - exists st. split_and!; [done| |done|done].
    unfold Install.text_of. simpl. by rewrite app_nil_r.
  - apply not_elem_of_cons in Hout as [Hf Hout].
    cbn [for_each].
    destruct (write_generated_one out f row st files text Hfs)
      as (st1 & Hrun1 & Hfs1 & Hin1 & Hloc1); [congruence|done|].
    unfold bnd at 1. rewrite Hrun1.
    destruct (IH st1 _ Hfs1 Hout) as (st' & Hrun & Hfs' & Hin' & Hloc').
    exists st'. split_and!; [done| |congruence|congruence].
    by rewrite Hfs', text_of_cons, <- (assoc_L (++)).
Qed.

(** What is left of [installed]: a row for each, without hash and
    length. *)
Lemma write_left_run (out : str) (left : list (str * str)) (st : state)
    (files : gmap str str) (text : str) :
  fs st = <[out := text]> files →
  ∃ st',
    for_each left (λ kv, writerow out [kv.2; []; []]) st = (inr tt, st')
    ∧ fs st' = <[out := text
                        ++ text_of ((λ kv, [kv.2; []; []]) <$> left)]> files
    ∧ installed st' = installed st ∧ locals st' = locals st.
Proof.
  revert st text. induction left as [|kv left IH]; intros st text Hfs.
  - exists st. split_and!; [done| |done|done].
    unfold Install.text_of. simpl. by rewrite app_nil_r.
  - cbn [for_each].
    destruct (writerow_run out [kv.2; []; []] st files text Hfs)
      as (st1 & Hrun1 & Hfs1 & Hin1 & Hloc1).
    unfold bnd at 1. rewrite Hrun1.
    destruct (IH st1 _ Hfs1) as (st' & Hrun & Hfs' & Hin' & Hloc').
    exists st'. split_and!; [done| |congruence|congruence].
    by rewrite Hfs', fmap_cons, text_of_cons, <- (assoc_L (++)).
Qed.

(** The rewrite, whatever its end: it writes to [RECORD.pip] only and
    moves it over [RECORD] as its last step. *)
Lemma rewrite_record_ends (st : state) :
  let record := record_path st in
  let temp_record := temp_record_path st in
  ∃ r st',
    rewrite_record st = (r, st')
    ∧ match r with
      | inl _ => fs st' !! record = fs st !! record
      | inr _ =>
          ∃ record_in rows,
            fs st !! record = Some record_in
            ∧ fs st' = <[record := text_of rows]>
                         (delete temp_record (fs st))
            ∧ length rows
              = length (csv_reader record_in) + length (generated st)
                + size (installed st')
      end.
Proof.
  intros record temp_record.
  assert (record ≠ temp_record) as Hne by apply record_ne_temp.
  unfold Install.rewrite_record. unfold bnd at 1, get at 1. cbv beta iota.
  destruct (info_dir st) as [|d ds] eqn:Hinfo.
  { by exists (inl IndexError), st. }
  fold record temp_record.
  destruct (fs st !! record) as [record_in|] eqn:Hrec.
  2:{ by exists (inl (IOError record)), st. }
  erewrite bnd_inr by reflexivity.
  set (st0 := set_fs (λ m, <[temp_record := []]> m) st).
  assert (fs st0 = <[temp_record := []]> (fs st)) as Hfs0 by done.
  assert (∀ text, <[temp_record := text]> (fs st) !! record = Some record_in)
    as Hkept.
  { intros text. by rewrite lookup_insert_ne. }
  (* the rows read *)
  destruct (for_each_appends temp_record (λ _, tt)
              (rewrite_row temp_record) (csv_reader record_in)
              (rewrite_row_appends temp_record) st0 (fs st) [] Hfs0)
    as (r1 & st1 & rows1 & Hrun1 & Hfs1 & _ & Hlen1).
  destruct r1 as [e|[]].
  { exists (inl e), st1. erewrite bnd_inl by exact Hrun1.
    split; [done|]. by rewrite Hfs1, Hkept. }
  erewrite bnd_inr by exact Hrun1. specialize (Hlen1 eq_refl).
  (* the generated files *)
  destruct (for_each_appends temp_record installed
              (write_generated temp_record) (generated st)
              (write_generated_appends temp_record) st1 (fs st) _ Hfs1)
    as (r2 & st2 & rows2 & Hrun2 & Hfs2 & Hkeep2 & Hlen2).
  destruct r2 as [e|[]].
  { exists (inl e), st2. erewrite bnd_inl by exact Hrun2.
    split; [done|]. by rewrite Hfs2, Hkept. }
  erewrite bnd_inr by exact Hrun2. specialize (Hlen2 eq_refl).
  (* what is left in [installed] *)
  unfold bnd at 2, get at 1. cbv beta iota.
  destruct (for_each_appends temp_record installed
              (λ kv, writerow temp_record [kv.2; []; []])
              (items order (installed st2))
              (write_installed_appends temp_record) st2 (fs st) _ Hfs2)
    as (r3 & st3 & rows3 & Hrun3 & Hfs3 & Hkeep3 & Hlen3).
  destruct r3 as [e|[]].
  { exists (inl e), st3. erewrite bnd_inl by exact Hrun3.
    split; [done|]. by rewrite Hfs3, Hkept. }
  erewrite bnd_inr by exact Hrun3. specialize (Hlen3 eq_refl).
  (* the move *)
  unfold shutil_move. rewrite Hfs3, lookup_insert_eq.
  eexists (inr tt), _. split; [reflexivity|].
  exists record_in, (rows1 ++ rows2 ++ rows3). split_and!; [done| |].
  - simpl. rewrite Hfs3, delete_insert_eq.
    rewrite !text_of_app, !(assoc_L (++)). done.
  - simpl. rewrite !length_app, Hlen1, Hlen2, Hlen3.
    rewrite (Permutation_length (items_perm order _)), length_map_to_list.
    rewrite Hkeep3. lia.
Qed.

(** The rewrite, when it can go through: the old RECORD is there, no
    path comes twice in it, every row ([rewritten_row]) and every
    generated file ([generated_row]) has its new row, and the temporary
    file is no path of [changed] or [generated]. *)
Lemma rewrite_record_goes_through (st : state) (record_in : str)
    (rows gen_rows : list (list str)) :
  let record := record_path st in
  let temp_record := temp_record_path st in
  info_dir st ≠ [] →
  fs st !! record = Some record_in →
  NoDup (row_paths_of (csv_reader record_in)) →
  temp_record ∉ changed st →
  temp_record ∉ generated st →
  Forall2 (rewritten_row hl (fs st) (installed st) (changed st))
    (csv_reader record_in) rows →
  Forall2 (generated_row hl (fs st)) (generated st) gen_rows →
  ∃ st',
    rewrite_record st = (inr tt, st')
    ∧ (∀ k, installed st' !! k
            = if decide (k ∈ row_paths_of (csv_reader record_in)) then None
              else installed st !! k)
    ∧ fs st'
      = <[record := text_of
                      (rows ++ gen_rows
                       ++ ((λ kv, [kv.2; []; []])
                           <$> items order (installed st')))]>
          (delete temp_record (fs st)).
Proof.
  intros record temp_record Hinfo Hrec Hnd Hch Htemp Hrows Hgen.
  assert (record ≠ temp_record) as Hrt by apply record_ne_temp.
  unfold Install.rewrite_record. unfold bnd at 1, get at 1. cbv beta iota.
  destruct (info_dir st) as [|d ds] eqn:Hd; [done|].
  fold record temp_record. rewrite Hrec.
  unfold bnd at 1, modify at 1. cbv beta iota.
  set (st0 := set_fs (λ m, <[temp_record := []]> m) st).
  set (files := delete temp_record (fs st)).
  assert (fs st0 = <[temp_record := []]> files) as Hfs0.
  { subst st0 files. simpl. by rewrite insert_delete_eq. }
  assert (∀ f algo b, f ≠ temp_record →
            rehash hl files f algo b = rehash hl (fs st) f algo b) as Hsame.
  { intros f algo b Hf. apply rehash_same_file. subst files.
    by rewrite lookup_delete_ne. }
  destruct (rewrite_rows_run temp_record (csv_reader record_in) rows st0 files
              [] Hfs0 Hch Hnd) as (st1 & Hrun1 & Hfs1 & Hin1 & Hloc1).
  { eapply Forall2_impl_elem; [exact Hrows|].
    intros [|path fields] o _; [done|]. cbn [rewritten_row]. cbv zeta.
    change (installed st0) with (installed st).
    change (changed st0) with (changed st).
    case_decide as Hin; [|done].
    intros (h & n & f1 & f2 & more & -> & Hh & ->).
    exists h, n, f1, f2, more. split_and!; [done| |done].
    rewrite Hsame; [done|]. by intros Heq; rewrite Heq in Hin. }
  unfold bnd at 1. rewrite Hrun1.
  destruct (write_generated_run temp_record (generated st) gen_rows st1 files
              _ Hfs1 Htemp) as (st2 & Hrun2 & Hfs2 & Hin2 & Hloc2).
  { eapply Forall2_impl_elem; [exact Hgen|].
    intros f row Hf (h & n & Hh & ->).
    exists h, n. split; [|done]. rewrite Hsame; [done|]. by intros ->. }
  unfold bnd at 1. rewrite Hrun2.
  unfold bnd at 2, get at 1. cbv beta iota.
  destruct (write_left_run temp_record (items order (installed st2)) st2
              files _ Hfs2) as (st3 & Hrun3 & Hfs3 & Hin3 & Hloc3).
  unfold bnd at 1. rewrite Hrun3.
  unfold shutil_move. rewrite Hfs3, lookup_insert_eq.
  eexists. split; [reflexivity|]. split.
  - intros k. cbn [installed set_fs]. by rewrite Hin3, Hin2, Hin1.
  - cbn [fs installed set_fs]. rewrite Hfs3, delete_insert_eq.
    rewrite !text_of_app, !(assoc_L (++)), Hin3.
    subst files. rewrite delete_delete_eq. done.
Qed.


Lemma replace_same (c : ascii) (s : str) : replace c c s = s.
Proof.
  unfold replace. induction s as [|x s IH]; [done|].
  rewrite fmap_cons, IH. by case_decide; subst.
Qed.

(** C1, as the code has it: the paths in [changed] are the absolute
    paths the files were moved to, and the path a row of RECORD is
    looked up under is the relative path from [lib_dir]. So the row of a
    file that is in [changed] is written with the hash and the length
    that the RECORD of the archive had for it. *)
Theorem changed_row_keeps_archive_hash (st : state)
    (srcfile destfile out h l : str) (more : list str) :
  isabs destfile = true →
  isabs (make_path_relative destfile lib_dir) = false →
  (∀ p, p ∈ changed st → isabs p = true) →
  let oldpath := normpath srcfile wheeldir in
  let newpath := normpath destfile lib_dir in
  ∃ st1 st2,
    record_installed srcfile destfile true st = (inr tt, st1)
    ∧ destfile ∈ changed st1
    ∧ rewrite_row out (oldpath :: h :: l :: more) st1 = (inr tt, st2)
    ∧ fs st2 !! out
      = Some (default [] (fs st !! out)
              ++ csv_writerow (newpath :: h :: l :: more)).
Proof.
  clear csv_reader. intros Habs Hrel Hchanged oldpath newpath.
  set (st1 := set_changed (λ c, {[destfile]} ∪ c)
                (set_installed (λ m, <[oldpath := newpath]> m) st)).
  assert (installed st1 !! oldpath = Some newpath) as Hlook
    by apply lookup_insert_eq.
  assert (newpath ∉ changed st1) as Hnotin.
  { simpl. intros Hin.
    assert (isabs newpath = true) as Hnew.
    { apply elem_of_union in Hin as [Hin|Hin].
      - apply elem_of_singleton in Hin. by rewrite Hin.
      - by apply Hchanged. }
    subst newpath. unfold Install.normpath in Hnew.
    change "/"%char with sep in Hnew. rewrite replace_same in Hnew.
    congruence. }
  exists st1. eexists. split; [reflexivity|]. split; [set_solver|].
  unfold Install.rewrite_row. unfold bnd at 1, get at 1. cbv beta iota.
  rewrite Hlook. simpl default. erewrite bnd_inr by reflexivity.
  rewrite decide_False by exact Hnotin.
  split; [reflexivity|]. simpl. by rewrite lookup_insert_eq.
Qed.
End RecordFacts.

(** A script of the wheel that starts with [#!python]: [fix_script]
    rewrites it, [record_installed] puts the path it was moved to in
    [changed], and its row in the new RECORD still has the hash and the
    length of the archive. *)
Lemma changed_row_keeps_archive_hash_witness :
  let script := py "#!python" ++ ["010"] ++ py "print(1)" ++ ["010"] in
  let record_in :=
    Install.plain_writerow
      [py "foo-1.0.data/scripts/run"; py "sha256=OLD"; py "18"] in
  let files : gmap str str :=
    {[ py "/tmp/w/foo-1.0.data/scripts/run" := script;
       py "/env/lib/foo-1.0.dist-info/RECORD" := record_in ]} in
  let st := Install.set_info_dir (λ _, [py "/env/lib/foo-1.0.dist-info"])
              (Install.initial files) in
  let install :=
    Exec.bnd
      (Install.clobber Install.relative_to (py "foo") (py "/tmp/w")
         (py "/env/lib")
         [(py "/tmp/w/foo-1.0.data/scripts", [], [py "run"])]
         (py "/tmp/w/foo-1.0.data/scripts") (py "/env/bin") false
         (Some (Install.fix_script (py "/usr/bin/python") ["010"])) None)
      (λ _, Install.rewrite_record Hasher.toy_hashlib Install.plain_reader
              Install.plain_writerow Install.gmap_order) in
  (∃ st1 st2,
     Install.record_installed Install.relative_to (py "/tmp/w")
       (py "/env/lib") (py "/tmp/w/foo-1.0.data/scripts/run")
       (py "/env/bin/run") true st = (inr tt, st1)
     ∧ py "/env/bin/run" ∈ Install.changed st1
     ∧ Install.rewrite_row Hasher.toy_hashlib Install.plain_writerow
         (py "/out")
         [py "foo-1.0.data/scripts/run"; py "sha256=OLD"; py "18"] st1
       = (inr tt, st2)
     ∧ Install.fs st2 !! py "/out"
       = Some (Install.plain_writerow
                 [py "../bin/run"; py "sha256=OLD"; py "18"]))
  ∧ (install st).1 = inr tt
  ∧ Install.fs (install st).2 !! py "/env/bin/run"
    = Some (py "#!/usr/bin/python" ++ ["010"] ++ py "print(1)" ++ ["010"])
  ∧ bool_decide (py "/env/bin/run" ∈ Install.changed (install st).2) = true
  ∧ Install.fs (install st).2 !! py "/env/lib/foo-1.0.dist-info/RECORD"
    = Some (Install.plain_writerow
              [py "../bin/run"; py "sha256=OLD"; py "18"]).
Proof.
  intros script record_in files st install. split.
  - destruct (changed_row_keeps_archive_hash Hasher.toy_hashlib
                Install.relative_to Install.plain_writerow (py "/tmp/w")
                (py "/env/lib") st (py "/tmp/w/foo-1.0.data/scripts/run")
                (py "/env/bin/run") (py "/out") (py "sha256=OLD") (py "18") [])
      as (st1 & st2 & H1 & H2 & H3 & H4).
    + reflexivity.
    + reflexivity.
    + intros p Hp. vm_compute in Hp. discriminate Hp.
    + exists st1, st2. split; [exact H1|]. split; [exact H2|].
      split; [exact H3|]. exact H4.
  - vm_compute. repeat split.
Defined.


(** ** Installing a wheel: the launchers *)

Section ScriptFacts.
Import Re Install.
Context (make : str → bool → list str) (sys_version : str).

#[local] Abbreviation make_multiple := (make_multiple make).
#[local] Abbreviation generate_scripts := (generate_scripts make sys_version).

Lemma foldl_delete_lookup (eps : list str) (m : gmap str str) (k : str) :
  foldl (λ m k, delete k m) m eps !! k
  = if decide (k ∈ eps) then None else m !! k.
Proof.
  revert m. induction eps as [|e eps IH]; intros m; cbn [foldl].
  - by rewrite decide_False by apply not_elem_of_nil.
  - rewrite IH. destruct (decide (k = e)) as [->|Hne].
    + rewrite lookup_delete_eq. rewrite (decide_True (P:=e ∈ e :: eps)).
      * by case_decide.
      * left.
    + rewrite lookup_delete_ne by done.
      destruct (decide (k ∈ eps)) as [Hin|Hnin].
      * rewrite decide_True; [done|by right].
      * rewrite decide_False; [done|].
        intros Hin. apply elem_of_cons in Hin as [?|?]; done.
Qed.

(** What [del_matching] leaves of a dictionary. *)
Lemma del_matching_lookup (r : regex) (m : gmap str str) (k : str) :
  del_matching r m !! k = if matches r k then None else m !! k.
Proof.
  unfold del_matching. rewrite foldl_delete_lookup.
  destruct (matches r k) eqn:Hk.
  - case_decide as Hin; [done|].
    destruct (m !! k) as [v|] eqn:Hv; [|done]. exfalso. apply Hin.
    apply list_elem_of_filter. split; [done|].
    apply list_elem_of_fmap. exists (k, v). split; [done|].
    by apply elem_of_map_to_list.
  - rewrite decide_False; [done|]. intros Hin.
    apply list_elem_of_filter in Hin as [Hin _]. congruence.
Qed.

Lemma make_multiple_guard (m : gmap str str) (gui : bool) :
  (if (0 <? size m)%nat
   then make_multiple ((λ kv, spec_of kv.1 kv.2) <$> map_to_list m) gui
   else [])
  = make_multiple ((λ kv, spec_of kv.1 kv.2) <$> map_to_list m) gui.
Proof.
  destruct (Nat.ltb_spec 0 (size m)) as [|Hsz]; [done|].
  assert (m = ∅) as -> by (apply map_size_empty_iff; lia).
  by rewrite map_to_list_empty.
Qed.

End ScriptFacts.


(** [pip] gets its three launchers, and the versioned entry point of the
    wheel is dropped. *)
Example pip_gets_three_launchers :
  Install.generate_scripts (λ spec _, [spec]) (py "2.7.5 (default)")
    {[ py "pip" := py "pip:main"; py "pip3.3" := py "pip:main";
       py "tool" := py "tool:main" ]} ∅
  = [py "pip = pip:main"; py "pip2 = pip:main"; py "pip2.7 = pip:main";
     py "tool = tool:main"].
Proof. vm_compute. reflexivity. Qed.

(** ** The matcher *)

Section MatcherFacts.
Import Re.

(** The equations of the matcher that the proofs below unfold with. *)
Lemma rmatch_Cat (r1 r2 : regex) (s : str) (c : caps)
    (k : str → caps → option caps) :
  rmatch (Cat r1 r2) s c k = rmatch r1 s c (λ s' c', rmatch r2 s' c' k).
Proof. done. Qed.

Lemma rmatch_Chr (a x : ascii) (s : str) (c : caps)
    (k : str → caps → option caps) :
  rmatch (Chr a) (x :: s) c k = if Ascii.eqb x a then k s c else None.
Proof. done. Qed.

Lemma rmatch_Chr_Some (a : ascii) (s : str) (c m : caps)
    (k : str → caps → option caps) :
  rmatch (Chr a) s c k = Some m → ∃ s', s = a :: s' ∧ k s' c = Some m.
Proof.
  destruct s as [|x s]; [done|]. simpl.
  destruct (Ascii.eqb_spec x a) as [->|]; [|done]. eauto.
Qed.

Lemma rmatch_Alt (r1 r2 : regex) (s : str) (c : caps)
    (k : str → caps → option caps) :
  rmatch (Alt r1 r2) s c k
  = match rmatch r1 s c k with
    | Some m => Some m
    | None => rmatch r2 s c k
    end.
Proof. done. Qed.

Lemma rmatch_Opt (r : regex) (s : str) (c : caps)
    (k : str → caps → option caps) :
  rmatch (Opt r) s c k
  = match rmatch r s c k with
    | Some m => Some m
    | None => k s c
    end.
Proof. done. Qed.

Lemma rmatch_Grp (g : str) (r : regex) (s : str) (c : caps)
    (k : str → caps → option caps) :
  rmatch (Grp g r) s c k
  = rmatch r s c
      (λ s' c', k s' (<[g := take (length s - length s') s]> c')).
Proof. done. Qed.

(** A lazy loop that finds its continuation failing inside a run of
    characters and succeeding right after it stops there. *)
Lemma lazy_loop_hit (p : ascii → bool) (k : str → caps → option caps)
    (seg rest : str) (c m : caps) :
  Forall (λ x, p x = true) seg →
  (∀ a b, seg = a ++ b → b ≠ [] → k (b ++ rest) c = None) →
  k rest c = Some m →
  lazy_loop p k (seg ++ rest) c = Some m.
Proof.
  intros Hp. induction Hp as [|x seg Hx Hp IH]; intros Hmid Hend.
  - simpl. destruct rest; simpl; by rewrite Hend.
  - pose proof (Hmid [] (x :: seg) eq_refl ltac:(done)) as Hhere.
    simpl in *. rewrite Hhere, Hx.
    apply IH; [|done]. intros a b -> Hb. by apply (Hmid (x :: a) b).
Qed.

(** Whatever a pattern does, it calls its continuation on what is left
    of the string only. *)
Lemma lazy_loop_suffix (p : ascii → bool) (k : str → caps → option caps)
    (s : str) (c m : caps) :
  lazy_loop p k s c = Some m → ∃ t, t `suffix_of` s ∧ k t c = Some m.
Proof.
  induction s as [|x s IH]; simpl.
  - destruct (k [] c) eqn:Hk; [|done]. intros [= <-]. by exists [].
  - destruct (k (x :: s) c) eqn:Hk.
    + intros [= <-]. by exists (x :: s).
    + destruct (p x); [|done]. intros H.
      destruct (IH H) as (t & Ht & Hm). exists t. split; [|done].
      by apply suffix_cons_r.
Qed.

Lemma rmatch_suffix (r : regex) (s : str) (c m : caps)
    (k : str → caps → option caps) :
  rmatch r s c k = Some m →
  ∃ t c', t `suffix_of` s ∧ k t c' = Some m.
Proof.
  revert s c k. induction r as [|a|p|r1 IH1 r2 IH2|r1 IH1 r2 IH2|r IH|p|p|g r IH|];
    intros s c k; simpl.
  - intros H. by exists s, c.
  - destruct s as [|x s]; [done|]. destruct (Ascii.eqb x a); [|done].
    intros H. exists s, c. split; [by apply suffix_cons_r|done].
  - destruct s as [|x s]; [done|]. destruct (p x); [|done].
    intros H. exists s, c. split; [by apply suffix_cons_r|done].
  - intros H. apply IH1 in H as (t1 & c1 & Ht1 & H).
    apply IH2 in H as (t2 & c2 & Ht2 & H). exists t2, c2.
    split; [by etrans|done].
  - destruct (rmatch r1 s c k) eqn:H1.
    + intros [= <-]. by apply IH1 in H1.
    + apply IH2.
  - destruct (rmatch r s c k) eqn:H1.
    + intros [= <-]. by apply IH in H1.
    + intros H. by exists s, c.
  - intros H. apply lazy_loop_suffix in H as (t & Ht & H). by exists t, c.
  - destruct s as [|x s]; [done|]. destruct (p x); [|done].
    intros H. apply lazy_loop_suffix in H as (t & Ht & H). exists t, c.
    split; [by apply suffix_cons_r|done].
  - intros H. apply IH in H as (t & c' & Ht & H). eauto.
  - destruct s as [|x [|y s]]; [by exists [], c| |done].
    destruct (Ascii.eqb x "010"); [|done]. by exists [x], c.
Qed.

(** A literal word. *)
Lemma rmatch_word (w s : str) (c : caps) (k : str → caps → option caps) :
  rmatch (foldr (λ a r, Cat (Chr a) r) Eps w) (w ++ s) c k = k s c.
Proof.
  induction w as [|a w IH]; [done|]. simpl. by rewrite Ascii.eqb_refl.
Qed.

Lemma rmatch_word_Some (w s : str) (c m : caps)
    (k : str → caps → option caps) :
  rmatch (foldr (λ a r, Cat (Chr a) r) Eps w) s c k = Some m →
  ∃ s', s = w ++ s' ∧ k s' c = Some m.
Proof.
  revert s. induction w as [|a w IH]; intros s; simpl.
  - intros H. by exists s.
  - destruct s as [|x s]; [done|].
    destruct (Ascii.eqb_spec x a) as [->|]; [|done].
    intros H. apply IH in H as (s' & -> & H). by exists s'.
Qed.

Lemma rmatch_Eos_Some (s : str) (c m : caps)
    (k : str → caps → option caps) :
  rmatch Eos s c k = Some m → s = [] ∨ s = ["010"].
Proof.
  simpl. destruct s as [|x [|y s]]; [by left| |done].
  destruct (Ascii.eqb_spec x "010") as [->|]; [by right|done].
Qed.

(** A group that takes its lazy run of characters to the end of a part
    [seg] of the string, after a few characters [pre] it had to
    take. *)
Lemma lazy_group (g pre seg rest : str) (c m : caps)
    (k : str → caps → option caps) :
  Forall (λ x, dot x = true) seg →
  (∀ a b c', seg = a ++ b → b ≠ [] → k (b ++ rest) c' = None) →
  k rest (<[g := pre ++ seg]> c) = Some m →
  lazy_loop dot
    (λ s' c', k s' (<[g := take (length (pre ++ seg ++ rest) - length s')
                                (pre ++ seg ++ rest)]> c'))
    (seg ++ rest) c = Some m.
Proof.
  intros Hdot Hmid Hend. apply lazy_loop_hit; [done|..].
  - intros a b -> Hb. by eapply Hmid.
  - replace (length (pre ++ seg ++ rest) - length rest)
      with (length (pre ++ seg)) by (rewrite !length_app; lia).
    by rewrite (assoc_L (++)), take_app_length.
Qed.
End MatcherFacts.

(** ** The names of the versioned launchers *)

Section PatternFacts.
Import Re Install.

Lemma eos_tail (s : str) :
  is_Some (rmatch Eos s ∅ (λ _ c, Some c)) ↔ s = [] ∨ s = ["010"].
Proof.
  split.
  - intros [m H]. by apply rmatch_Eos_Some in H.
  - intros [->| ->]; by eexists.
Qed.

(** The names [pip(\d(\.\d)?)?$] matches: [pip], [pip] and a digit, [pip]
    and two digits with a dot between them, each with or without a line
    end after it. *)
Lemma matches_pip_ep (k : str) :
  matches pip_ep_re k = true ↔
  ∃ v nl, k = py "pip" ++ v ++ nl ∧ (nl = [] ∨ nl = ["010"])
          ∧ (v = []
             ∨ ∃ d, digit d = true
                    ∧ (v = [d] ∨ ∃ d', digit d' = true ∧ v = [d; "."; d'])).
Proof.
  unfold matches. rewrite bool_decide_eq_true. unfold re_match, pip_ep_re.
  rewrite rmatch_Cat. split.
  - intros [m H]. apply rmatch_word_Some in H as (s & -> & H).
    rewrite rmatch_Cat, rmatch_Opt in H.
    destruct (rmatch (Cat (Cls digit) _) s ∅ _) as [m'|] eqn:Hopt.
    + (* a version *)
      clear H. rewrite rmatch_Cat in Hopt.
      destruct s as [|d s]; [done|]. simpl in Hopt.
      destruct (digit d) eqn:Hd; [|done].
      destruct s as [|x s].
      { exists [d], []. split_and!; [done|by left|]. right. eauto. }
      destruct (Ascii.eqb_spec x ".") as [->|Hx].
      * destruct s as [|d' s]; [done|].
        destruct (digit d') eqn:Hd'.
        -- destruct s as [|y [|z s]].
           ++ exists [d; "."; d'], []. split_and!; [done|by left|].
              right. exists d. split; [done|]. right. eauto.
           ++ destruct (Ascii.eqb_spec y "010") as [->|]; [|done].
              exists [d; "."; d'], ["010"]. split_and!; [done|by right|].
              right. exists d. split; [done|]. right. eauto.
           ++ done.
        -- destruct s; done.
      * destruct s as [|y s]; [|done].
        destruct (Ascii.eqb_spec x "010") as [->|]; [|done].
        exists [d], ["010"]. split_and!; [done|by right|]. right. eauto.
    + (* no version *)
      assert (is_Some (rmatch Eos s ∅ (λ _ c, Some c))) as Hs by eauto.
      apply eos_tail in Hs. exists [], s. split_and!; [done|done|by left].
  - intros (v & nl & -> & Hnl & Hv).
    unfold Lit. rewrite rmatch_word, rmatch_Cat, rmatch_Opt.
    destruct Hv as [->|(d & Hd & [->|(d' & Hd' & ->)])];
      destruct Hnl as [->| ->]; simpl; rewrite ?Hd, ?Hd'; simpl; eauto.
Qed.

(** The names [easy_install(-\d\.\d)?$] matches: [easy_install], alone or
    with [-], a digit, a dot and a digit after it, each with or without a
    line end at the end. *)
Lemma matches_easy_install_ep (k : str) :
  matches easy_install_ep_re k = true ↔
  ∃ v nl, k = py "easy_install" ++ v ++ nl ∧ (nl = [] ∨ nl = ["010"])
          ∧ (v = []
             ∨ ∃ d d', digit d = true ∧ digit d' = true
                       ∧ v = ["-"; d; "."; d']).
Proof.
  unfold matches. rewrite bool_decide_eq_true.
  unfold re_match, easy_install_ep_re. rewrite rmatch_Cat. split.
  - intros [m H]. apply rmatch_word_Some in H as (s & -> & H).
    rewrite rmatch_Cat, rmatch_Opt in H.
    destruct (rmatch (Cat (Chr "-") _) s ∅ _) as [m'|] eqn:Hopt.
    + (* a version *)
      clear H. rewrite rmatch_Cat in Hopt.
      apply rmatch_Chr_Some in Hopt as (s1 & -> & Hopt).
      destruct s1 as [|d [|x [|d' s]]]; simpl in Hopt; [done| |..].
      * by destruct (digit d).
      * destruct (digit d); [|done]. by destruct (Ascii.eqb x ".").
      * destruct (digit d) eqn:Hd; [|done].
        destruct (Ascii.eqb_spec x ".") as [->|]; [|done].
        destruct (digit d') eqn:Hd'; [|done].
        assert (is_Some (rmatch Eos s ∅ (λ _ c, Some c))) as Hs by eauto.
        apply eos_tail in Hs. exists ["-"; d; "."; d'], s.
        split_and!; [done|done|]. right. eauto.
    + (* no version *)
      assert (is_Some (rmatch Eos s ∅ (λ _ c, Some c))) as Hs by eauto.
      apply eos_tail in Hs. exists [], s. split_and!; [done|done|by left].
  - intros (v & nl & -> & Hnl & Hv).
    unfold Lit. rewrite rmatch_word, rmatch_Cat, rmatch_Opt.
    destruct Hv as [->|(d & d' & Hd & Hd' & ->)];
      destruct Hnl as [->| ->]; simpl; rewrite ?Hd, ?Hd'; simpl; eauto.
Qed.
End PatternFacts.


(** ** Archive identity *)

Section WheelFacts.
Import Re WheelFile.

#[local] Abbreviation K0 := (λ (_ : str) (c : caps), Some c).
#[local] Abbreviation kE := (λ (s : str) (c : caps), rmatch Eos s c K0).

Lemma hyphens_app (s t : str) : hyphens (s ++ t) = hyphens s + hyphens t.
Proof. apply count_occ_app. Qed.

Lemma hyphens_suffix (t s : str) : t `suffix_of` s → hyphens t ≤ hyphens s.
Proof. intros [k ->]. rewrite hyphens_app. lia. Qed.

Lemma hyphens_cons (x : ascii) (s : str) :
  hyphens (x :: s) = (if decide (x = "-") then 1 else 0) + hyphens s.
Proof.
  unfold hyphens. simpl. destruct (ascii_dec x "-"); by case_decide.
Qed.

Lemma hyphens_segment (s : str) :
  Forall (λ c, c ≠ "-" ∧ dot c = true) s → hyphens s = 0.
Proof.
  induction 1 as [|x s [Hx _] _ IH]; [done|].
  rewrite hyphens_cons, IH. by rewrite decide_False.
Qed.

Lemma segment_dot (s : str) :
  Forall (λ c, c ≠ "-" ∧ dot c = true) s → Forall (λ x, dot x = true) s.
Proof. apply List.Forall_impl. by intros x [_ ?]. Qed.

Lemma segment_tail (s a b : str) :
  Forall (λ c, c ≠ "-" ∧ dot c = true) s → s = a ++ b → b ≠ [] →
  ∃ x b', b = x :: b' ∧ x ≠ "-".
Proof.
  intros Hs -> Hb. apply list.Forall_app in Hs as [_ Hs].
  destruct Hs as [|x b' [Hx _] _]; [done|]. eauto.
Qed.

Lemma rmatch_hyphen_head (r : regex) (x : ascii) (s : str) (c : caps)
    (k : str → caps → option caps) :
  x ≠ "-" → rmatch (Cat (Chr "-") r) (x :: s) c k = None.
Proof.
  intros Hx. simpl. by destruct (Ascii.eqb_spec x "-").
Qed.

(** A part of the name that a group with a lazy [.+?] takes whole: the
    rest of the pattern fails when it starts inside the part. *)
Lemma group_segment (g seg rest : str) (c m : caps)
    (k : str → caps → option caps) :
  segment seg →
  (∀ x b c', x ≠ "-" → k (x :: b ++ rest) c' = None) →
  k rest (<[g := seg]> c) = Some m →
  rmatch (Grp g (LazyPlus dot)) (seg ++ rest) c k = Some m.
Proof.
  intros [Hne Hseg] Hmid Hend. destruct seg as [|x seg]; [done|].
  apply list.Forall_cons in Hseg as [[_ Hx] Hseg]. cbn [rmatch app].
  rewrite Hx. apply (lazy_group g [x] seg rest); [by apply segment_dot| |done].
  intros a b c' Hab Hb.
  destruct (segment_tail seg a b Hseg Hab Hb) as (y & b' & -> & Hy).
  by apply Hmid.
Qed.

(** The version: a digit, one more character, and a lazy run. *)
Lemma group_version (g seg rest : str) (c m : caps)
    (k : str → caps → option caps) :
  version_segment seg →
  (∀ x b c', x ≠ "-" → k (x :: b ++ rest) c' = None) →
  k rest (<[g := seg]> c) = Some m →
  rmatch (Grp g (Cat (Cls digit) (LazyPlus dot))) (seg ++ rest) c k = Some m.
Proof.
  intros [[_ Hseg] (d & v & -> & Hd & Hv)] Hmid Hend.
  destruct v as [|v1 v]; [done|].
  apply list.Forall_cons in Hseg as [_ Hseg].
  apply list.Forall_cons in Hseg as [[_ Hv1] Hseg]. cbn [rmatch app].
  rewrite Hd, Hv1.
  apply (lazy_group g [d; v1] v rest); [by apply segment_dot| |done].
  intros a b c' Hab Hb.
  destruct (segment_tail v a b Hseg Hab Hb) as (y & b' & -> & Hy).
  by apply Hmid.
Qed.

(** The build: a digit and a lazy run. *)
Lemma group_build (g seg rest : str) (c m : caps)
    (k : str → caps → option caps) :
  build_segment seg →
  (∀ x b c', x ≠ "-" → k (x :: b ++ rest) c' = None) →
  k rest (<[g := seg]> c) = Some m →
  rmatch (Grp g (Cat (Cls digit) (LazyStar dot))) (seg ++ rest) c k = Some m.
Proof.
  intros [[_ Hseg] (d & v & -> & Hd)] Hmid Hend.
  apply list.Forall_cons in Hseg as [_ Hseg]. cbn [rmatch app].
  rewrite Hd.
  apply (lazy_group g [d] v rest); [by apply segment_dot| |done].
  intros a b c' Hab Hb.
  destruct (segment_tail v a b Hseg Hab Hb) as (y & b' & -> & Hy).
  by apply Hmid.
Qed.

(** The three tags need three hyphens. *)
Lemma re_tags_none (s : str) (c : caps) (k : str → caps → option caps) :
  hyphens s < 3 → rmatch re_tags s c k = None.
Proof.
  intros Hs. destruct (rmatch re_tags s c k) as [m|] eqn:H; [|done].
  exfalso. unfold re_tags in H. rewrite rmatch_Cat in H.
  apply rmatch_Chr_Some in H as (s1 & -> & H).
  rewrite hyphens_cons, decide_True in Hs by done.
  rewrite rmatch_Cat in H.
  apply rmatch_suffix in H as (t1 & c1 & Ht1 & H).
  apply hyphens_suffix in Ht1. rewrite rmatch_Cat in H.
  apply rmatch_Chr_Some in H as (s2 & -> & H).
  rewrite hyphens_cons, decide_True in Ht1 by done.
  rewrite rmatch_Cat in H.
  apply rmatch_suffix in H as (t2 & c2 & Ht2 & H).
  apply hyphens_suffix in Ht2. rewrite rmatch_Cat in H.
  apply rmatch_Chr_Some in H as (s3 & -> & H).
  rewrite hyphens_cons, decide_True in Ht2 by done. lia.
Qed.

(** [\.dist-info$] has one hyphen. *)
Lemma dist_info_none (s : str) (c : caps) :
  2 ≤ hyphens s → rmatch (Lit ".dist-info") s c kE = None.
Proof.
  intros Hs. destruct (rmatch _ s c kE) as [m|] eqn:H; [|done].
  exfalso. apply rmatch_word_Some in H as (s' & -> & H).
  assert (hyphens (py ".dist-info") = 1) as H1 by done.
  assert (hyphens (py ".dist-info" ++ ["010"]) = 1) as H2 by done.
  apply rmatch_Eos_Some in H as [->| ->].
  - rewrite app_nil_r, H1 in Hs. lia.
  - rewrite H2 in Hs. lia.
Qed.

Lemma rmatch_Lit_end (w : string) (c : caps) :
  rmatch (Lit w) (py w) c kE = Some c.
Proof.
  unfold Lit. pose proof (rmatch_word (py w) [] c kE) as H.
  by rewrite app_nil_r in H.
Qed.

(** The tags of a wheel name. *)
Lemma re_tags_match (pyver abi plat : str) (c : caps) :
  segment pyver → segment abi → segment plat →
  rmatch re_tags (tags_name pyver abi plat) c kE
  = Some (<[py "plat" := plat]>
            (<[py "abi" := abi]> (<[py "pyver" := pyver]> c))).
Proof.
  intros Hpy Habi Hplat. unfold re_tags, tags_name.
  rewrite rmatch_Cat, rmatch_Chr, Ascii.eqb_refl, rmatch_Cat.
  apply group_segment; [done|..].
  { intros x b c' Hx. by apply rmatch_hyphen_head. }
  rewrite rmatch_Cat, rmatch_Chr, Ascii.eqb_refl, rmatch_Cat.
  apply group_segment; [done|..].
  { intros x b c' Hx. by apply rmatch_hyphen_head. }
  rewrite rmatch_Cat, rmatch_Chr, Ascii.eqb_refl, rmatch_Cat.
  apply group_segment; [done|..].
  - intros x b c' Hx.
    destruct (rmatch (Lit ".whl") (x :: b ++ py ".whl") c' kE) as [m|] eqn:H;
      [|done].
    exfalso. apply rmatch_word_Some in H as (s' & Heq & H).
    apply rmatch_Eos_Some in H.
    assert (length s' = S (length b)) as Hlen.
    { apply (f_equal length) in Heq. cbn [length] in Heq.
      rewrite !length_app in Heq.
      change (length (py ".whl")) with 4 in Heq. lia. }
    destruct H as [->| ->]; [done|].
    change (x :: b ++ py ".whl")
      with ((x :: b) ++ py ".wh" ++ ["l"]) in Heq.
    rewrite (assoc_L (++)) in Heq.
    by apply app_inj_tail in Heq as [_ ?].
  - apply rmatch_Lit_end.
Qed.

Lemma hyphens_tags_name (pyver abi plat : str) :
  segment pyver → segment abi → segment plat →
  hyphens (tags_name pyver abi plat) = 3.
Proof.
  intros [_ Hpy] [_ Habi] [_ Hplat]. unfold tags_name.
  repeat first [rewrite hyphens_cons | rewrite hyphens_app].
  rewrite !hyphens_segment by done. by rewrite !decide_True by done.
Qed.

(** The optional build and the tags. *)
Lemma build_tags_match (build : option str) (pyver abi plat : str)
    (c : caps) :
  from_option build_segment True build →
  segment pyver → segment abi → segment plat →
  rmatch (Cat (Opt re_build) re_tags)
    (build_name build ++ tags_name pyver abi plat) c kE
  = Some (tail_caps build pyver abi plat c).
Proof.
  intros Hbuild Hpy Habi Hplat. rewrite rmatch_Cat, rmatch_Opt.
  destruct build as [b|]; simpl in Hbuild; unfold build_name, tail_caps.
  - (* with a build: the group takes it whole *)
    unfold re_build at 1. rewrite rmatch_Cat. cbn [app].
    rewrite rmatch_Chr, Ascii.eqb_refl.
    rewrite (group_build _ b _ c
               (tail_caps (Some b) pyver abi plat c)); [done|done|..].
    + intros x t c' Hx. unfold re_tags. by apply rmatch_hyphen_head.
    + by apply re_tags_match.
  - (* without: the build fails wherever it stops, for want of hyphens *)
    cbn [app].
    assert (rmatch re_build (tags_name pyver abi plat) c
              (λ s' c', rmatch re_tags s' c' kE) = None) as ->.
    { destruct (rmatch re_build _ c _) as [m|] eqn:H; [|done]. exfalso.
      pose proof (hyphens_tags_name pyver abi plat Hpy Habi Hplat) as Hh.
      unfold re_build in H. rewrite rmatch_Cat in H.
      apply rmatch_Chr_Some in H as (s1 & Hs1 & H). rewrite Hs1 in Hh.
      rewrite hyphens_cons, decide_True in Hh by done.
      apply rmatch_suffix in H as (t & c' & Ht & H).
      apply hyphens_suffix in Ht.
      rewrite re_tags_none in H by lia. done. }
    by apply re_tags_match.
Qed.

Lemma re_tail_match (build : option str) (pyver abi plat : str)
    (c : caps) :
  from_option build_segment True build →
  segment pyver → segment abi → segment plat →
  rmatch re_tail (build_name build ++ tags_name pyver abi plat) c K0
  = Some (tail_caps build pyver abi plat c).
Proof.
  intros Hbuild Hpy Habi Hplat. unfold re_tail.
  rewrite rmatch_Cat, rmatch_Alt.
  by rewrite build_tags_match.
Qed.

(** What comes after [namever] fails in front of a character that is no
    hyphen when two hyphens or more are still to come. *)
Lemma re_tail_none (x : ascii) (s : str) (c : caps) :
  x ≠ "-" → 2 ≤ hyphens (x :: s) → rmatch re_tail (x :: s) c K0 = None.
Proof.
  intros Hx Hh. unfold re_tail.
  rewrite rmatch_Cat, rmatch_Alt, rmatch_Cat, rmatch_Opt.
  unfold re_build at 1. rewrite rmatch_hyphen_head by done.
  unfold re_tags at 1. rewrite rmatch_hyphen_head by done.
  by apply dist_info_none.
Qed.

Lemma hyphens_rest (build : option str) (pyver abi plat : str) :
  segment pyver → segment abi → segment plat →
  3 ≤ hyphens (build_name build ++ tags_name pyver abi plat).
Proof.
  intros Hpy Habi Hplat. rewrite hyphens_app, hyphens_tags_name by done.
  lia.
Qed.

(** The pattern on a wheel name: it matches, and every group holds its
    part of the name. *)
Lemma wheel_file_re_match (name ver : str) (build : option str)
    (pyver abi plat : str) :
  segment name → version_segment ver →
  from_option build_segment True build →
  segment pyver → segment abi → segment plat →
  re_match wheel_file_re (wheel_filename name ver build pyver abi plat)
  = Some (wheel_caps name ver build pyver abi plat).
Proof.
  intros Hname Hver Hbuild Hpy Habi Hplat.
  pose proof (hyphens_rest build pyver abi plat Hpy Habi Hplat) as Hrest.
  set (rest := build_name build ++ tags_name pyver abi plat) in *.
  unfold re_match, wheel_file_re, wheel_filename. fold rest.
  rewrite rmatch_Cat, rmatch_Grp, rmatch_Cat.
  apply group_segment; [done|..].
  - (* inside the name: no version, no tail *)
    intros x b c' Hx. rewrite rmatch_Opt.
    unfold re_ver at 1. rewrite rmatch_hyphen_head by done.
    apply re_tail_none; [done|].
    rewrite hyphens_cons, !hyphens_app, hyphens_cons, hyphens_app. lia.
  - (* after the name: the version *)
    rewrite rmatch_Opt. unfold re_ver at 1. rewrite rmatch_Cat.
    rewrite rmatch_Chr, Ascii.eqb_refl.
    rewrite (group_version _ ver rest _
               (wheel_caps name ver build pyver abi plat)); [done|done|..].
    + (* inside the version: no tail *)
      intros x b c' Hx. apply re_tail_none; [done|].
      rewrite hyphens_cons, hyphens_app. lia.
    + (* after the version: the tail *)
      replace (length (name ++ "-" :: ver ++ rest) - length rest)
        with (length (name ++ "-" :: ver))
        by (rewrite !length_app; simpl; rewrite !length_app; lia).
      replace (name ++ "-" :: ver ++ rest)
        with ((name ++ "-" :: ver) ++ rest)
        by (by rewrite <- (assoc_L (++))).
      rewrite take_app_length. by apply re_tail_match.
Qed.

Lemma py_key_ne (a b : string) (c : caps) (v : str) :
  py a ≠ py b → <[py a := v]> c !! py b = c !! py b.
Proof. intros Hne. by rewrite lookup_insert_ne. Qed.

Ltac key_ne := apply py_key_ne; intros Hkey; vm_compute in Hkey;
               discriminate Hkey.

Lemma wheel_caps_groups (name ver : str) (build : option str)
    (pyver abi plat : str) :
  let m := wheel_caps name ver build pyver abi plat in
  group m "name" = Some name ∧ group m "ver" = Some ver
  ∧ group m "pyver" = Some pyver ∧ group m "abi" = Some abi
  ∧ group m "plat" = Some plat.
Proof.
  intros m. subst m. unfold group, wheel_caps, tail_caps.
  split_and!.
  - do 3 (etrans; [key_ne|]). destruct build.
    + do 3 (etrans; [key_ne|]). apply lookup_insert_eq.
    + do 2 (etrans; [key_ne|]). apply lookup_insert_eq.
  - do 3 (etrans; [key_ne|]). destruct build.
    + do 2 (etrans; [key_ne|]). apply lookup_insert_eq.
    + do 1 (etrans; [key_ne|]). apply lookup_insert_eq.
  - do 2 (etrans; [key_ne|]). apply lookup_insert_eq.
  - do 1 (etrans; [key_ne|]). apply lookup_insert_eq.
  - apply lookup_insert_eq.
Qed.

(** C2, amended: for every wheel file name
    [{name}-{version}(-{build})?-{pytag}-{abitag}-{platformtag}.whl]
    whose parts have no hyphen and no line end in them, with a version
    of two characters or more that starts with a digit and a build that
    starts with a digit, [Wheel.__init__] succeeds; the name and the
    version are the parts with every underscore turned into a hyphen,
    and the three tag lists are the tag parts split at the dots. *)
Theorem Wheel_init_whl (name ver : str) (build : option str)
    (pyver abi plat : str) :
  segment name → version_segment ver →
  from_option build_segment True build →
  segment pyver → segment abi → segment plat →
  Wheel_init (wheel_filename name ver build pyver abi plat)
  = inr {| filename := wheel_filename name ver build pyver abi plat;
           WheelFile.name := replace "_" "-" name;
           version := replace "_" "-" ver;
           pyversions := split "." pyver;
           abis := split "." abi;
           plats := split "." plat;
           file_tags :=
             list_to_set
               (x ← split "." pyver; y ← split "." abi;
                z ← split "." plat; [(x, y, z)]) |}.
Proof.
  intros Hname Hver Hbuild Hpy Habi Hplat. unfold Wheel_init.
  rewrite wheel_file_re_match by done.
  destruct (wheel_caps_groups name ver build pyver abi plat)
    as (-> & -> & -> & -> & ->).
  done.
Qed.
End WheelFacts.

(** A wheel of [foo_bar] for two Python versions, with a build number. *)
Lemma Wheel_init_whl_witness :
  ∃ w,
    WheelFile.Wheel_init (py "foo_bar-1.0_1-2-py2.py3-none-any.whl") = inr w
    ∧ WheelFile.name w = py "foo-bar"
    ∧ WheelFile.version w = py "1.0-1"
    ∧ WheelFile.pyversions w = [py "py2"; py "py3"]
    ∧ WheelFile.abis w = [py "none"]
    ∧ WheelFile.plats w = [py "any"].
Proof.
  eexists. split.
  - apply (Wheel_init_whl (py "foo_bar") (py "1.0_1") (Some (py "2"))
             (py "py2.py3") (py "none") (py "any")).
    + split; [done|]. apply (bool_decide_unpack _). by vm_compute.
    + split; [split; [done|]; apply (bool_decide_unpack _); by vm_compute|].
      by exists "1", (py ".0_1").
    + split; [split; [done|]; apply (bool_decide_unpack _); by vm_compute|].
      by exists "2", [].
    + split; [done|]. apply (bool_decide_unpack _). by vm_compute.
    + split; [done|]. apply (bool_decide_unpack _). by vm_compute.
    + split; [done|]. apply (bool_decide_unpack _). by vm_compute.
  - by vm_compute.
Defined.

(** C2 as stated fails on the metadata directory form: the pattern
    matches, the groups of the tags hold nothing, and the constructor
    raises. *)
Lemma Wheel_init_dist_info_raises :
  (λ m, Re.group m "pyver")
    <$> Re.re_match WheelFile.wheel_file_re
          (WheelFile.dist_info_name (py "foo") (py "1.0")) = Some None
  ∧ WheelFile.Wheel_init (WheelFile.dist_info_name (py "foo") (py "1.0"))
    = inl AttributeError.
Proof. split; by vm_compute. Qed.

(** A version of one character is taken for a build: [\d.+?] needs two
    characters, the group [ver] stays out of the match, and the
    constructor raises as well. *)
Example Wheel_init_short_version_raises :
  (λ m, (Re.group m "ver", Re.group m "build"))
    <$> Re.re_match WheelFile.wheel_file_re (py "foo-1-py3-none-any.whl")
  = Some (None, Some (py "1"))
  ∧ WheelFile.Wheel_init (py "foo-1-py3-none-any.whl") = inl AttributeError.
Proof. split; by vm_compute. Qed.

(** * Further properties *)

(** ** The resolver strategies, further *)

Section StrategyMore.
Import Strategy.
Context {Candidate Requirement : Type}.

(** X1: whatever name a strategy is made for, sorting only reorders: the
    sequence it gives has the candidates it was given, each as often as
    it was given. The index [get_preferred_candidate] gives is never
    beyond the number of candidates; it is the position of a candidate
    exactly for the name ['earliest-compatible'] and a sequence that is
    not empty, and for every other name it is one past the last
    candidate. *)
Theorem strategy_keeps_candidates (name : str)
    (resolution : option Candidate) (candidates : list Candidate)
    (information : list (Requirement * Candidate)) :
  let s := strategy_factory name in
  let i := get_preferred_candidate s resolution candidates information in
  sort_candidates s candidates ≡ₚ candidates
  ∧ i ≤ length candidates
  ∧ (is_Some (candidates !! i)
     ↔ name = py "earliest-compatible" ∧ candidates ≠ []).
Proof.
  unfold strategy_factory. rewrite strategy_table_lookup.
  case_decide as Hname; simpl.
  - split_and!; [done|lia|]. destruct candidates; simpl.
    + split; [by intros [? ?]|by intros [_ ?]].
    + split; [done|by eexists].
  - split_and!; [apply reverse_Permutation|done|].
    split; [|by intros [? _]].
    intros [x Hx]. apply lookup_lt_Some in Hx. lia.
Qed.
End StrategyMore.

Section SupportMore.
Import WheelFile.
Context (supported_tags : list tag).

#[local] Abbreviation support_index_min :=
  (WheelFile.support_index_min supported_tags).
#[local] Abbreviation supported := (WheelFile.supported supported_tags).

Lemma index_lt {A} `{EqDecision A} (c : A) (tags : list A) (i : nat) :
  list_index c tags = Some i → i < length tags.
Proof.
  intros [Hi _]%index_Some. by eapply lookup_lt_Some.
Qed.

Lemma index_app_l {A} `{EqDecision A} (c : A) (tags more : list A) (i : nat) :
  list_index c tags = Some i → list_index c (tags ++ more) = Some i.
Proof.
  intros Hi. pose proof (index_lt _ _ _ Hi) as Hlt.
  apply index_Some in Hi as [Hi Hb]. apply index_Some. split.
  - by rewrite lookup_app_l.
  - intros j Hj. rewrite lookup_app_l by lia. by apply Hb.
Qed.

Lemma index_app_inv {A} `{EqDecision A} (c : A) (tags more : list A)
    (j : nat) :
  list_index c (tags ++ more) = Some j → j < length tags →
  list_index c tags = Some j.
Proof.
  intros Hj Hlt. apply index_Some in Hj as [Hj Hb]. apply index_Some.
  rewrite lookup_app_l in Hj by done. split; [done|].
  intros k Hk. specialize (Hb k Hk). by rewrite lookup_app_l in Hb by lia.
Qed.

(** X2: the two methods agree. A wheel is [supported] exactly when
    [support_index_min] gives an index and not [None], and that index is
    a position of the list. *)
Theorem supported_iff_index (self : Wheel) (tags : option (list tag)) :
  (supported self tags = true ↔ is_Some (support_index_min self tags))
  ∧ ∀ i, support_index_min self tags = Some i →
         i < length (tags_or_default supported_tags tags).
Proof.
  unfold WheelFile.supported, WheelFile.support_index_min.
  set (ts := tags_or_default supported_tags tags). split.
  - rewrite bool_decide_eq_true. split.
    + intros Hne. apply set_choose_L in Hne as [t Ht].
      apply elem_of_intersection in Ht as [Ht1 Ht2].
      apply elem_of_list_to_set in Ht1.
      destruct (index_elem_of t ts Ht1) as [i Hi].
      destruct (min_or_none _) as [j|] eqn:Hmin; [by eexists|].
      apply min_or_none_None in Hmin.
      assert (i ∈ omap (λ c, list_index c ts)
                (filter (λ c, c ∈ ts) (elements (file_tags self)))) as Hin
        by (apply indexes_elem_of; eauto).
      rewrite Hmin in Hin. by apply elem_of_nil in Hin.
    + intros [i Hi]. apply min_or_none_Some in Hi as [Hi _].
      apply indexes_elem_of in Hi as (c & Hc & Hi).
      apply index_Some in Hi as [Hi _].
      apply list_elem_of_lookup_2 in Hi. intros Hemp.
      apply (not_elem_of_empty (C := gset tag) c). rewrite <- Hemp.
      apply elem_of_intersection. split; [|done].
      by apply elem_of_list_to_set.
  - intros i Hi. apply min_or_none_Some in Hi as [Hi _].
    apply indexes_elem_of in Hi as (c & Hc & Hi). by eapply index_lt.
Qed.

(** X3: tags that are put at the end of the list change nothing for a
    wheel the list supports already: its index, which ranks it among the
    candidates, stays what it was. *)
Theorem support_index_min_app (self : Wheel) (tags more : list tag)
    (i : nat) :
  support_index_min self (Some tags) = Some i →
  support_index_min self (Some (tags ++ more)) = Some i.
Proof.
  unfold WheelFile.support_index_min. cbn [tags_or_default].
  rewrite !min_or_none_Some, !indexes_elem_of.
  intros [(c & Hc & Hi) Hmin]. split.
  - exists c. split; [done|]. by apply index_app_l.
  - intros j Hj. apply indexes_elem_of in Hj as (c' & Hc' & Hj).
    pose proof (index_lt _ _ _ Hi) as Hlt.
    destruct (decide (j < length tags)) as [Hjl|]; [|lia].
    apply Hmin. apply indexes_elem_of. exists c'. split; [done|].
    by eapply index_app_inv.
Qed.
End SupportMore.

Lemma support_index_min_app_witness :
  let w := {| WheelFile.filename := py "foo-1.0-py2.py3-none-any.whl";
              WheelFile.name := py "foo";
              WheelFile.version := py "1.0";
              WheelFile.pyversions := [py "py2"; py "py3"];
              WheelFile.abis := [py "none"];
              WheelFile.plats := [py "any"];
              WheelFile.file_tags :=
                list_to_set [(py "py2", py "none", py "any");
                             (py "py3", py "none", py "any")] |} in
  WheelFile.support_index_min [] w
    (Some ([(py "py3", py "none", py "any")]
           ++ [(py "py2", py "none", py "any")])) = Some 0.
Proof.
  intros w. apply (support_index_min_app []). vm_compute. reflexivity.
Defined.

(** ** Uninstallation paths, further *)

Section UninstallMore.
Import Posix Uninstall.

Lemma join_absolute (a b : str) : startswith b [sep] = true → join a b = b.
Proof. intros Hb. unfold join. by rewrite Hb. Qed.

(** X4: a manifest row whose path is absolute is yielded as it stands:
    the location of the distribution is not put in front of it. *)
Theorem uninstallation_paths_absolute_row (dist : Dist)
    (row0 : str) (fields : list str) :
  Forall (λ row, row ≠ []) (record_rows dist) →
  (row0 :: fields) ∈ record_rows dist →
  startswith row0 [sep] = true →
  ∃ paths, uninstallation_paths dist = (paths, None) ∧ row0 ∈ paths.
Proof.
  intros Hrows Hrow Habs. destruct dist as [loc rows]. simpl in *.
  unfold uninstallation_paths, _unique. simpl.
  rewrite (uninstallation_paths_body_ok loc rows Hrows). simpl.
  eexists. split; [done|].
  apply unique_from_elem_of. split; [|apply not_elem_of_empty].
  apply raw_paths_elem_of. exists row0, fields. split; [done|].
  apply row_paths_elem_of. left. by rewrite join_absolute.
Qed.

Lemma uninstallation_paths_body_app (loc : str) (r1 r2 : list (list str)) :
  Forall (λ row, row ≠ []) r1 →
  uninstallation_paths_body loc (r1 ++ r2)
  = (raw_paths loc r1 ++ (uninstallation_paths_body loc r2).1,
     (uninstallation_paths_body loc r2).2).
Proof.
  induction 1 as [|row rows Hrow _ IH]; simpl.
  - by destruct (uninstallation_paths_body loc r2).
  - destruct row as [|row0 fields]; [done|]. rewrite IH. simpl.
    unfold raw_paths. by rewrite (assoc_L (++)).
Qed.

(** X5: a row without fields ends the enumeration with [IndexError], but
    only when the generator gets there: the paths of the rows before it
    have been yielded by then, each once, and the rows after it are
    never looked at. *)
Theorem uninstallation_paths_empty_row (loc : str)
    (before after : list (list str)) :
  Forall (λ row, row ≠ []) before →
  uninstallation_paths
    {| location := loc; record_rows := before ++ [] :: after |}
  = (unique_from ∅ (raw_paths loc before), Some IndexError).
Proof.
  intros Hbefore. unfold uninstallation_paths, _unique. simpl.
  rewrite uninstallation_paths_body_app by done. simpl.
  by rewrite app_nil_r.
Qed.

Lemma unique_from_NoDup_id (seen : gset str) (items : list str) :
  NoDup items → (∀ x, x ∈ items → x ∉ seen) →
  unique_from seen items = items.
Proof.
  intros Hnd. revert seen.
  induction Hnd as [|a l Ha Hnd IH]; intros seen Hseen; [done|].
  simpl. rewrite decide_False by (apply Hseen; left).
  f_equal. apply IH. intros x Hx.
  intros [Hxa%elem_of_singleton|Hxs]%elem_of_union.
  - by subst x.
  - by apply (Hseen x); [right|].
Qed.

(** X6: [_unique] changes nothing in a sequence that has no item twice,
    so decorating twice is decorating once; and it never yields more
    items than the generator it wraps. *)
Theorem _unique_idempotent (g : gen str) :
  _unique (_unique g) = _unique g
  ∧ (NoDup g.1 → _unique g = g)
  ∧ length (_unique g).1 ≤ length g.1.
Proof.
  destruct g as [items e]. unfold _unique. simpl. split_and!.
  - f_equal. apply unique_from_NoDup_id; [apply unique_from_NoDup|].
    intros x _. apply not_elem_of_empty.
  - intros Hnd. f_equal. apply unique_from_NoDup_id; [done|].
    intros x _. apply not_elem_of_empty.
  - generalize (∅ : gset str). induction items as [|a l IH]; intros seen.
    + done.
    + simpl. case_decide; simpl; [specialize (IH seen)|
                                   specialize (IH ({[a]} ∪ seen))]; lia.
Qed.
End UninstallMore.

(** The archive's manifest names a file outside the installation. *)
Lemma uninstallation_paths_absolute_row_witness :
  ∃ paths,
    Uninstall.uninstallation_paths
      {| Uninstall.location := py "/env/lib";
         Uninstall.record_rows := [[py "pkg/a.txt"]; [py "/etc/passwd"]] |}
    = (paths, None)
    ∧ py "/etc/passwd" ∈ paths.
Proof.
  apply (uninstallation_paths_absolute_row
           {| Uninstall.location := py "/env/lib";
              Uninstall.record_rows := [[py "pkg/a.txt"]; [py "/etc/passwd"]] |}
           (py "/etc/passwd") []).
  - repeat constructor; discriminate.
  - right. left.
  - reflexivity.
Defined.

Lemma uninstallation_paths_empty_row_witness :
  Uninstall.uninstallation_paths
    {| Uninstall.location := py "/lib";
       Uninstall.record_rows := [[py "a.py"]] ++ [] :: [[py "b"]] |}
  = (Uninstall.unique_from ∅ (Uninstall.raw_paths (py "/lib") [[py "a.py"]]),
     Some IndexError).
Proof.
  apply (uninstallation_paths_empty_row (py "/lib") [[py "a.py"]] [[py "b"]]).
  repeat constructor; discriminate.
Defined.
Section HasherMore.
Import Hasher.
Context (hl : Hashlib).

Lemma b64_char_urlsafe (n : N) : urlsafe_char (b64_char n) = true.
Proof.
  unfold b64_char, urlsafe_char.
  destruct (N.ltb_spec n 26).
  { rewrite N_ascii_embedding by lia.
    replace (65 <=? 65 + n)%N with true by (symmetry; apply N.leb_le; lia).
    replace (65 + n <=? 90)%N with true by (symmetry; apply N.leb_le; lia).
    done. }
  destruct (N.ltb_spec n 52).
  { rewrite N_ascii_embedding by lia.
    replace (97 <=? 97 + (n - 26))%N with true
      by (symmetry; apply N.leb_le; lia).
    replace (97 + (n - 26) <=? 122)%N with true
      by (symmetry; apply N.leb_le; lia).
    by rewrite orb_true_r. }
  destruct (N.ltb_spec n 62).
  { rewrite N_ascii_embedding by lia.
    replace (48 <=? 48 + (n - 52))%N with true
      by (symmetry; apply N.leb_le; lia).
    replace (48 + (n - 52) <=? 57)%N with true
      by (symmetry; apply N.leb_le; lia).
    by rewrite !orb_true_r. }
  by destruct (n =? 62)%N.
Qed.

Lemma urlsafe_char_not_pad (c : ascii) : urlsafe_char c = true → c ≠ "=".
Proof. by intros H ->. Qed.

(** Lists, three items at a time. *)
Lemma list_ind3 {A} (P : list A → Prop) :
  P [] → (∀ a, P [a]) → (∀ a b, P [a; b]) →
  (∀ a b c l, P l → P (a :: b :: c :: l)) →
  ∀ l, P l.
Proof.
  intros H0 H1 H2 H3 l.
  assert (P l ∧ (∀ a, P (a :: l)) ∧ ∀ a b, P (a :: b :: l)) as [? _];
    [|done].
  induction l as [|x l (IH0 & IH1 & IH2)]; [by auto|].
  split_and!; [apply IH1|intros a; apply IH2|intros a b; by apply H3].
Qed.

(** The text [urlsafe_b64encode] gives: characters of the alphabet, four
    for every three bytes, rounded up, then at most two [=]. *)
Lemma urlsafe_b64encode_shape (bs : str) :
  ∃ body k,
    urlsafe_b64encode bs = body ++ replicate k "="
    ∧ Forall (λ c, urlsafe_char c = true) body
    ∧ 3 * length body = 4 * length bs + k
    ∧ k = (3 - length bs `mod` 3) `mod` 3.
Proof.
  induction bs as [|a|a b|a b c l (body & k & Henc & Hbody & Hlen & Hk)]
    using list_ind3.
  - exists [], 0. split_and!; [done|constructor|reflexivity..].
  - eexists [_; _], 2. split; [reflexivity|].
    split_and!; [|reflexivity..].
    repeat constructor; apply b64_char_urlsafe.
  - eexists [_; _; _], 1. split; [reflexivity|].
    split_and!; [|reflexivity..].
    repeat constructor; apply b64_char_urlsafe.
  - eexists (_ :: _ :: _ :: _ :: body), k.
    split; [|split_and!].
    + cbn [urlsafe_b64encode]. rewrite Henc. done.
    + repeat (constructor; [apply b64_char_urlsafe|]). done.
    + cbn [length]. lia.
    + cbn [length]. rewrite Hk.
      replace (S (S (S (length l)))) with (length l + 1 * 3) by lia.
      by rewrite Nat.Div0.mod_add.
Qed.

Lemma rstrip_pad (body : str) (k : nat) :
  Forall (λ c, urlsafe_char c = true) body →
  rstrip "=" (body ++ replicate k "=") = body.
Proof.
  intros Hbody. destruct body as [|x t _] using rev_ind.
  - apply rstrip_replicate.
  - apply rstrip_run. apply Forall_app in Hbody as [_ Hx].
    apply list.Forall_cons in Hx as [Hx _]. by apply urlsafe_char_not_pad.
Qed.

(** X7: whatever [rehash] returns as a digest is the tag [sha256=] and
    then characters of the URL-safe alphabet only: no [+], no [/] and no
    padding. *)
Theorem rehash_digest_urlsafe (fs : gmap str str) (path algo : str)
    (blocksize : Z) (digest : str) (n : nat) :
  rehash hl fs path algo blocksize = inr (digest, n) →
  ∃ body, digest = py "sha256=" ++ body
          ∧ Forall (λ c, urlsafe_char c = true) body
          ∧ "=" ∉ body.
Proof.
  unfold rehash. destruct (hnew hl algo) as [h0|]; [|done].
  destruct (fs !! path) as [data|]; [|done].
  destruct (rehash_loop _ _ _ _ _ _) as [[e|[h len]]|]; [done| |done].
  intros [= <- <-].
  destruct (urlsafe_b64encode_shape (hdigest hl h))
    as (body & k & -> & Hbody & _).
  exists body. rewrite rstrip_pad by done. split_and!; [done..|].
  intros Hin. rewrite list.Forall_forall in Hbody.
  by apply Hbody in Hin.
Qed.

(** X8: for an algorithm the hash library knows, a readable file and a
    block size that [read] takes and that is not 0, the digest text has
    the seven characters of the tag and four characters for every three
    bytes of the binary digest, rounded up. *)
Theorem rehash_digest_length (fs : gmap str str) (path algo data : str)
    (blocksize : Z) (h0 : hstate hl) :
  hnew hl algo = Some h0 →
  fs !! path = Some data → (-1 ≤ blocksize)%Z → blocksize ≠ 0%Z →
  ∃ digest,
    rehash hl fs path algo blocksize = inr (digest, length data)
    ∧ length digest
      = 7 + (4 * length (hdigest hl (hupdate hl h0 data)) + 2) / 3.
Proof.
  intros Hnew Hfile Hvalid Hbs. unfold rehash. rewrite Hnew, Hfile.
  rewrite rehash_loop_spec by (done || lia). eexists. split; [done|].
  rewrite length_app. change (length (py "sha256=")) with 7.
  f_equal.
  destruct (urlsafe_b64encode_shape (hdigest hl (hupdate hl h0 data)))
    as (body & k & -> & Hbody & Hlen & Hk).
  rewrite rstrip_pad by done.
  set (m := length (hdigest hl (hupdate hl h0 data))) in *.
  assert (k < 3) by (subst k; apply Nat.mod_upper_bound; lia).
  apply Nat.div_unique with (r := 2 - k); lia.
Qed.

(** X9: the block size and the result. The sizes [read] takes are -1,
    for all of the file at once, and those from 0 on. Among them the
    size does not show in the result as long as it is not 0: the digest
    and the length are the same, and so is the error on a path that is
    no file or for an algorithm that is not known. With a block size of
    0 the first [read] gives nothing and the loop does not run: whatever
    the file holds, the result is then the digest of no data and the
    length 0. With a size below -1 the first [read] raises
    [ValueError]. *)
Theorem rehash_blocksize (fs : gmap str str) (path algo : str) :
  (∀ b1 b2, (-1 ≤ b1)%Z → b1 ≠ 0%Z → (-1 ≤ b2)%Z → b2 ≠ 0%Z →
            rehash hl fs path algo b1 = rehash hl fs path algo b2)
  ∧ (∀ h0, hnew hl algo = Some h0 → is_Some (fs !! path) →
       rehash hl fs path algo 0
       = inr (py "sha256=" ++ rstrip "=" (urlsafe_b64encode (hdigest hl h0)),
              0))
  ∧ (∀ b, is_Some (hnew hl algo) → is_Some (fs !! path) → (b < -1)%Z →
       rehash hl fs path algo b = inl ValueError).
Proof.
  split_and!.
  - intros b1 b2 Hv1 H1 Hv2 H2. unfold rehash.
    destruct (hnew hl algo) as [h0|]; [|done].
    destruct (fs !! path) as [data|]; [|done].
    by rewrite !rehash_loop_spec by (done || lia).
  - intros h0 Hnew [data Hfile]. unfold rehash. by rewrite Hnew, Hfile.
  - intros b [h0 Hnew] [data Hfile] Hb. unfold rehash.
    rewrite Hnew, Hfile. cbn [rehash_loop]. by rewrite read_raises.
Qed.

(** An algorithm the hash library does not know: [hashlib.new] raises
    before the file is opened. *)
Lemma rehash_unknown_algo (fs : gmap str str) (path algo : str)
    (blocksize : Z) :
  hnew hl algo = None → rehash hl fs path algo blocksize = inl ValueError.
Proof. intros Hnew. unfold rehash. by rewrite Hnew. Qed.
End HasherMore.

(** A digest of four bytes that needs two padding characters: none is
    left. *)
Lemma rehash_digest_urlsafe_witness :
  ∃ body, py "sha256=bWQ1YQ" = py "sha256=" ++ body
          ∧ Forall (λ c, urlsafe_char c = true) body
          ∧ "=" ∉ body.
Proof.
  apply (rehash_digest_urlsafe Hasher.toy_hashlib {[ py "/f" := py "a" ]}
           (py "/f") (py "md5") 2 _ 1).
  reflexivity.
Defined.

(** Six bytes of digest give eight characters after the tag. *)
Lemma rehash_digest_length_witness :
  ∃ digest,
    Hasher.rehash Hasher.toy_hashlib {[ py "/f" := py "abc" ]} (py "/f")
      (py "md5") 2 = inr (digest, 3)
    ∧ length digest = 7 + 8.
Proof.
  apply (rehash_digest_length Hasher.toy_hashlib {[ py "/f" := py "abc" ]}
           (py "/f") (py "md5") (py "abc") 2 (py "md5", []));
    [reflexivity|reflexivity|discriminate|discriminate].
Defined.

(** A file of three bytes: one byte at a time is as all at once; a block
    size of 0 gives the digest of nothing; one of -2 raises. *)
Lemma rehash_blocksize_witness :
  Hasher.rehash Hasher.toy_hashlib {[ py "/f" := py "abc" ]} (py "/f")
    (py "md5") 1
  = Hasher.rehash Hasher.toy_hashlib {[ py "/f" := py "abc" ]} (py "/f")
      (py "md5") (-1)
  ∧ Hasher.rehash Hasher.toy_hashlib {[ py "/f" := py "abc" ]} (py "/f")
      (py "md5") 0 = inr (py "sha256=bWQ1", 0)
  ∧ Hasher.rehash Hasher.toy_hashlib {[ py "/f" := py "abc" ]} (py "/f")
      (py "md5") (-2) = inl ValueError.
Proof.
  destruct (rehash_blocksize Hasher.toy_hashlib {[ py "/f" := py "abc" ]}
              (py "/f") (py "md5")) as (Hsame & Hzero & Hneg).
  split_and!.
  - apply Hsame; [lia|lia|lia|lia].
  - rewrite (Hzero (py "md5", [])); [reflexivity|reflexivity|].
    exists (py "abc"). reflexivity.
  - apply Hneg; [|exists (py "abc"); reflexivity|lia].
    exists (py "md5", []). reflexivity.
Defined.

(** A file of three bytes, read one byte at a time, all at once, with a
    block size of 0 and with one of -2; and an algorithm that is not
    known. *)
Example rehash_blocksize_example :
  Hasher.rehash Hasher.toy_hashlib {[ py "/f" := py "abc" ]} (py "/f")
    (py "md5") 1 = inr (py "sha256=bWQ1YWJj", 3)
  ∧ Hasher.rehash Hasher.toy_hashlib {[ py "/f" := py "abc" ]} (py "/f")
      (py "md5") (-1) = inr (py "sha256=bWQ1YWJj", 3)
  ∧ Hasher.rehash Hasher.toy_hashlib {[ py "/f" := py "abc" ]} (py "/f")
      (py "md5") 0 = inr (py "sha256=bWQ1", 0)
  ∧ Hasher.rehash Hasher.toy_hashlib {[ py "/f" := py "abc" ]} (py "/f")
      (py "md5") (-2) = inl ValueError
  ∧ Hasher.rehash Hasher.toy_hashlib {[ py "/f" := py "abc" ]} (py "/f")
      (py "md4x") 1 = inl ValueError.
Proof. split_and!; vm_compute; reflexivity. Qed.

(** ** The build orchestrator: what it logs *)

Section BuilderLog.
Import Exec Builder.
Context {World : Type}.
Context (run : list str → str → World → outcome * World).
Context (prepare_files : World → result (list Req) * World).
Context (sys_executable : str) (setup_script : str → str).

#[local] Abbreviation _build_one := (_build_one run sys_executable setup_script).
#[local] Abbreviation build_loop := (build_loop run sys_executable setup_script).

(** ['Failed building wheel for %s' % req.name]. *)
#[local] Abbreviation failed_line r :=
  (py "Failed building wheel for " ++ req_name r).

Lemma error_lines_app (l1 l2 : list log_line) :
  error_lines (l1 ++ l2) = error_lines l1 ++ error_lines l2.
Proof. apply omap_app. Qed.

Lemma _build_one_log (self : WheelBuilder) (req : Req)
    (st : state (World:=World)) :
  ∃ ok st',
    _build_one self req st = (inr ok, st')
    ∧ log st `prefix_of` log st'
    ∧ error_lines (log st')
      = error_lines (log st) ++ (if ok : bool then [] else [failed_line req]).
Proof.
  unfold Builder._build_one, bnd, try_except, logger, modify,
    call_subprocess, ret. simpl.
  destruct (run _ _ _) as [[[|c|c]|e] w]; simpl; eexists _, _;
    (split; [reflexivity|]); simpl;
    rewrite ?error_lines_app; simpl; rewrite ?app_nil_r;
    (split; [|done]);
    rewrite <- ?(assoc_L (++)); by eexists.
Qed.

Lemma build_loop_log (self : WheelBuilder) (reqset : list Req)
    (build_success build_failure : list Req) (st : state (World:=World)) :
  ∃ bs bf st',
    build_loop self reqset build_success build_failure st
      = (inr (bs, build_failure ++ bf), st')
    ∧ log st `prefix_of` log st'
    ∧ error_lines (log st')
      = error_lines (log st) ++ ((λ r, failed_line r) <$> bf).
Proof.
  revert build_success build_failure st.
  induction reqset as [|req rest IH]; intros bs bf st; cbn [Builder.build_loop].
  - exists bs, [], st. rewrite !app_nil_r. done.
  - destruct (is_wheel req).
    + unfold bnd at 1, logger at 1, modify. cbv beta iota.
      destruct (IH bs bf
                  {| world := world st;
                     log := log st
                            ++ [Notify (py "Skipping building wheel: "
                                        ++ url req)] |})
        as (bs' & bf' & st' & -> & Hpre & Herr).
      exists bs', bf', st'. split; [done|]. cbn [log] in Hpre, Herr.
      rewrite error_lines_app in Herr. simpl in Herr.
      rewrite app_nil_r in Herr. split; [|done].
      etrans; [|exact Hpre]. by eexists.
    + destruct (_build_one_log self req st) as (ok & st1 & Hone & Hpre1 & Herr1).
      unfold bnd at 1. rewrite Hone. destruct ok.
      * destruct (IH (bs ++ [req]) bf st1)
          as (bs' & bf' & st' & -> & Hpre & Herr).
        exists bs', bf', st'. split; [done|]. split; [by etrans|].
        by rewrite Herr, Herr1, app_nil_r.
      * destruct (IH bs (bf ++ [req]) st1)
          as (bs' & bf' & st' & -> & Hpre & Herr).
        exists bs', (req :: bf'), st'. rewrite <- (assoc_L (++)).
        split; [done|]. split; [by etrans|].
        by rewrite Herr, Herr1, fmap_cons, <- (assoc_L (++)).
Qed.

(** X10: what [build] tells the user. Once the requirement set is
    prepared, the log only grows; the error lines it gets are one
    [Failed building wheel for NAME] for every requirement of the list
    of failures, in the order of that list, and no other; and when a
    build has failed, the last line of the log names the failures. *)
Theorem build_logs_failures (self : WheelBuilder)
    (st : state (World:=World)) (reqset : list Req) (w : World) :
  prepare_files (world st) = (inr reqset, w) →
  ∃ build_success build_failure st',
    build run prepare_files sys_executable setup_script self st
      = (inr (build_success, build_failure), st')
    ∧ log st `prefix_of` log st'
    ∧ error_lines (log st')
      = error_lines (log st) ++ ((λ r, failed_line r) <$> build_failure)
    ∧ (build_failure ≠ [] →
       list.last (log st')
       = Some (Notify (py "Failed to build "
                       ++ names build_failure (py " ")))).
Proof.
  intros Hprep. unfold build. unfold bnd at 1. rewrite Hprep.
  unfold bnd at 1. unfold logger at 1, modify.
  set (st1 := {| world := _; log := _ |}).
  destruct (build_loop_log self reqset [] [] st1)
    as (bs & bf & st2 & Hloop & Hpre & Herr).
  cbn [app] in Hloop. unfold bnd at 1. rewrite Hloop.
  assert (log st `prefix_of` log st2) as Hpre2.
  { etrans; [|exact Hpre]. by eexists. }
  assert (error_lines (log st2)
          = error_lines (log st) ++ ((λ r, failed_line r) <$> bf)) as Herr2.
  { rewrite Herr. subst st1. cbn [log]. rewrite error_lines_app. simpl.
    by rewrite app_nil_r. }
  exists bs, bf. unfold bnd, logger, modify, ret. cbv beta iota.
  destruct (bool_decide (bs = [])), (bool_decide_reflect (bf = []));
    cbv beta iota; eexists; (split; [reflexivity|]); cbn [log].
  - done.
  - rewrite error_lines_app, Herr2. simpl. rewrite app_nil_r.
    split_and!; [|done|].
    + etrans; [exact Hpre2|]. by eexists.
    + intros _. apply last_snoc.
  - rewrite error_lines_app, Herr2. simpl. rewrite app_nil_r.
    split_and!; [|done|done]. etrans; [exact Hpre2|]. by eexists.
  - rewrite !error_lines_app, Herr2. simpl. rewrite !app_nil_r.
    split_and!; [|done|].
    + etrans; [exact Hpre2|]. rewrite <- (assoc_L (++)). by eexists.
    + intros _. apply last_snoc.
Qed.
End BuilderLog.

(** The batch of three source packages and a wheel: an error line for
    each of the two packages whose build exits with 1, and both in the
    last line. *)
Lemma build_logs_failures_witness :
  let pkg1 := {| Builder.req_name := py "pkg1"; Builder.is_wheel := false;
                 Builder.url := []; Builder.source_dir := py "/src/pkg1";
                 Builder.setup_py := py "/src/pkg1/setup.py" |} in
  let pkg2 := {| Builder.req_name := py "pkg2"; Builder.is_wheel := false;
                 Builder.url := []; Builder.source_dir := py "/src/pkg2";
                 Builder.setup_py := py "/src/pkg2/setup.py" |} in
  let pkg3 := {| Builder.req_name := py "pkg3"; Builder.is_wheel := false;
                 Builder.url := []; Builder.source_dir := py "/src/pkg3";
                 Builder.setup_py := py "/src/pkg3/setup.py" |} in
  let whl := {| Builder.req_name := py "whl"; Builder.is_wheel := true;
                Builder.url := py "file:///whl-1.0-py2-none-any.whl";
                Builder.source_dir := []; Builder.setup_py := [] |} in
  let run := λ (args : list str) (cwd : str) (w : nat),
    (if decide (cwd = py "/src/pkg1") then Builder.Exited 0
     else Builder.Exited 1, S w) in
  let prepare := λ w : nat, (inr [pkg1; whl; pkg2; pkg3], w) in
  let self := {| Builder.wheel_dir := py "/wheelhouse";
                 Builder.build_options := [];
                 Builder.global_options := [] |} in
  ∃ st',
    Builder.build run prepare (py "python") id self
      {| Builder.world := 0; Builder.log := [] |}
    = (inr ([pkg1], [pkg2; pkg3]), st')
    ∧ error_lines (Builder.log st')
      = [py "Failed building wheel for pkg2";
         py "Failed building wheel for pkg3"]
    ∧ list.last (Builder.log st')
      = Some (Builder.Notify (py "Failed to build pkg2 pkg3")).
Proof.
  intros pkg1 pkg2 pkg3 whl run prepare self.
  destruct (build_logs_failures run prepare (py "python") id self
              {| Builder.world := 0; Builder.log := [] |}
              [pkg1; whl; pkg2; pkg3] 0)
    as (bs & bf & st' & Hbuild & _ & Herr & Hlast); [reflexivity|].
  assert ((bs, bf) = ([pkg1], [pkg2; pkg3])) as [= -> ->].
  { assert (inr (bs, bf)
            = (Builder.build run prepare (py "python") id self
                 {| Builder.world := 0; Builder.log := [] |}).1) as H
      by (by rewrite Hbuild).
    vm_compute in H. injection H as -> ->. reflexivity. }
  exists st'. split_and!; [exact Hbuild|exact Herr|].
  by apply Hlast.
Defined.

(** The separator comes between any two names, also before a name that
    is empty. *)
Example names_example :
  let req := λ n, {| Builder.req_name := n; Builder.is_wheel := false;
                     Builder.url := []; Builder.source_dir := [];
                     Builder.setup_py := [] |} in
  Builder.names [req (py "pkg1"); req []] (py ", ") = py "pkg1, "
  ∧ Builder.names [req (py "a"); req (py "b"); req (py "c")] (py " ")
    = py "a b c"
  ∧ Builder.names [] (py " ") = [].
Proof. split_and!; reflexivity. Qed.

(** ** Installing a wheel: scripts *)

Section ScriptFixFacts.
Import Exec Posix Install.
Context (sys_executable os_linesep : str).

#[local] Abbreviation fix_script :=
  (Install.fix_script sys_executable os_linesep).

Lemma readline_prefix (data : str) :
  readline data ++ drop (length (readline data)) data = data.
Proof.
  induction data as [|c rest IH]; [done|]. simpl.
  destruct (Ascii.eqb c "010"); simpl; [by rewrite drop_0|by rewrite IH].
Qed.

Lemma readline_absolute_shebang (x : str) :
  startswith (readline ("#" :: "!" :: sep :: x)) (py "#!python") = false.
Proof.
  cbn [readline]. change (Ascii.eqb "#" "010") with false.
  change (Ascii.eqb "!" "010") with false.
  change (Ascii.eqb sep "010") with false. cbv iota.
  apply bool_decide_eq_false. intros [k Hk]. discriminate Hk.
Qed.

(** X11: [fix_script] never raises and changes at most the first line of
    the one file it is given. It answers [True] exactly when that file
    is there and its first line starts with [#!python]; then the file is
    left with [#!], the path of the interpreter and a line end in the
    place of that first line, and with every byte after the first line
    as it was. Otherwise nothing at all changes. *)
Theorem fix_script_first_line_only (path : str) (st : state) :
  ∃ r st',
    fix_script path st = (inr r, st')
    ∧ (∀ p, p ≠ path → fs st' !! p = fs st !! p)
    ∧ (info_dir st', data_dirs st', installed st', changed st', generated st')
      = (info_dir st, data_dirs st, installed st, changed st, generated st)
    ∧ (r = Some true
       ↔ ∃ data, fs st !! path = Some data
                 ∧ startswith (readline data) (py "#!python") = true)
    ∧ (r = Some true →
       ∃ first rest,
         fs st !! path = Some (first ++ rest)
         ∧ first = readline (first ++ rest)
         ∧ fs st' !! path
           = Some (py "#!" ++ sys_executable ++ os_linesep ++ rest))
    ∧ (r ≠ Some true → st' = st).
Proof.
  unfold Install.fix_script.
  destruct (fs st !! path) as [data|] eqn:Hdata.
  - destruct (startswith (readline data) (py "#!python")) eqn:Hstart;
      cbn [negb]; eexists _, _; (split; [reflexivity|]).
    + split_and!; [| done | | |done].
      * intros p Hp. simpl. by rewrite lookup_insert_ne.
      * split; [eauto|done].
      * intros _. exists (readline data), (drop (length (readline data)) data).
        rewrite readline_prefix. split_and!; [done..|].
        simpl. rewrite lookup_insert_eq. by rewrite <- !(assoc_L (++)).
    + split_and!; [done..| |done|done].
      split; [done|]. intros (d & [= <-] & Hd). congruence.
  - eexists _, _. split; [reflexivity|].
    split_and!; [done..| |done|done].
    split; [done|]. by intros (d & ? & _).
Qed.

(** X12: with an interpreter path that is absolute, a script that
    [fix_script] has changed is not changed again: a second call answers
    [False] and leaves everything as it is. *)
Theorem fix_script_twice (path : str) (st st' : state) :
  isabs sys_executable = true →
  fix_script path st = (inr (Some true), st') →
  fix_script path st' = (inr (Some false), st').
Proof.
  intros Habs. unfold Install.fix_script.
  destruct (fs st !! path) as [data|]; [|done].
  destruct (negb _); [done|]. intros [= <-]. simpl.
  rewrite lookup_insert_eq.
  apply bool_decide_eq_true in Habs as [exe ->].
  change (py "#!" ++ ([sep] ++ exe) ++ os_linesep)
    with ("#" :: "!" :: sep :: (exe ++ os_linesep)).
  cbn [app]. by rewrite readline_absolute_shebang.
Qed.
End ScriptFixFacts.

Lemma fix_script_twice_witness :
  let st := Install.initial {[ py "/bin/tool" := py "#!python -E" ]} in
  ∃ st',
    Install.fix_script (py "/usr/bin/python") ["010"] (py "/bin/tool") st
      = (inr (Some true), st')
    ∧ Install.fix_script (py "/usr/bin/python") ["010"] (py "/bin/tool") st'
      = (inr (Some false), st').
Proof.
  intros st. eexists. split; [reflexivity|].
  apply (fix_script_twice (py "/usr/bin/python") ["010"] (py "/bin/tool") st);
    reflexivity.
Defined.

Section WrapperFacts.
Import Install.
Context (console gui : gmap str str).

(** An entry point the wheel declares, for the console or for the GUI. *)
#[local] Abbreviation entry_point ep :=
  (is_Some (console !! ep) ∨ is_Some (gui !! ep)).

Lemma suffix_app_short (p l w : str) :
  length p ≤ length w → p `suffix_of` l ++ w → p `suffix_of` w.
Proof.
  intros Hlen [k Hk]. apply app_eq_app in Hk as [m [[-> Hp]|[-> ->]]].
  - apply (f_equal length) in Hp as Hl. rewrite length_app in Hl.
    destruct m; [|simpl in Hl; lia]. by rewrite Hp.
  - by exists m.
Qed.

Lemma endswith_app (l w p : str) :
  length p ≤ length w → endswith (l ++ w) p = endswith w p.
Proof.
  intros Hlen. unfold endswith. apply bool_decide_ext. split.
  - by apply suffix_app_short.
  - intros [k ->]. exists (l ++ k). by rewrite (assoc_L (++)).
Qed.

Lemma endswith_app_other (l w p : str) :
  ¬ w `suffix_of` p → ¬ p `suffix_of` w → endswith (l ++ w) p = false.
Proof.
  intros Hwp Hpw. apply bool_decide_eq_false. intros [k Hk].
  apply app_eq_app in Hk as [m [[-> Hp]|[-> ->]]].
  - apply Hwp. by exists m.
  - apply Hpw. by exists m.
Qed.

Ltac other_suffix :=
  apply endswith_app_other; apply (bool_decide_unpack _); by vm_compute.

Lemma lower_length (s : str) : length (lower s) = length s.
Proof. apply length_fmap. Qed.

Lemma lower_app (s t : str) : lower (s ++ t) = lower s ++ lower t.
Proof. apply fmap_app. Qed.

Lemma take_stem (ep sfx : str) (n : nat) :
  length sfx = n → take (length (ep ++ sfx) - n) (ep ++ sfx) = ep.
Proof.
  intros <-. rewrite length_app.
  replace (length ep + length sfx - length sfx) with (length ep) by lia.
  apply take_app_length.
Qed.

Lemma entry_point_test (m : str) :
  bool_decide (is_Some (console !! m)) || bool_decide (is_Some (gui !! m))
  = true ↔ entry_point m.
Proof.
  rewrite orb_true_iff, !bool_decide_eq_true. done.
Qed.

(** X13: the files [is_entrypoint_wrapper] takes for generated wrappers.
    For an entry point [EP] of the wheel these are [EP.exe],
    [EP-script.py] and [EP.pya], with the suffix in any letter case, and
    [EP] itself unless its own name ends like one of them. Nothing else
    is taken for a wrapper: a name that passes the test is the name of
    an entry point with nothing or one of the three suffixes after it. *)
Theorem is_entrypoint_wrapper_names (name : str) :
  (∀ ep sfx,
     entry_point ep → name = ep ++ sfx →
     lower sfx ∈ [py ".exe"; py "-script.py"; py ".pya"] →
     is_entrypoint_wrapper console gui name = true)
  ∧ (entry_point name →
     endswith (lower name) (py ".exe") = false →
     endswith (lower name) (py "-script.py") = false →
     endswith (lower name) (py ".pya") = false →
     is_entrypoint_wrapper console gui name = true)
  ∧ (is_entrypoint_wrapper console gui name = true →
     ∃ ep sfx,
       entry_point ep ∧ name = ep ++ sfx
       ∧ (sfx = []
          ∨ lower sfx ∈ [py ".exe"; py "-script.py"; py ".pya"])).
Proof.
  split_and!.
  - intros ep sfx Hep -> Hsfx. unfold is_entrypoint_wrapper.
    rewrite lower_app.
    assert (length sfx = length (lower sfx)) as Hlen
      by (by rewrite lower_length).
    apply elem_of_cons in Hsfx as [Hs|Hsfx];
      [|apply elem_of_cons in Hsfx as [Hs|Hsfx];
        [|apply list_elem_of_singleton in Hsfx as Hs]];
      rewrite Hs in *.
    + rewrite endswith_app by done.
      change (endswith (py ".exe") (py ".exe")) with true. cbv iota.
      rewrite take_stem by done. by apply entry_point_test.
    + replace (endswith (lower ep ++ py "-script.py") (py ".exe"))
        with false by (symmetry; other_suffix).
      rewrite endswith_app by done.
      change (endswith (py "-script.py") (py "-script.py")) with true.
      cbv iota. rewrite take_stem by done. by apply entry_point_test.
    + replace (endswith (lower ep ++ py ".pya") (py ".exe"))
        with false by (symmetry; other_suffix).
      replace (endswith (lower ep ++ py ".pya") (py "-script.py"))
        with false by (symmetry; other_suffix).
      rewrite endswith_app by done.
      change (endswith (py ".pya") (py ".pya")) with true.
      cbv iota. rewrite take_stem by done. by apply entry_point_test.
  - intros Hep H1 H2 H3. unfold is_entrypoint_wrapper.
    rewrite H1, H2, H3. by apply entry_point_test.
  - unfold is_entrypoint_wrapper.
    assert (∀ sfx n, length sfx = n → endswith (lower name) sfx = true →
              lower (drop (length name - n) name) = sfx) as Hdrop.
    { intros sfx n Hn [k Hk]%bool_decide_eq_true.
      unfold lower. rewrite fmap_drop. fold (lower name). rewrite Hk.
      apply (f_equal length) in Hk as Hl.
      rewrite lower_length, length_app in Hl.
      replace (length name - n) with (length k) by lia.
      by rewrite drop_app_length. }
    destruct (endswith (lower name) (py ".exe")) eqn:H1;
      [|destruct (endswith (lower name) (py "-script.py")) eqn:H2;
        [|destruct (endswith (lower name) (py ".pya")) eqn:H3]];
      intros Hep%entry_point_test.
    + exists (take (length name - 4) name), (drop (length name - 4) name).
      rewrite take_drop. split_and!; [done..|]. right.
      rewrite (Hdrop (py ".exe")) by done. left.
    + exists (take (length name - 10) name), (drop (length name - 10) name).
      rewrite take_drop. split_and!; [done..|]. right.
      rewrite (Hdrop (py "-script.py")) by done. right; left.
    + exists (take (length name - 4) name), (drop (length name - 4) name).
      rewrite take_drop. split_and!; [done..|]. right.
      rewrite (Hdrop (py ".pya")) by done. right; right; left.
    + exists name, []. rewrite app_nil_r. auto.
Qed.
End WrapperFacts.

(** ** Installing a wheel: the files that move *)

Section MoveFacts.
Import Exec Posix Install.
Context (make_path_relative : str → str → str).
Context (req_project_name wheeldir lib_dir : str).

#[local] Abbreviation clobber_subdir := (clobber_subdir req_project_name).
#[local] Abbreviation clobber_file :=
  (clobber_file make_path_relative wheeldir lib_dir).
#[local] Abbreviation clobber_entry :=
  (clobber_entry make_path_relative req_project_name wheeldir lib_dir).
#[local] Abbreviation clobber :=
  (clobber make_path_relative req_project_name wheeldir lib_dir).

(** What a loop leaves alone when every turn does. *)
Lemma for_each_keeps {A T} (keep : state → T) (l : list A)
    (body : A → M state unit) :
  (∀ x st r st', body x st = (r, st') → keep st' = keep st) →
  ∀ st r st', for_each l body st = (r, st') → keep st' = keep st.
Proof.
  intros Hbody. induction l as [|x l IH]; intros st r st'; cbn [for_each].
  - by intros [= _ <-].
  - unfold bnd. destruct (body x st) as [[e|[]] st1] eqn:H1.
    + intros [= _ <-]. by eapply Hbody.
    + intros H. etrans; [by eapply IH|by eapply Hbody].
Qed.

Lemma clobber_subdir_keeps (dest : str) (is_base : bool) (basedir s : str)
    (st : state) (r : result unit) (st' : state) :
  clobber_subdir dest is_base basedir s st = (r, st') →
  (fs st', installed st', changed st', generated st')
  = (fs st, installed st, changed st, generated st).
Proof.
  unfold Install.clobber_subdir.
  destruct (_ && endswith _ _); [by intros [= _ <-]|].
  destruct (is_base && _); [|by intros [= _ <-]].
  unfold bnd, get. cbv beta iota.
  destruct (info_dir st); by intros [= _ <-].
Qed.

(** One file without a fixer: the move, and nothing else on disk. *)
Lemma clobber_file_move (dir dest basedir : str) (filter : option (str → bool))
    (f : str) (st : state) (st' : state) :
  clobber_file dir dest basedir None filter f st = (inr tt, st') →
  apply_moves
    ((λ f, (join dir f, join3 dest basedir f))
     <$> List.filter (λ f, negb match filter with
                                | Some flt => flt f
                                | None => false
                                end) [f]) (fs st) = Some (fs st')
  ∧ (changed st', generated st') = (changed st, generated st).
Proof.
  unfold Install.clobber_file. cbn [List.filter].
  destruct (match filter with Some flt => flt f | None => false end);
    cbn [negb fmap list_fmap apply_moves].
  - by intros [= <-].
  - unfold bnd, shutil_move, ret, record_installed, modify, bnd.
    cbn [truthy default]. destruct (fs st !! join dir f) as [data|]; [|done].
    by intros [= <-].
Qed.

Lemma apply_moves_app (m1 m2 : list (str * str)) (files : gmap str str) :
  apply_moves (m1 ++ m2) files = apply_moves m1 files ≫= apply_moves m2.
Proof.
  revert files. induction m1 as [|[s d] m1 IH]; intros files; [done|].
  simpl. destruct (files !! s); [apply IH|done].
Qed.

Lemma files_moves (dir dest basedir : str) (filter : option (str → bool))
    (files : list str) (st st' : state) :
  for_each files (clobber_file dir dest basedir None filter) st
    = (inr tt, st') →
  apply_moves
    ((λ f, (join dir f, join3 dest basedir f))
     <$> List.filter (λ f, negb match filter with
                                | Some flt => flt f
                                | None => false
                                end) files) (fs st) = Some (fs st')
  ∧ (changed st', generated st') = (changed st, generated st).
Proof.
  revert st. induction files as [|f files IH]; intros st; cbn [for_each].
  - by intros [= <-].
  - unfold bnd.
    destruct (clobber_file dir dest basedir None filter f st)
      as [[e|[]] st1] eqn:H1; [done|].
    intros H. apply clobber_file_move in H1 as [Hm1 Hk1].
    apply IH in H as [Hm Hk].
    change (f :: files) with ([f] ++ files).
    rewrite List.filter_app, fmap_app, apply_moves_app, Hm1. simpl.
    split; [done|congruence].
Qed.

Lemma entry_moves_run (source dest : str) (is_base : bool)
    (filter : option (str → bool)) (entry : str * list str * list str)
    (st st' : state) :
  clobber_entry source dest is_base None filter entry st = (inr tt, st') →
  apply_moves (entry_moves source dest is_base filter entry) (fs st)
    = Some (fs st')
  ∧ (changed st', generated st') = (changed st, generated st).
Proof.
  destruct entry as [[dir subdirs] files].
  unfold Install.clobber_entry, entry_moves.
  destruct (skipped source is_base dir); [by intros [= <-]|].
  unfold bnd.
  destruct (for_each subdirs _ st) as [[e|[]] st1] eqn:H1; [done|].
  intros H. apply files_moves in H as [Hm Hk].
  pose proof (for_each_keeps
                (λ st, (fs st, installed st, changed st, generated st))
                subdirs _
                (clobber_subdir_keeps dest is_base (basedir_of source dir))
                _ _ _ H1) as [= Hfs _ Hch Hgen].
  rewrite <- Hfs. split; [done|congruence].
Qed.

Lemma walk_moves_run (walk : list (str * list str * list str))
    (source dest : str) (is_base : bool) (filter : option (str → bool))
    (st st' : state) :
  clobber walk source dest is_base None filter st = (inr tt, st') →
  apply_moves (walk_moves source dest is_base filter walk) (fs st)
    = Some (fs st')
  ∧ (changed st', generated st') = (changed st, generated st).
Proof.
  unfold Install.clobber, walk_moves. revert st.
  induction walk as [|entry walk IH]; intros st; cbn [for_each].
  - by intros [= <-].
  - unfold bnd.
    destruct (clobber_entry source dest is_base None filter entry st)
      as [[e|[]] st1] eqn:H1; [done|].
    intros H. apply entry_moves_run in H1 as [Hm1 Hk1].
    apply IH in H as [Hm Hk].
    rewrite bind_cons, apply_moves_app, Hm1. simpl.
    split; [done|congruence].
Qed.

(** Moves whose destinations are all different and none of them a
    source: every file arrives with the content it had, no source is
    left behind, and no other path changes. *)
Lemma apply_moves_spec (moves : list (str * str)) (files files' : gmap str str) :
  apply_moves moves files = Some files' →
  NoDup moves.*2 →
  (∀ s d, s ∈ moves.*1 → d ∈ moves.*2 → s ≠ d) →
  (∀ src dst, (src, dst) ∈ moves →
     is_Some (files !! src) ∧ files' !! dst = files !! src
     ∧ files' !! src = None)
  ∧ (∀ p, p ∉ moves.*1 → p ∉ moves.*2 → files' !! p = files !! p).
Proof.
  revert files. induction moves as [|[s d] moves IH]; intros files.
  - intros [= <-] _ _. split; [|done]. intros src dst H.
    by apply elem_of_nil in H.
  - cbn [apply_moves]. destruct (files !! s) as [data|] eqn:Hs; [|done].
    intros Hrun Hnd Hdisj. rewrite fmap_cons in Hnd.
    pose proof (NoDup_cons_1_1 _ _ Hnd) as Hd.
    apply NoDup_cons_1_2 in Hnd. cbn [snd] in Hd.
    assert (s ≠ d) as Hsd by (apply Hdisj; rewrite fmap_cons; left).
    destruct (IH _ Hrun Hnd) as [Hmoved Hframe].
    { intros s' d' Hs' Hd'. apply Hdisj; rewrite fmap_cons; by right. }
    assert (s ∉ moves.*1) as Hs1.
    { intros Hin. apply list_elem_of_fmap in Hin as ([s' d'] & -> & Hin).
      destruct (Hmoved _ _ Hin) as [[x Hx] _]. cbn [fst] in Hx.
      rewrite lookup_insert_ne, lookup_delete_eq in Hx by done. done. }
    assert (s ∉ moves.*2) as Hs2.
    { intros Hin. eapply Hdisj; [|rewrite fmap_cons; right; exact Hin|done].
      rewrite fmap_cons. left. }
    assert (d ∉ moves.*1) as Hd1.
    { intros Hin. eapply Hdisj; [rewrite fmap_cons; right; exact Hin| |done].
      rewrite fmap_cons. left. }
    split.
    + intros src dst [[= -> ->]|Hin]%elem_of_cons.
      * split_and!; [by eexists| |].
        -- rewrite Hframe, lookup_insert_eq by done. done.
        -- rewrite Hframe, lookup_insert_ne, lookup_delete_eq by done. done.
      * destruct (Hmoved _ _ Hin) as ([x Hx] & Hdst & Hsrc).
        assert (src ≠ d) as Hne1.
        { apply Hdisj; rewrite fmap_cons.
          - right. apply list_elem_of_fmap. by exists (src, dst).
          - left. }
        assert (src ≠ s) as Hne2.
        { intros ->. apply Hs1. apply list_elem_of_fmap. by exists (s, dst). }
        rewrite lookup_insert_ne, lookup_delete_ne in Hx, Hdst by done.
        split_and!; [by eexists|done..].
    + intros p Hp1 Hp2. rewrite fmap_cons in Hp1, Hp2.
      apply not_elem_of_cons in Hp1 as [? ?].
      apply not_elem_of_cons in Hp2 as [? ?]. cbn [fst snd] in *.
      rewrite Hframe, lookup_insert_ne, lookup_delete_ne by done. done.
Qed.

(** X14: a call of [clobber] without a fixer that ends well has moved
    every file of the directories it entered that the filter let
    through, to its place under [dest], with the content it had in the
    archive; no such file is left in the archive, no other path on disk
    has changed, and nothing has been marked as changed or generated.
    This is so when no two files go to the same place and no file goes
    where another one comes from. *)
Theorem clobber_moves_intact (walk : list (str * list str * list str))
    (source dest : str) (is_base : bool) (filter : option (str → bool))
    (st st' : state) :
  let moves := walk_moves source dest is_base filter walk in
  clobber walk source dest is_base None filter st = (inr tt, st') →
  NoDup moves.*2 →
  Forall (λ s, s ∉ moves.*2) moves.*1 →
  (∀ src dst, (src, dst) ∈ moves →
     is_Some (fs st !! src) ∧ fs st' !! dst = fs st !! src
     ∧ fs st' !! src = None)
  ∧ (∀ p, p ∉ moves.*1 → p ∉ moves.*2 → fs st' !! p = fs st !! p)
  ∧ changed st' = changed st ∧ generated st' = generated st.
Proof.
  intros moves Hrun Hnd Hdisj.
  apply walk_moves_run in Hrun as [Hm [= Hch Hgen]]. fold moves in Hm.
  destruct (apply_moves_spec _ _ _ Hm Hnd) as [H1 H2]; [|done].
  intros s d Hs Hd ->. rewrite list.Forall_forall in Hdisj.
  by apply (Hdisj d).
Qed.
End MoveFacts.

(** The wheel of [foo]: its package file arrives under the library
    directory as it was. *)
Lemma clobber_moves_intact_witness :
  let t := Install.Dir
             [(py "foo", Install.Dir [] [py "__init__.py"]);
              (py "foo-1.0.dist-info", Install.Dir [] [py "RECORD"])] [] in
  let files : gmap str str :=
    {[ py "/tmp/w/foo/__init__.py" := py "import os";
       py "/tmp/w/foo-1.0.dist-info/RECORD" := py "foo/__init__.py,," ]} in
  ∃ st',
    Install.clobber Install.relative_to (py "foo") (py "/tmp/w")
      (py "/env/lib") (Install.os_walk (py "/tmp/w/") t) (py "/tmp/w/")
      (py "/env/lib") true None None (Install.initial files) = (inr tt, st')
    ∧ Install.fs st' !! py "/env/lib/foo/__init__.py" = Some (py "import os")
    ∧ Install.fs st' !! py "/tmp/w/foo/__init__.py" = None.
Proof.
  intros t files.
  set (run := Install.clobber Install.relative_to (py "foo") (py "/tmp/w")
      (py "/env/lib") (Install.os_walk (py "/tmp/w/") t) (py "/tmp/w/")
      (py "/env/lib") true None None (Install.initial files)).
  assert (run = (inr tt, run.2)) as Hrun by (vm_compute; reflexivity).
  exists (run.2). split; [exact Hrun|].
  destruct (clobber_moves_intact Install.relative_to (py "foo") (py "/tmp/w")
               (py "/env/lib") (Install.os_walk (py "/tmp/w/") t)
               (py "/tmp/w/") (py "/env/lib") true None
               (Install.initial files) run.2 Hrun) as (Hmoved & _).
  - apply (bool_decide_unpack _). vm_compute. exact I.
  - apply (bool_decide_unpack _). vm_compute. exact I.
  - destruct (Hmoved (py "/tmp/w/foo/__init__.py")
                (py "/env/lib/foo/__init__.py")) as (_ & Hdst & Hsrc).
    + apply (bool_decide_unpack _). vm_compute. exact I.
    + split; [|exact Hsrc]. rewrite Hdst. vm_compute. reflexivity.
Defined.

Section DataCallFacts.
Import Exec Posix Install.
Context (make_path_relative : str → str → str).
Context (sys_executable os_linesep : str).
Context (req_project_name wheeldir lib_dir : str).

#[local] Abbreviation fix_script :=
  (Install.fix_script sys_executable os_linesep).
#[local] Abbreviation clobber :=
  (clobber make_path_relative req_project_name wheeldir lib_dir).

Lemma data_step_bnd {A B} (m : M state A) (f : A → M state B) :
  data_step m → (∀ a, data_step (f a)) → data_step (bnd m f).
Proof.
  intros Hm Hf st r st'. unfold bnd.
  destruct (m st) as [[e|a] st1] eqn:H1.
  - intros [= <- <-]. destruct (Hm _ _ _ H1) as (? & ? & He).
    split_and!; [done..|]. intros e' [= <-]. by apply He.
  - intros H2. destruct (Hm _ _ _ H1) as ([= ? ? ?] & ? & _).
    destruct (Hf a _ _ _ H2) as ([= ? ? ?] & ? & He).
    split_and!; [congruence|by etrans|done].
Qed.

Lemma data_step_for_each {A} (l : list A) (body : A → M state unit) :
  (∀ x, data_step (body x)) → data_step (for_each l body).
Proof.
  intros Hbody. induction l as [|x l IH]; cbn [for_each].
  - intros st r st' [= <- <-]. split_and!; [done..|]. by intros e.
  - apply data_step_bnd; [apply Hbody|]. by intros _.
Qed.

Lemma data_step_pure {A} (m : M state A) :
  (∀ st, ∃ a, m st = (inr a, st)) → data_step m.
Proof.
  intros Hm st r st' H. destruct (Hm st) as [a Ha]. rewrite Ha in H.
  injection H as <- <-. split_and!; [done..|]. by intros e.
Qed.

Lemma clobber_data_step (walk : list (str * list str * list str))
    (source dest : str) (fixer : option (str → M state (option bool)))
    (filter : option (str → bool)) :
  fixer = None ∨ fixer = Some fix_script →
  data_step (clobber walk source dest false fixer filter).
Proof.
  intros Hfixer. unfold Install.clobber.
  apply data_step_for_each. intros [[dir subdirs] files].
  unfold clobber_entry. cbn [skipped andb].
  apply data_step_bnd; [|intros _]; apply data_step_for_each.
  - intros s. unfold clobber_subdir. cbn [andb].
    apply data_step_pure. intros st0. by exists tt.
  - intros f. unfold clobber_file.
    destruct (match filter with Some flt => flt f | None => false end).
    { apply data_step_pure. intros st0. by exists tt. }
    apply data_step_bnd; [|intros _; apply data_step_bnd].
    + intros st0 r0 st0'. unfold shutil_move.
      destruct (fs st0 !! join dir f).
      * intros [= <- <-]. split_and!; [done..|]. by intros e.
      * intros [= <- <-]. split_and!; [done..|]. intros e [= <-]. eauto.
    + destruct Hfixer as [-> | ->].
      * apply data_step_pure. intros st0. by eexists.
      * intros st0 r0 st0'. unfold Install.fix_script.
        destruct (fs st0 !! _); [destruct (negb _)|];
          intros [= <- <-]; (split_and!; [done..|]); by intros e.
    + intros ch. unfold record_installed.
      apply data_step_bnd; [|intros _].
      * intros st0 r0 st0' [= <- <-]. split_and!; [done..|]. by intros e.
      * destruct (truthy ch).
        -- intros st0 r0 st0' [= <- <-].
           split_and!; [done| |by intros e].
           intros x Hx. simpl. apply elem_of_union. by right.
        -- apply data_step_pure. intros st0. by exists tt.
Qed.

(** X15: the calls of [clobber] for the data directories, which are not
    base calls and have [fix_script] for a fixer or none. Whatever the
    walk and the filter, such a call leaves the metadata directory, the
    list of data directories and the generated files as they are, takes
    nothing out of [changed], and can fail in one way only: with the
    [IOError] of a file that is not there to be moved. It never raises
    the assertion of the base call. *)
Theorem clobber_data_call (walk : list (str * list str * list str))
    (source dest : str) (fixer : option (str → M state (option bool)))
    (filter : option (str → bool)) (st : state) (r : result unit)
    (st' : state) :
  fixer = None ∨ fixer = Some fix_script →
  clobber walk source dest false fixer filter st = (r, st') →
  info_dir st' = info_dir st ∧ data_dirs st' = data_dirs st
  ∧ generated st' = generated st
  ∧ changed st ⊆ changed st'
  ∧ ∀ e, r = inl e → ∃ p, e = IOError p.
Proof.
  intros Hfixer Hrun.
  destruct (clobber_data_step walk source dest fixer filter Hfixer
              _ _ _ Hrun) as ([= ? ? ?] & ? & ?).
  done.
Qed.
End DataCallFacts.

(** A script of a data directory, fixed on its way to the scripts
    directory. *)
Lemma clobber_data_call_witness :
  let files : gmap str str :=
    {[ py "/tmp/w/foo-1.0.data/scripts/tool" := py "#!python" ]} in
  let st := Install.initial files in
  let run :=
    Install.clobber Install.relative_to (py "foo") (py "/tmp/w")
      (py "/env/lib")
      [(py "/tmp/w/foo-1.0.data/scripts", [], [py "tool"])]
      (py "/tmp/w/foo-1.0.data/scripts") (py "/env/bin") false
      (Some (Install.fix_script (py "/usr/bin/python") ["010"])) None st in
  Install.info_dir run.2 = [] ∧ Install.data_dirs run.2 = [].
Proof.
  intros files st run.
  destruct (clobber_data_call Install.relative_to (py "/usr/bin/python")
              ["010"] (py "foo") (py "/tmp/w") (py "/env/lib")
              [(py "/tmp/w/foo-1.0.data/scripts", [], [py "tool"])]
              (py "/tmp/w/foo-1.0.data/scripts") (py "/env/bin")
              (Some (Install.fix_script (py "/usr/bin/python") ["010"]))
              None st run.1 run.2) as (H1 & H2 & _).
  - by right.
  - apply surjective_pairing.
  - split; [exact H1|exact H2].
Defined.

(** ** Installing a wheel: the data directories the base call finds *)

Section DataDirsFound.
Import Exec Posix Install.
Context (make_path_relative : str → str → str).
Context (req_project_name wheeldir lib_dir : str).

#[local] Abbreviation clobber_subdir := (clobber_subdir req_project_name).
#[local] Abbreviation clobber_file :=
  (clobber_file make_path_relative wheeldir lib_dir).
#[local] Abbreviation clobber_entry :=
  (clobber_entry make_path_relative req_project_name wheeldir lib_dir).
#[local] Abbreviation clobber :=
  (clobber make_path_relative req_project_name wheeldir lib_dir).

Lemma clobber_subdir_data (dest basedir s : str) (st st' : state) :
  clobber_subdir dest true basedir s st = (inr tt, st') →
  data_dirs st'
  = data_dirs st
    ++ (if bool_decide (basedir = []) && endswith (join3 dest basedir s)
                                           (py ".data")
        then [s] else []).
Proof.
  unfold Install.clobber_subdir. cbn [andb].
  destruct (bool_decide (basedir = []) && endswith _ _).
  - by intros [= <-].
  - rewrite app_nil_r. destruct (is_info_dir_name req_project_name s).
    + unfold bnd, get. cbv beta iota.
      destruct (info_dir st); [|done]. by intros [= <-].
    + by intros [= <-].
Qed.

Lemma subdirs_data (dest basedir : str) (subdirs : list str)
    (st st' : state) :
  for_each subdirs (clobber_subdir dest true basedir) st = (inr tt, st') →
  data_dirs st'
  = data_dirs st
    ++ (if bool_decide (basedir = []) then
          List.filter (λ s, endswith (join3 dest basedir s) (py ".data"))
            subdirs
        else []).
Proof.
  revert st. induction subdirs as [|s rest IH]; intros st; cbn [for_each].
  - intros [= <-]. destruct (bool_decide _); by rewrite app_nil_r.
  - unfold bnd.
    destruct (clobber_subdir dest true basedir s st) as [[e|[]] st1] eqn:H1;
      [done|].
    intros Hrest. apply clobber_subdir_data in H1. apply IH in Hrest.
    rewrite Hrest, H1, <- (assoc_L (++)). f_equal.
    cbn [List.filter]. destruct (bool_decide (basedir = [])); [|done].
    cbn [andb]. by destruct (endswith _ _).
Qed.

Lemma clobber_file_data (dir dest basedir : str)
    (filter : option (str → bool)) (f : str) (st : state)
    (r : result unit) (st' : state) :
  clobber_file dir dest basedir None filter f st = (r, st') →
  data_dirs st' = data_dirs st.
Proof.
  unfold Install.clobber_file.
  destruct (match filter with Some flt => flt f | None => false end).
  - by intros [= _ <-].
  - unfold bnd, shutil_move, ret, record_installed, modify, bnd.
    cbn [truthy default]. destruct (fs st !! join dir f); by intros [= _ <-].
Qed.

Lemma walk_data (walk : list (str * list str * list str))
    (source dest : str) (st st' : state) :
  clobber walk source dest true None None st = (inr tt, st') →
  data_dirs st' = data_dirs st ++ (walk ≫= entry_data_dirs source dest).
Proof.
  unfold Install.clobber. revert st.
  induction walk as [|[[dir subdirs] files] walk IH]; intros st;
    cbn [for_each].
  - intros [= <-]. by rewrite app_nil_r.
  - unfold bnd at 1.
    destruct (clobber_entry source dest true None None (dir, subdirs, files) st)
      as [[e|[]] st1] eqn:H1; [done|].
    intros Hrest. apply IH in Hrest. rewrite Hrest, bind_cons, (assoc_L (++)).
    f_equal. clear Hrest IH. unfold Install.clobber_entry in H1.
    unfold entry_data_dirs.
    destruct (skipped source true dir) eqn:Hskip.
    + injection H1 as <-. unfold skipped in Hskip. cbn [andb] in Hskip.
      case_bool_decide as Hbase; [|by rewrite app_nil_r].
      rewrite Hbase in Hskip. cbn [first_component] in Hskip.
      apply bool_decide_eq_true in Hskip as [k Hk]. by destruct k.
    + unfold bnd in H1.
      destruct (for_each subdirs _ st) as [[e|[]] st0] eqn:H0; [done|].
      apply subdirs_data in H0. rewrite <- H0.
      revert H1. generalize st0. clear.
      induction files as [|f files IH]; intros st0; cbn [for_each].
      * by intros [= <-].
      * unfold bnd.
        destruct (clobber_file dir dest (basedir_of source dir) None None f st0)
          as [[e|[]] st2] eqn:H2; [done|].
        intros Hrest. apply IH in Hrest. apply clobber_file_data in H2.
        congruence.
Qed.

(** The directories a walk visits lie below its top. *)
Lemma join_prefix (a b : str) :
  startswith b [sep] = false → a `prefix_of` join a b.
Proof.
  intros Hb. unfold join. rewrite Hb. destruct (_ || _).
  - by exists b.
  - by exists (sep :: b).
Qed.

Lemma os_walk_prefix (t : tree) :
  ∀ top entry,
    plain_names t → entry ∈ os_walk top t → top `prefix_of` entry.1.1.
Proof.
  revert t. fix IH 1. intros [subdirs files] top entry Hplain.
  cbn [os_walk]. intros [->|Hin]%elem_of_cons; [done|].
  cbn [plain_names] in Hplain.
  induction subdirs as [|[n d] ds IHds]; [by apply elem_of_nil in Hin|].
  destruct Hplain as ([Hn Habs] & Hd & Hds).
  apply elem_of_app in Hin as [Hin|Hin].
  - etrans; [by apply join_prefix|]. by apply (IH d).
  - by apply IHds.
Qed.

#[local] Abbreviation source := (Install.source wheeldir).

Lemma join_source (n : str) :
  startswith n [sep] = false → join source n = source ++ n.
Proof.
  intros Hn. unfold join. rewrite Hn.
  assert (endswith source [sep] = true) as ->.
  { apply bool_decide_eq_true. by eexists. }
  by rewrite orb_true_r.
Qed.

(** Below the top of a tree with plain names, no directory is taken for
    the top. *)
Lemma below_top_basedir (n : str) (d : tree)
    (entry : str * list str * list str) :
  n ≠ [] → startswith n [sep] = false → plain_names d →
  entry ∈ os_walk (join source n) d →
  basedir_of source entry.1.1 ≠ [].
Proof.
  intros Hne Hn Hd Hin. apply os_walk_prefix in Hin as [k Hk]; [|done].
  rewrite join_source in Hk by done. unfold basedir_of. rewrite Hk.
  rewrite <- (assoc_L (++)), drop_app_length.
  destruct n as [|x n]; [done|]. cbn [app lstrip].
  rewrite decide_False; [done|]. intros ->.
  by apply bool_decide_eq_false in Hn; apply Hn; eexists.
Qed.

Lemma endswith_join3_data (dest s : str) :
  startswith s [sep] = false →
  endswith (join3 dest [] s) (py ".data") = endswith s (py ".data").
Proof.
  intros Hs. unfold join3.
  assert (∃ X, join dest [] = X ∧ (X = [] ∨ ∃ X', X = X' ++ [sep]))
    as (X & -> & HX).
  { unfold join. change (startswith [] [sep]) with false. cbv iota.
    destruct (bool_decide_reflect (dest = [])) as [->|Hd]; cbn [orb].
    - exists []. auto.
    - destruct (endswith dest [sep]) eqn:He.
      + exists (dest ++ []). split; [done|]. right.
        apply bool_decide_eq_true in He as [k ->].
        exists k. by rewrite app_nil_r.
      + exists (dest ++ [sep]). eauto. }
  assert (join X s = X ++ s) as ->.
  { unfold join. rewrite Hs. destruct HX as [->|[X' ->]]; [done|].
    assert (endswith (X' ++ [sep]) [sep] = true) as ->
      by (apply bool_decide_eq_true; by eexists).
    by rewrite orb_true_r. }
  unfold endswith. apply bool_decide_ext. split.
  - intros [k Hk]. apply app_eq_app in Hk as [m [[-> Hm]|[-> ->]]].
    + destruct m as [|c m _] using rev_ind.
      { exists []. by rewrite Hm. }
      exfalso. destruct HX as [HX|[X' HX]].
      * by apply app_eq_nil in HX as [_ [_ ?]%app_eq_nil].
      * rewrite (assoc_L (++)) in HX. apply app_inj_tail in HX as [_ ->].
        assert (sep ∈ py ".data") as Hin.
        { rewrite Hm. apply elem_of_app. left. apply elem_of_app. right.
          left. }
        vm_compute in Hin. repeat (apply elem_of_cons in Hin as [Hin|Hin];
          [discriminate|]). by apply elem_of_nil in Hin.
    + by exists m.
  - intros [k ->]. exists (X ++ k). by rewrite (assoc_L (++)).
Qed.

(** X25: the data directories of a wheel. When the base call of [clobber]
    on an unpacked wheel ends well, it has put in [data_dirs] the names
    of the directories at the top of the wheel that end in [.data], in
    the order of the listing, and nothing else: a directory of that name
    further down is an ordinary directory. The directories of the tree
    have plain names: none is empty or starts with a separator. *)
Theorem clobber_base_data_dirs (t : tree) (st st' : state) :
  plain_names t →
  clobber (os_walk source t) source lib_dir true None None st = (inr tt, st') →
  data_dirs st'
  = data_dirs st
    ++ List.filter (λ s, endswith s (py ".data")) (top_level_dirs t).
Proof.
  intros Hplain Hrun. apply walk_data in Hrun. rewrite Hrun. f_equal.
  destruct t as [subdirs files]. cbn [os_walk top_level_dirs].
  rewrite bind_cons. unfold entry_data_dirs at 1.
  assert (basedir_of source source = []) as Hbase.
  { unfold basedir_of. by rewrite drop_all. }
  rewrite Hbase, bool_decide_eq_true_2 by done.
  cbn [plain_names] in Hplain.
  assert (∀ (ds : list (str * tree)) (top : str → str),
            (∀ n d e, (n, d) ∈ ds → e ∈ os_walk (top n) d →
                      basedir_of source e.1.1 ≠ []) →
            (fix walk_all (ds : list (str * tree)) :=
               match ds with
               | [] => []
               | (n, d) :: ds' => os_walk (top n) d ++ walk_all ds'
               end) ds ≫= entry_data_dirs source lib_dir = []) as Hbelow.
  { clear. intros ds top. induction ds as [|[n d] ds IH]; intros Hall.
    - done.
    - rewrite bind_app, IH, app_nil_r.
      + assert (∀ e, e ∈ os_walk (top n) d →
                     entry_data_dirs source lib_dir e = []) as Hnil.
        { intros [[dir sub] fl] He. unfold entry_data_dirs.
          rewrite bool_decide_eq_false_2; [done|].
          apply (Hall n d _ ltac:(left) He). }
        induction (os_walk (top n) d) as [|e l IHl]; [done|].
        rewrite bind_cons, Hnil, IHl; [done| |left].
        intros e' He'. apply Hnil. by right.
      + intros n' d' e Hin. apply Hall. by right. }
  rewrite Hbelow, app_nil_r.
  - clear Hbelow Hrun. induction subdirs as [|[n d] ds IH]; [done|].
    destruct Hplain as ([Hn Habs] & Hd & Hds). cbn [fmap list_fmap fst].
    cbn [List.filter]. rewrite endswith_join3_data by done.
    rewrite IH by done. done.
  - intros n d e Hin He.
    assert (n ≠ [] ∧ startswith n [sep] = false ∧ plain_names d)
      as (Hn & Habs & Hd).
    { clear He Hbelow Hrun. induction subdirs as [|[n' d'] ds IH];
        [by apply elem_of_nil in Hin|].
      destruct Hplain as ([Hn Habs] & Hd & Hds).
      apply elem_of_cons in Hin as [[= -> ->]|Hin]; [done|]. by apply IH. }
    by eapply below_top_basedir.
Qed.
End DataDirsFound.

(** A wheel of [foo] with a data directory: it is recorded, and the
    directory [old.data] inside the package is not. *)
Lemma clobber_base_data_dirs_witness :
  let t := Install.Dir
             [(py "foo",
               Install.Dir [(py "old.data", Install.Dir [] [])]
                 [py "__init__.py"]);
              (py "foo-1.0.data",
               Install.Dir [(py "scripts", Install.Dir [] [py "tool"])] []);
              (py "foo-1.0.dist-info", Install.Dir [] [py "RECORD"])] [] in
  let files : gmap str str :=
    {[ py "/tmp/w/foo/__init__.py" := [];
       py "/tmp/w/foo-1.0.data/scripts/tool" := py "#!python";
       py "/tmp/w/foo-1.0.dist-info/RECORD" := [] ]} in
  let run :=
    Install.clobber Install.relative_to (py "foo") (py "/tmp/w")
      (py "/env/lib") (Install.os_walk (Install.source (py "/tmp/w")) t)
      (Install.source (py "/tmp/w")) (py "/env/lib") true None None
      (Install.initial files) in
  run.1 = inr tt ∧ Install.data_dirs run.2 = [py "foo-1.0.data"].
Proof.
  intros t files run.
  assert (run = (inr tt, run.2)) as Hrun by (vm_compute; reflexivity).
  split; [by rewrite Hrun|].
  rewrite (clobber_base_data_dirs Install.relative_to (py "foo") (py "/tmp/w")
             (py "/env/lib") t (Install.initial files) run.2).
  - vm_compute. reflexivity.
  - cbn. repeat split; discriminate.
  - exact Hrun.
Defined.

(** ** Installing a wheel: the data directories *)

Section DataLoopFacts.
Import Exec Posix Install DataDirs.
Context (make_path_relative : str → str → str).
Context (sys_executable os_linesep : str).
Context (req_project_name wheeldir lib_dir : str).
Context (scheme : gmap str str).
Context (listdir : str → list str).
Context (walk : str → list (str * list str * list str)).
Context (console gui : gmap str str).

#[local] Abbreviation data_subdir :=
  (data_subdir make_path_relative sys_executable os_linesep req_project_name
     wheeldir lib_dir scheme walk console gui).
#[local] Abbreviation data_subdirs :=
  (data_subdirs make_path_relative sys_executable os_linesep req_project_name
     wheeldir lib_dir scheme walk console gui).
#[local] Abbreviation data_loop :=
  (data_loop make_path_relative sys_executable os_linesep req_project_name
     wheeldir lib_dir scheme listdir walk console gui).
#[local] Abbreviation wrapper := (is_entrypoint_wrapper console gui).

Lemma data_subdir_filter (datadir : str) (flt flt1 : option (str → bool))
    (subdir : str) (st st1 : state) :
  data_subdir datadir flt subdir st = (inr flt1, st1) →
  flt1 = if decide (subdir = py "scripts") then Some wrapper else flt.
Proof.
  unfold DataDirs.data_subdir. case_decide.
  - destruct (scheme !! subdir); [|done].
    destruct (clobber _ _ _ _ _ _ _ _ _ _ _) as [[e|[]] st']; [done|].
    by intros [= <- _].
  - destruct (scheme !! subdir); [|done].
    destruct (clobber _ _ _ _ _ _ _ _ _ _ _) as [[e|[]] st']; [done|].
    by intros [= <- _].
Qed.

(** X16: the filter outlives the directory it was set for. The listing of
    a data directory can be cut anywhere: what is installed from the
    sub-directories after the cut depends on those before it only
    through the files they moved and through the variable [filter], and
    that variable holds the test for entry point wrappers as soon as
    [scripts] has come up, and what it held at the start until then. So
    the files of a sub-directory that is listed after [scripts] are
    filtered as the scripts are, and the same files are not when the
    listing has them before [scripts]. *)
Theorem data_subdirs_carries_filter (datadir : str)
    (flt : option (str → bool)) (before after : list str) (st : state) :
  data_subdirs datadir flt (before ++ after) st
  = match data_subdirs datadir flt before st with
    | (inl e, st1) => (inl e, st1)
    | (inr flt1, st1) => data_subdirs datadir flt1 after st1
    end
  ∧ ∀ flt1 st1,
      data_subdirs datadir flt before st = (inr flt1, st1) →
      flt1 = if bool_decide (py "scripts" ∈ before) then Some wrapper
             else flt.
Proof.
  revert flt st. induction before as [|subdir before IH]; intros flt st.
  - split; [done|]. by intros flt1 st1 [= <- _].
  - cbn [app DataDirs.data_subdirs].
    destruct (data_subdir datadir flt subdir st) as [[e|flt0] st0] eqn:Hone.
    { split; [done|]. by intros flt1 st1. }
    destruct (IH flt0 st0) as [Happ Hflt]. split; [done|].
    intros flt1 st1 Hrest. rewrite (Hflt _ _ Hrest).
    apply data_subdir_filter in Hone as ->.
    destruct (decide (subdir = py "scripts")) as [->|Hne].
    + rewrite (bool_decide_eq_true_2 (py "scripts" ∈ py "scripts" :: before))
        by left.
      by destruct (bool_decide _).
    + destruct (bool_decide_reflect (py "scripts" ∈ before)) as [Hin|Hnin].
      * by rewrite bool_decide_eq_true_2 by (by right).
      * rewrite bool_decide_eq_false_2; [done|].
        intros [?|?]%elem_of_cons; done.
Qed.

Lemma data_subdirs_app (datadir : str) (flt : option (str → bool))
    (before after : list str) (st : state) :
  data_subdirs datadir flt (before ++ after) st
  = match data_subdirs datadir flt before st with
    | (inl e, st1) => (inl e, st1)
    | (inr flt1, st1) => data_subdirs datadir flt1 after st1
    end.
Proof.
  revert flt st. induction before as [|subdir before IH]; intros flt st.
  - done.
  - cbn [app DataDirs.data_subdirs].
    destruct (data_subdir datadir flt subdir st) as [[e|flt0] st0]; [done|].
    apply IH.
Qed.

(** X17: a sub-directory of a data directory that the scheme has no place
    for ends the installation with [KeyError], but only when its turn
    comes: the sub-directories listed before it have been installed by
    then and stay so, and those listed after it are not looked at. *)
Theorem data_subdirs_key_error (datadir : str) (flt flt1 : option (str → bool))
    (before after : list str) (subdir : str) (st st1 : state) :
  scheme !! subdir = None →
  data_subdirs datadir flt before st = (inr flt1, st1) →
  data_subdirs datadir flt (before ++ subdir :: after) st
  = (inl (KeyError subdir), st1).
Proof.
  intros Hkey Hbefore. rewrite data_subdirs_app, Hbefore.
  cbn [DataDirs.data_subdirs]. unfold DataDirs.data_subdir.
  rewrite Hkey. by case_decide.
Qed.

(** What a step of the loop over the data directories leaves alone, and
    how it can fail. *)
Lemma data_subdir_safe (datadir : str) (flt : option (str → bool))
    (subdir : str) (st : state) (r : data_exn + option (str → bool))
    (st' : state) :
  data_subdir datadir flt subdir st = (r, st') →
  (info_dir st', data_dirs st', generated st')
  = (info_dir st, data_dirs st, generated st)
  ∧ changed st ⊆ changed st'
  ∧ ∀ e, r = inl e →
         (∃ key, e = KeyError key ∧ scheme !! key = None)
         ∨ ∃ p, e = Raised (IOError p).
Proof.
  unfold DataDirs.data_subdir.
  set (ff := if decide (subdir = py "scripts") then _ else _).
  assert (ff.1 = None ∨ ff.1 = Some (fix_script sys_executable os_linesep))
    as Hfixer by (subst ff; case_decide; auto).
  destruct ff as [fixer filter]. cbn [fst] in Hfixer.
  destruct (scheme !! subdir) as [dest|] eqn:Hdest.
  - destruct (clobber _ _ _ _ _ _ _ _ _ _ _) as [[e|[]] st1] eqn:Hrun;
      intros [= <- <-];
      destruct (clobber_data_step make_path_relative sys_executable
                  os_linesep req_project_name wheeldir lib_dir _ _ _ _ _
                  Hfixer _ _ _ Hrun) as (? & ? & He);
      (split_and!; [done..|]).
    + intros e' [= <-]. right. destruct (He e) as [p ->]; eauto.
    + by intros e'.
  - intros [= <- <-]. split_and!; [done..|].
    intros e [= <-]. left. eauto.
Qed.

(** X18: the loop over the data directories as a whole. It leaves the
    metadata directory, the list of data directories and the generated
    files as they are and takes nothing out of [changed]; and it can
    fail in two ways only: with [KeyError], for a sub-directory whose
    name is no key of the scheme, and with the [IOError] of a file that
    is not there to be moved. *)
Theorem data_loop_safe (dirs : list str) (st : state)
    (r : data_exn + unit) (st' : state) :
  data_loop dirs st = (r, st') →
  info_dir st' = info_dir st ∧ data_dirs st' = data_dirs st
  ∧ generated st' = generated st
  ∧ changed st ⊆ changed st'
  ∧ ∀ e, r = inl e →
         (∃ key, e = KeyError key ∧ scheme !! key = None)
         ∨ ∃ p, e = Raised (IOError p).
Proof.
  assert (∀ datadir subdirs flt st r st',
            data_subdirs datadir flt subdirs st = (r, st') →
            (info_dir st', data_dirs st', generated st')
            = (info_dir st, data_dirs st, generated st)
            ∧ changed st ⊆ changed st'
            ∧ ∀ e, r = inl e →
                   (∃ key, e = KeyError key ∧ scheme !! key = None)
                   ∨ ∃ p, e = Raised (IOError p)) as Hsub.
  { clear. intros datadir subdirs.
    induction subdirs as [|subdir rest IH]; intros flt st r st'.
    - intros [= <- <-]. split_and!; [done..|]. by intros e.
    - cbn [DataDirs.data_subdirs].
      destruct (data_subdir datadir flt subdir st) as [[e|flt0] st0] eqn:Hone;
        apply data_subdir_safe in Hone as ([= ? ? ?] & ? & He0).
      + intros [= <- <-]. split_and!; [congruence|done|].
        intros e' [= <-]. by apply He0.
      + intros Hrest. apply IH in Hrest as ([= ? ? ?] & ? & He1).
        split_and!; [congruence|by etrans|done]. }
  revert st. induction dirs as [|datadir rest IH]; intros st.
  - intros [= <- <-]. split_and!; [done..|]. by intros e.
  - cbn [DataDirs.data_loop].
    destruct (data_subdirs datadir None _ st) as [[e|flt0] st0] eqn:Hone;
      apply Hsub in Hone as ([= ? ? ?] & ? & He0).
    + intros [= <- <-]. split_and!; [congruence..|done|].
      intros e' [= <-]. by apply He0.
    + intros Hrest. apply IH in Hrest as (? & ? & ? & ? & He1).
      split_and!; [congruence..|by etrans|done].
Qed.
End DataLoopFacts.

(** A data directory with [scripts], [headers] and a directory the
    scheme does not know. *)
Lemma data_subdirs_key_error_witness :
  let scheme : gmap str str :=
    {[ py "scripts" := py "/env/bin"; py "headers" := py "/env/include" ]} in
  let files : gmap str str :=
    {[ py "/tmp/w/foo-1.0.data/headers/foo.h" := py "#define FOO" ]} in
  let walk := λ source : str,
    if decide (source = py "/tmp/w/foo-1.0.data/headers")
    then [(source, [], [py "foo.h"])] else [] in
  ∃ st1,
    DataDirs.data_subdirs Install.relative_to (py "/usr/bin/python") ["010"]
      (py "foo") (py "/tmp/w") (py "/env/lib") scheme walk ∅ ∅
      (py "foo-1.0.data") None ([py "headers"] ++ py "docs" :: [py "scripts"])
      (Install.initial files)
    = (inl (DataDirs.KeyError (py "docs")), st1)
    ∧ Install.fs st1 !! py "/env/include/foo.h" = Some (py "#define FOO").
Proof.
  intros scheme files walk.
  set (run := DataDirs.data_subdirs Install.relative_to (py "/usr/bin/python")
                ["010"] (py "foo") (py "/tmp/w") (py "/env/lib") scheme walk
                ∅ ∅ (py "foo-1.0.data") None [py "headers"]
                (Install.initial files)).
  assert (run = (inr None, run.2)) as Hrun by (vm_compute; reflexivity).
  exists run.2. split.
  - apply (data_subdirs_key_error Install.relative_to (py "/usr/bin/python")
             ["010"] (py "foo") (py "/tmp/w") (py "/env/lib") scheme walk
             ∅ ∅ (py "foo-1.0.data") None None [py "headers"]
             [py "scripts"] (py "docs") (Install.initial files) run.2);
      [reflexivity|exact Hrun].
  - vm_compute. reflexivity.
Defined.

Lemma data_loop_safe_witness :
  let scheme : gmap str str := {[ py "headers" := py "/env/include" ]} in
  let listdir := λ _ : str, [py "headers"; py "docs"] in
  let walk := λ source : str,
    if decide (source = py "/tmp/w/foo-1.0.data/headers")
    then [(source, [], [py "foo.h"])] else [] in
  let run :=
    DataDirs.data_loop Install.relative_to (py "/usr/bin/python") ["010"]
      (py "foo") (py "/tmp/w") (py "/env/lib") scheme listdir walk ∅ ∅
      [py "foo-1.0.data"]
      (Install.initial {[ py "/tmp/w/foo-1.0.data/headers/foo.h" := [] ]}) in
  run.1 = inl (DataDirs.KeyError (py "docs"))
  ∧ Install.info_dir run.2 = [] ∧ Install.data_dirs run.2 = [].
Proof.
  intros scheme listdir walk run.
  destruct (data_loop_safe Install.relative_to (py "/usr/bin/python") ["010"]
              (py "foo") (py "/tmp/w") (py "/env/lib") scheme listdir walk
              ∅ ∅ [py "foo-1.0.data"]
              (Install.initial {[ py "/tmp/w/foo-1.0.data/headers/foo.h"
                                  := [] ]}) run.1 run.2)
    as (H1 & H2 & _).
  - apply surjective_pairing.
  - split_and!; [vm_compute; reflexivity|exact H1|exact H2].
Defined.

(** The order of the listing shows: a file named like an entry point,
    in a sub-directory that is listed after [scripts], stays in the
    archive; listed before [scripts], it is installed. *)
Example data_listing_order_shows :
  let scheme : gmap str str :=
    {[ py "scripts" := py "/env/bin"; py "data" := py "/env/share" ]} in
  let console : gmap str str := {[ py "tool" := py "foo:main" ]} in
  let files : gmap str str :=
    {[ py "/tmp/w/foo-1.0.data/data/tool" := py "payload" ]} in
  let walk := λ source : str,
    if decide (source = py "/tmp/w/foo-1.0.data/data")
    then [(source, [], [py "tool"])] else [] in
  let install := λ listing,
    (DataDirs.data_subdirs Install.relative_to (py "/usr/bin/python") ["010"]
       (py "foo") (py "/tmp/w") (py "/env/lib") scheme walk console ∅
       (py "foo-1.0.data") None listing (Install.initial files)).2 in
  Install.fs (install [py "scripts"; py "data"]) !! py "/env/share/tool"
  = None
  ∧ Install.fs (install [py "data"; py "scripts"]) !! py "/env/share/tool"
    = Some (py "payload").
Proof. split; vm_compute; reflexivity. Qed.

(** ** What a match says about the text *)

Section MatchedFacts.
Import Re.

Lemma lazy_loop_matched (p : ascii → bool) (k : str → caps → option caps)
    (s : str) (c m : caps) :
  lazy_loop p k s c = Some m →
  ∃ pre rest, s = pre ++ rest ∧ Forall (λ x, p x = true) pre
              ∧ k rest c = Some m.
Proof.
  induction s as [|x s IH]; simpl.
  - destruct (k [] c) eqn:Hk; [|done]. intros [= <-]. by exists [], [].
  - destruct (k (x :: s) c) eqn:Hk.
    + intros [= <-]. by exists [], (x :: s).
    + destruct (p x) eqn:Hx; [|done]. intros H.
      destruct (IH H) as (pre & rest & -> & Hpre & Hm).
      exists (x :: pre), rest. split_and!; [done| |done]. by constructor.
Qed.

(** The matcher is sound: when it finds a match, the string is a text
    the pattern can match and the rest that the continuation was given,
    and the groups are those of that text. *)
Lemma rmatch_matched (r : regex) (s : str) (c m : caps)
    (k : str → caps → option caps) :
  rmatch r s c k = Some m →
  ∃ pre rest c', s = pre ++ rest ∧ matched r pre rest c c'
                 ∧ k rest c' = Some m.
Proof.
  revert s c k.
  induction r as [|a|p|r1 IH1 r2 IH2|r1 IH1 r2 IH2|r IH|p|p|g r IH|];
    intros s c k; simpl.
  - intros H. by exists [], s, c.
  - destruct s as [|x s]; [done|].
    destruct (Ascii.eqb_spec x a) as [->|]; [|done].
    intros H. by exists [a], s, c.
  - destruct s as [|x s]; [done|]. destruct (p x) eqn:Hx; [|done].
    intros H. exists [x], s, c. split; [done|]. split; [|done].
    split; [eauto|done].
  - intros H. apply IH1 in H as (p1 & t1 & c1 & -> & H1 & H).
    apply IH2 in H as (p2 & t2 & c2 & -> & H2 & H).
    exists (p1 ++ p2), t2, c2. split_and!; [by rewrite (assoc_L (++))| |done].
    by exists p1, p2, c1.
  - destruct (rmatch r1 s c k) eqn:H1.
    + intros [= <-]. apply IH1 in H1 as (pre & rest & c' & ? & ? & ?).
      exists pre, rest, c'. auto.
    + intros H. apply IH2 in H as (pre & rest & c' & ? & ? & ?).
      exists pre, rest, c'. auto.
  - destruct (rmatch r s c k) eqn:H1.
    + intros [= <-]. apply IH in H1 as (pre & rest & c' & ? & ? & ?).
      exists pre, rest, c'. auto.
    + intros H. exists [], s, c. auto.
  - intros H. apply lazy_loop_matched in H as (pre & rest & -> & Hp & H).
    by exists pre, rest, c.
  - destruct s as [|x s]; [done|]. destruct (p x) eqn:Hx; [|done].
    intros H. apply lazy_loop_matched in H as (pre & rest & -> & Hp & H).
    exists (x :: pre), rest, c. split; [done|]. split; [|done].
    split; [|done]. split; [done|]. by constructor.
  - intros H. apply IH in H as (pre & rest & c' & -> & Hm & H).
    exists pre, rest, (<[g := pre]> c'). split_and!; [done|by exists c'|].
    rewrite length_app in H.
    replace (length pre + length rest - length rest) with (length pre)
      in H by lia.
    by rewrite take_app_length in H.
  - destruct s as [|x [|y s]]; [|destruct (Ascii.eqb_spec x "010") as [->|]|];
      try done.
    + intros H. exists [], [], c. repeat split; auto.
    + intros H. exists [], ["010"], c. repeat split; auto.
Qed.

(** A literal word matches itself only. *)
Lemma matched_word (w pre rest : str) (c c' : caps) :
  matched (foldr (λ a r, Cat (Chr a) r) Eps w) pre rest c c' →
  pre = w ∧ c' = c.
Proof.
  revert pre c. induction w as [|a w IH]; intros pre c; simpl.
  - done.
  - intros (p1 & p2 & c1 & -> & [-> ->] & H). apply IH in H as [-> ->]. done.
Qed.
End MatchedFacts.

(** ** Archive identity, further *)

Section WheelMore.
Import Re WheelFile.

Lemma matched_lazy_group (g pre rest : str) (c c' : caps) :
  matched (Grp g (LazyPlus dot)) pre rest c c' →
  pre ≠ [] ∧ Forall (λ x, dot x = true) pre ∧ c' = <[g := pre]> c.
Proof. cbn [matched]. intros (c1 & [[? ?] ->] & ->). done. Qed.

Lemma digit_dot (d : ascii) : digit d = true → dot d = true.
Proof.
  unfold digit, dot. intros [H _]%andb_true_iff.
  destruct (Ascii.eqb_spec d "010") as [->|]; [|done]. done.
Qed.

Lemma matched_re_ver (pre rest : str) (c c' : caps) :
  matched re_ver pre rest c c' →
  ∃ v, pre = "-" :: v ∧ version_shape v ∧ c' = <[py "ver" := v]> c.
Proof.
  unfold re_ver. cbn [matched].
  intros (p1 & p2 & c1 & -> & [-> ->] & c2 & Hv & ->).
  destruct Hv as (q1 & q2 & c3 & -> & [(d & -> & Hd) ->] & [[Hne Hq] ->]).
  exists (d :: q2). split_and!; [done| |done].
  exists d, q2. split_and!; [done..|]. constructor; [by apply digit_dot|done].
Qed.

Lemma matched_re_build (pre rest : str) (c c' : caps) :
  matched re_build pre rest c c' →
  ∃ b, pre = "-" :: b ∧ build_shape b ∧ c' = <[py "build" := b]> c.
Proof.
  unfold re_build. cbn [matched].
  intros (p1 & p2 & c1 & -> & [-> ->] & c2 & Hv & ->).
  destruct Hv as (q1 & q2 & c3 & -> & [(d & -> & Hd) ->] & [Hq ->]).
  exists (d :: q2). split_and!; [done| |done].
  exists d, q2. split_and!; [done..|]. constructor; [by apply digit_dot|done].
Qed.

Lemma matched_re_tags (pre rest : str) (c c' : caps) :
  matched re_tags pre rest c c' →
  ∃ pyver abi plat,
    pre = tags_name pyver abi plat
    ∧ part_shape pyver ∧ part_shape abi ∧ part_shape plat
    ∧ c' = <[py "plat" := plat]>
             (<[py "abi" := abi]> (<[py "pyver" := pyver]> c)).
Proof.
  unfold re_tags. cbn [matched].
  intros (? & ? & ? & -> & [-> ->]
          & pyver & ? & ? & -> & (? & [[? ?] ->] & ->)
          & ? & ? & ? & -> & [-> ->]
          & abi & ? & ? & -> & (? & [[? ?] ->] & ->)
          & ? & ? & ? & -> & [-> ->]
          & plat & ? & ? & -> & (? & [[? ?] ->] & ->) & Hwhl).
  apply matched_word in Hwhl as [-> ->].
  exists pyver, abi, plat. split_and!; [|done..]. reflexivity.
Qed.

(** What comes after [namever]: the rest of a wheel name, with its
    groups, or [.dist-info], with none; then the end of the string or a
    last line end. *)
Lemma matched_re_tail (pre rest : str) (c c' : caps) :
  matched re_tail pre rest c c' →
  (rest = [] ∨ rest = ["010"])
  ∧ ((∃ build pyver abi plat,
        pre = build_name build ++ tags_name pyver abi plat
        ∧ from_option build_shape True build
        ∧ part_shape pyver ∧ part_shape abi ∧ part_shape plat
        ∧ c' = tail_caps build pyver abi plat c)
     ∨ (pre = py ".dist-info" ∧ c' = c)).
Proof.
  unfold re_tail. cbn [matched].
  intros (p1 & p2 & c1 & -> & Halt & [[-> Hrest] ->]).
  split; [done|]. rewrite app_nil_r. destruct Halt as [Hwhl|Hinfo].
  - left. destruct Hwhl as (q1 & q2 & c2 & -> & Hbuild & Htags).
    apply (matched_re_tags q2 ([] ++ rest)) in Htags
      as (pyver & abi & plat & -> & Hpy & Habi & Hplat & ->).
    destruct Hbuild as [Hbuild|[-> ->]].
    + apply (matched_re_build q1 (tags_name pyver abi plat ++ [] ++ rest))
        in Hbuild as (b & -> & Hb & ->).
      by exists (Some b), pyver, abi, plat.
    + by exists None, pyver, abi, plat.
  - right. by apply (matched_word _ p1 ([] ++ rest)) in Hinfo.
Qed.

(** What the pattern of wheel file names matches, and the groups it
    gives. *)
Lemma matched_wheel_file_re (pre rest : str) (m : caps) :
  matched wheel_file_re pre rest ∅ m →
  (rest = [] ∨ rest = ["010"])
  ∧ ∃ name over c1,
      part_shape name
      ∧ from_option version_shape True over
      ∧ c1 = <[py "namever" := name ++ build_name over]>
               (match over with
                | Some v => <[py "ver" := v]> (<[py "name" := name]> ∅)
                | None => <[py "name" := name]> ∅
                end)
      ∧ ((∃ build pyver abi plat,
            pre = name ++ build_name over ++ build_name build
                  ++ tags_name pyver abi plat
            ∧ from_option build_shape True build
            ∧ part_shape pyver ∧ part_shape abi ∧ part_shape plat
            ∧ m = tail_caps build pyver abi plat c1)
         ∨ (pre = name ++ build_name over ++ py ".dist-info" ∧ m = c1)).
Proof.
  unfold wheel_file_re. cbn [matched].
  intros (p1 & p2 & c1 & -> & (c2 & Hnv & ->) & Htail).
  destruct Hnv as (q1 & q2 & c3 & -> & Hname & Hver).
  destruct Hname as (? & [[Hne Hdot] ->] & ->).
  apply (matched_re_tail p2 rest) in Htail as [Hrest Htail]. split; [done|].
  assert (∃ over, q2 = build_name over
                  ∧ from_option version_shape True over
                  ∧ c2 = match over with
                         | Some v => <[py "ver" := v]> (<[py "name" := q1]> ∅)
                         | None => <[py "name" := q1]> ∅
                         end) as (over & -> & Hover & ->).
  { destruct Hver as [Hver|[-> ->]].
    - apply (matched_re_ver q2 (p2 ++ rest)) in Hver as (v & -> & Hv & ->).
      by exists (Some v).
    - by exists None. }
  eexists q1, over, _. split_and!; [done|done|reflexivity|].
  destruct Htail as [(build & pyver & abi & plat & -> & ? & ? & ? & ? & ->)
                    |[-> ->]].
  - left. exists build, pyver, abi, plat.
    split_and!; [|done..]. by rewrite <- !(assoc_L (++)).
  - right. split; [|done]. by rewrite <- !(assoc_L (++)).
Qed.

Lemma caps_key_eq (k : string) (c : caps) (v : str) :
  <[py k := v]> c !! py k = Some v.
Proof. apply lookup_insert_eq. Qed.

Lemma caps_key_ne (a b : string) (c : caps) (v : str) :
  py a ≠ py b → <[py a := v]> c !! py b = c !! py b.
Proof. intros Hne. by rewrite lookup_insert_ne. Qed.

Ltac caps_lookup :=
  repeat first
    [ rewrite caps_key_eq
    | rewrite caps_key_ne
        by (let Hkey := fresh in
            intros Hkey; vm_compute in Hkey; discriminate Hkey)
    | rewrite lookup_empty ].

End WheelMore.

Section TagFacts.
Import Re WheelFile.

Lemma split_cons_inv (sp : ascii) (s : str) : ∃ w ws, split sp s = w :: ws.
Proof.
  induction s as [|c s (w & ws & IH)]; simpl; [by eauto|].
  case_decide; [by eauto|]. rewrite IH. eauto.
Qed.

Lemma split_no_sep (sp : ascii) (s w : str) : w ∈ split sp s → sp ∉ w.
Proof.
  revert w. induction s as [|c s IH]; simpl; intros w.
  - intros ->%list_elem_of_singleton. apply not_elem_of_nil.
  - case_decide as Hc.
    + intros [->|Hw]%elem_of_cons; [apply not_elem_of_nil|by apply IH].
    + destruct (split_cons_inv sp s) as (w0 & ws & Hs). rewrite Hs in *.
      intros [->|Hw]%elem_of_cons.
      * intros [?|Hin]%elem_of_cons; [done|].
        by apply (IH w0); [left|].
      * apply IH. by right.
Qed.

Lemma replace_not_elem (a b : ascii) (s : str) : a ≠ b → a ∉ replace a b s.
Proof.
  intros Hab Hin. unfold replace in Hin.
  apply list_elem_of_fmap in Hin as (c & Hc & _). by case_decide.
Qed.

Lemma product_elem_of (xs ys zs : list str) (x y z : str) :
  (x, y, z) ∈ (x ← xs; y ← ys; z ← zs; [(x, y, z)])
  ↔ x ∈ xs ∧ y ∈ ys ∧ z ∈ zs.
Proof.
  rewrite list_elem_of_bind. split.
  - intros (x' & H & Hx). apply list_elem_of_bind in H as (y' & H & Hy).
    apply list_elem_of_bind in H as (z' & H & Hz).
    apply list_elem_of_singleton in H as [= -> -> ->]. done.
  - intros (Hx & Hy & Hz). exists x. split; [|done].
    apply list_elem_of_bind. exists y. split; [|done].
    apply list_elem_of_bind. exists z. split; [|done]. left.
Qed.

(** X21: what every wheel that [Wheel.__init__] has made holds. Its tags
    are all the combinations of a Python tag, an ABI tag and a platform
    tag of its three lists, and there is at least one; no tag has a dot
    left in it, so a compressed tag set is always expanded in full; and
    no underscore is left in the name or the version. *)
Theorem Wheel_init_invariants (f : str) (w : Wheel) :
  Wheel_init f = inr w →
  filename w = f
  ∧ file_tags w ≠ ∅
  ∧ (∀ x y z, (x, y, z) ∈ file_tags w
              ↔ x ∈ pyversions w ∧ y ∈ abis w ∧ z ∈ plats w)
  ∧ (∀ x y z, (x, y, z) ∈ file_tags w →
       ("." ∉ x) ∧ ("." ∉ y) ∧ ("." ∉ z))
  ∧ ("_" ∉ name w) ∧ ("_" ∉ version w).
Proof.
  unfold Wheel_init. destruct (re_match wheel_file_re f) as [m|]; [|done].
  destruct (group m "name") as [n|]; [|done].
  destruct (group m "ver") as [v|]; [|done].
  destruct (group m "pyver") as [p|]; [|done].
  destruct (group m "abi") as [a|]; [|done].
  destruct (group m "plat") as [l|]; [|done].
  cbn [deref bind]. intros [= <-]. cbn [filename file_tags pyversions abis
    plats name version].
  assert (∀ x y z,
            (x, y, z) ∈ (list_to_set
                           (x ← split "." p; y ← split "." a;
                            z ← split "." l; [(x, y, z)]) : gset tag)
            ↔ x ∈ split "." p ∧ y ∈ split "." a ∧ z ∈ split "." l) as Hin.
  { intros x y z. rewrite elem_of_list_to_set. apply product_elem_of. }
  split_and!; [done| |done| |by apply replace_not_elem..].
  - destruct (split_cons_inv "." p) as (x & xs & Hp).
    destruct (split_cons_inv "." a) as (y & ys & Ha).
    destruct (split_cons_inv "." l) as (z & zs & Hl).
    intros Hemp. apply (not_elem_of_empty (C := gset tag) (x, y, z)).
    rewrite <- Hemp. apply Hin. rewrite Hp, Ha, Hl. split_and!; left.
  - intros x y z (Hx & Hy & Hz)%Hin.
    split_and!; by eapply split_no_sep.
Qed.
End TagFacts.

(** A wheel for two Python versions. *)
Lemma Wheel_init_invariants_witness :
  let w := {| WheelFile.filename := py "foo_bar-1.0-py2.py3-none-any.whl";
              WheelFile.name := py "foo-bar";
              WheelFile.version := py "1.0";
              WheelFile.pyversions := [py "py2"; py "py3"];
              WheelFile.abis := [py "none"];
              WheelFile.plats := [py "any"];
              WheelFile.file_tags :=
                list_to_set [(py "py2", py "none", py "any");
                             (py "py3", py "none", py "any")] |} in
  WheelFile.Wheel_init (py "foo_bar-1.0-py2.py3-none-any.whl") = inr w
  ∧ WheelFile.file_tags w ≠ ∅
  ∧ ("_" ∉ WheelFile.name w).
Proof.
  intros w.
  assert (WheelFile.Wheel_init (py "foo_bar-1.0-py2.py3-none-any.whl")
          = inr w) as H by (vm_compute; reflexivity).
  destruct (Wheel_init_invariants _ w H) as (_ & Hne & _ & _ & Hn & _).
  split_and!; [exact H|exact Hne|exact Hn].
Defined.


(** ** Pure or platform library *)

Section PurelibFacts.
Import Re Posix WheelFile Purelib.

#[local] Abbreviation K0 := (λ (_ : str) (c : caps), Some c).
#[local] Abbreviation kE := (λ (s : str) (c : caps), rmatch Eos s c K0).

(** [\.dist-info$] does not match in front of a character that comes
    before [.dist-info]. *)
Lemma dist_info_tail_none (x : ascii) (b : str) (c : caps) :
  rmatch (Lit ".dist-info") (x :: b ++ py ".dist-info") c kE = None.
Proof.
  destruct (rmatch _ _ c kE) as [m|] eqn:H; [|done]. exfalso.
  apply rmatch_word_Some in H as (s' & Heq & H).
  apply rmatch_Eos_Some in H.
  assert (length s' = S (length b)) as Hlen.
  { apply (f_equal length) in Heq. cbn [length] in Heq.
    rewrite !length_app in Heq.
    change (length (py ".dist-info")) with 10 in Heq. lia. }
  destruct H as [->| ->]; [done|].
  change (x :: b ++ py ".dist-info")
    with ((x :: b) ++ py ".dist-inf" ++ ["o"]) in Heq.
  rewrite (assoc_L (++)) in Heq.
  by apply app_inj_tail in Heq as [_ ?].
Qed.

(** The pattern on [{name}-{version}.dist-info]: it matches, and the
    groups hold the name and the version. *)
Lemma dist_info_re_match (name ver : str) :
  segment name → version_segment ver →
  re_match dist_info_re (dist_info_name name ver)
  = Some (dist_info_caps name ver).
Proof.
  intros Hname Hver. unfold re_match, dist_info_re, dist_info_name.
  rewrite rmatch_Cat, rmatch_Grp, rmatch_Cat.
  apply group_segment; [done|..].
  - intros x b c' Hx. rewrite rmatch_Opt.
    unfold re_ver at 1. rewrite rmatch_hyphen_head by done.
    rewrite rmatch_Cat. apply dist_info_none.
    rewrite hyphens_cons, !hyphens_app, hyphens_cons, hyphens_app.
    change (hyphens (py ".dist-info")) with 1.
    rewrite (decide_True (P := "-" = "-")) by done. lia.
  - rewrite rmatch_Opt. unfold re_ver at 1. rewrite rmatch_Cat.
    rewrite rmatch_Chr, Ascii.eqb_refl.
    rewrite (group_version _ ver (py ".dist-info") _
               (dist_info_caps name ver)); [done|done|..].
    + intros x b c' Hx. rewrite rmatch_Cat. apply dist_info_tail_none.
    + replace (length (name ++ "-" :: ver ++ py ".dist-info")
               - length (py ".dist-info"))
        with (length (name ++ "-" :: ver))
        by (rewrite !length_app; cbn [length]; rewrite !length_app; lia).
      replace (name ++ "-" :: ver ++ py ".dist-info")
        with ((name ++ "-" :: ver) ++ py ".dist-info")
        by (by rewrite <- (assoc_L (++))).
      rewrite take_app_length, rmatch_Cat. apply rmatch_Lit_end.
Qed.

Lemma dist_info_caps_name (name ver : str) :
  group (dist_info_caps name ver) "name" = Some name.
Proof.
  unfold group, dist_info_caps.
  rewrite !lookup_insert_ne
    by (intros Hkey; vm_compute in Hkey; discriminate Hkey).
  apply lookup_insert_eq.
Qed.

Lemma matched_dist_info_re (pre rest : str) (m : caps) :
  matched dist_info_re pre rest ∅ m →
  ∃ name over,
    pre = name ++ build_name over ++ py ".dist-info"
    ∧ (rest = [] ∨ rest = ["010"])
    ∧ part_shape name ∧ from_option version_shape True over
    ∧ group m "name" = Some name.
Proof.
  unfold dist_info_re. cbn [matched].
  intros (p1 & p2 & c1 & -> & (c2 & Hnv & ->) & Htail).
  destruct Hnv as (q1 & q2 & c3 & -> & (? & [[Hne Hdot] ->] & ->) & Hver).
  destruct Htail as (t1 & t2 & c4 & -> & Hlit & [[-> Hrest] ->]).
  apply (matched_word _ t1 ([] ++ rest)) in Hlit as [-> ->].
  rewrite app_nil_r.
  assert (∃ over, q2 = build_name over
                  ∧ from_option version_shape True over
                  ∧ c2 !! py "name" = Some q1) as (over & -> & Hover & Hc2).
  { destruct Hver as [Hver|[-> ->]].
    - apply (matched_re_ver q2 (py ".dist-info" ++ rest)) in Hver
        as (v & -> & Hv & ->).
      exists (Some v). split_and!; [done..|].
      rewrite lookup_insert_ne
        by (intros Hkey; vm_compute in Hkey; discriminate Hkey).
      apply lookup_insert_eq.
    - exists None. split_and!; [done..|]. apply lookup_insert_eq. }
  exists q1, over. split_and!; [by rewrite <- (assoc_L (++))|done..|].
  unfold group.
  rewrite lookup_insert_ne
    by (intros Hkey; vm_compute in Hkey; discriminate Hkey).
  done.
Qed.


Section RootIsPurelibFacts.
Context (lines : str → list str) (isspace : ascii → bool).

#[local] Abbreviation is_purelib_line := (is_purelib_line isspace).
#[local] Abbreviation scan_lines := (scan_lines isspace).
#[local] Abbreviation scan_items := (scan_items lines isspace).
#[local] Abbreviation root_is_purelib := (root_is_purelib lines isspace).

Lemma scan_lines_true (ls : list str) :
  scan_lines ls = true ↔ ∃ line, line ∈ ls ∧ is_purelib_line line = true.
Proof.
  induction ls as [|l ls IH]; simpl.
  - split; [done|]. intros (line & H & _). by apply elem_of_nil in H.
  - destruct (is_purelib_line l) eqn:Hl.
    + split; [|done]. intros _. exists l. split; [left|done].
    + rewrite IH. split.
      * intros (line & ? & ?). exists line. split; [by right|done].
      * intros (line & [->|?]%elem_of_cons & ?); [congruence|eauto].
Qed.

(** X23: [root_is_purelib] looks into the file WHEEL of every entry of
    [wheeldir] that is a metadata directory of the package, in the order
    of the listing, until one has a line that reads
    [root-is-purelib: true] once it is put in lower case and white
    space is taken from its end. When each of these directories has its
    WHEEL, it raises nothing, and it answers [True] exactly when one of
    them has such a line. *)
Theorem root_is_purelib_spec (name wheeldir : str) (listdir : list str)
    (fs : gmap str str) :
  let name_folded := replace "-" "_" name in
  let wheel_of item := fs !! join3 wheeldir item (py "WHEEL") in
  (∀ item, item ∈ listdir → is_dist_info_of name_folded item = true →
           is_Some (wheel_of item)) →
  ∃ b,
    root_is_purelib name wheeldir listdir fs = inr b
    ∧ (b = true
       ↔ ∃ item wheel line,
           item ∈ listdir ∧ is_dist_info_of name_folded item = true
           ∧ wheel_of item = Some wheel ∧ line ∈ lines wheel
           ∧ is_purelib_line line = true).
Proof.
  intros name_folded wheel_of. unfold Purelib.root_is_purelib.
  fold name_folded. induction listdir as [|item rest IH]; intros Hfiles.
  - exists false. split; [done|]. split; [done|].
    intros (item & ? & ? & H & _). by apply elem_of_nil in H.
  - destruct IH as (b & Hrun & Hb).
    { intros i Hi. apply Hfiles. by right. }
    cbn [Purelib.scan_items].
    destruct (is_dist_info_of name_folded item) eqn:Hitem.
    + destruct (Hfiles item) as [wheel Hwheel]; [left|done|].
      unfold wheel_of in Hwheel. rewrite Hwheel.
      destruct (scan_lines (lines wheel)) eqn:Hscan.
      * exists true. split; [done|]. split; [|done]. intros _.
        apply scan_lines_true in Hscan as (line & ? & ?).
        exists item, wheel, line. split_and!; [left|done..].
      * exists b. split; [done|]. rewrite Hb. split.
        -- intros (i & w & l & ? & ?). exists i, w, l.
           split; [by right|done].
        -- intros (i & w & l & [->|?]%elem_of_cons & Hi & Hw & Hl & Hp);
             [|by eauto 10].
           unfold wheel_of in Hw. rewrite Hwheel in Hw.
           injection Hw as <-.
           assert (scan_lines (lines wheel) = true) as Hyes
             by (apply scan_lines_true; eauto).
           congruence.
    + exists b. split; [done|]. rewrite Hb. split.
      * intros (i & w & l & ? & ?). exists i, w, l. split; [by right|done].
      * intros (i & w & l & [->|?]%elem_of_cons & Hi & ?);
          [congruence|by eauto 10].
Qed.

(** X24: a metadata directory of the package without its WHEEL makes
    [root_is_purelib] raise the [IOError] of that file, unless a
    directory that comes before it in the listing has settled the
    answer. *)
Theorem root_is_purelib_missing_wheel (name wheeldir : str)
    (before after : list str) (item : str) (fs : gmap str str) :
  let name_folded := replace "-" "_" name in
  is_dist_info_of name_folded item = true →
  fs !! join3 wheeldir item (py "WHEEL") = None →
  (∀ i, i ∈ before → is_dist_info_of name_folded i = true →
        ∃ wheel, fs !! join3 wheeldir i (py "WHEEL") = Some wheel
                 ∧ scan_lines (lines wheel) = false) →
  root_is_purelib name wheeldir (before ++ item :: after) fs
  = inl (IOError (join3 wheeldir item (py "WHEEL"))).
Proof.
  intros name_folded Hitem Hnone. unfold Purelib.root_is_purelib.
  fold name_folded. induction before as [|i before IH]; intros Hbefore.
  - cbn [app Purelib.scan_items]. by rewrite Hitem, Hnone.
  - cbn [app Purelib.scan_items].
    destruct (is_dist_info_of name_folded i) eqn:Hi.
    + destruct (Hbefore i) as (wheel & -> & ->); [left|done|].
      apply IH. intros j Hj. apply Hbefore. by right.
    + apply IH. intros j Hj. apply Hbefore. by right.
Qed.
End RootIsPurelibFacts.
End PurelibFacts.

(** An unpacked wheel of [foo-bar] with its metadata directory, whose
    WHEEL says that the root is pure. *)
Lemma root_is_purelib_spec_witness :
  let wheel :=
    py "Wheel-Version: 1.0" ++ ["010"] ++ py "Root-Is-Purelib: true"
    ++ ["013"; "010"] in
  let fs : gmap str str :=
    {[ py "/tmp/w/foo_bar-1.0.dist-info/WHEEL" := wheel ]} in
  Purelib.root_is_purelib Purelib.newline_lines Purelib.ascii_space
    (py "foo-bar") (py "/tmp/w") [py "foo_bar"; py "foo_bar-1.0.dist-info"] fs
  = inr true.
Proof.
  intros wheel fs.
  destruct (root_is_purelib_spec Purelib.newline_lines Purelib.ascii_space
              (py "foo-bar") (py "/tmp/w")
              [py "foo_bar"; py "foo_bar-1.0.dist-info"] fs)
    as (b & Hrun & Hb).
  - intros item [->|[->|[]%elem_of_nil]%elem_of_cons]%elem_of_cons Hitem.
    + vm_compute in Hitem. discriminate Hitem.
    + by eexists.
  - rewrite Hrun. f_equal. apply Hb.
    exists (py "foo_bar-1.0.dist-info"), wheel,
      (py "Root-Is-Purelib: true" ++ ["013"; "010"]).
    split_and!; [right; left|by vm_compute|done|right; left|by vm_compute].
Defined.

(** The metadata directory is there and its WHEEL is not. *)
Lemma root_is_purelib_missing_wheel_witness :
  Purelib.root_is_purelib Purelib.newline_lines Purelib.ascii_space
    (py "foo") (py "/tmp/w") ([py "foo"] ++ py "foo-1.0.dist-info" :: []) ∅
  = inl (IOError (py "/tmp/w/foo-1.0.dist-info/WHEEL")).
Proof.
  apply (root_is_purelib_missing_wheel Purelib.newline_lines
           Purelib.ascii_space (py "foo") (py "/tmp/w") [py "foo"] []
           (py "foo-1.0.dist-info") ∅).
  - by vm_compute.
  - done.
  - intros i ->%list_elem_of_singleton Hi. vm_compute in Hi. discriminate Hi.
Defined.
